(** * traaitt: parameter validation, EventLock and the cooperative runtime

    A shallow embedding of

    - [src/errors/ValidateParameters.cpp] (the wallet's parameter checks),
    - [src/system/EventLock.cpp] (the scoped guard built on [System::Event]),
    - [src/platform/windows/system/TcpConnector.h] (the connector's interface),

    together with models of the runtime pieces those files are written
    against ([System::Event], [System::Dispatcher], the socket layer), which
    are taken from the design document where the repository sources are not
    at hand. *)

From Stdlib Require Import ZArith Lia Bool Ascii String List.
From Stdlib Require Import Floats.SpecFloat.
From stdpp Require Import base decidable option list strings gmap.

Open Scope Z_scope.

(* ===================================================================== *)
(** * Part I: definitions                                                 *)
(* ===================================================================== *)

Module ValidateParameters.

(** ** Error values ([errors/Errors.h]) *)

(** The error codes the functions of [ValidateParameters.cpp] produce. *)
Inductive ErrorCode : Set :=
| SUCCESS
| NO_DESTINATIONS_GIVEN
| AMOUNT_IS_ZERO
| ADDRESS_WRONG_LENGTH
| ADDRESS_WRONG_PREFIX
| ADDRESS_NOT_BASE58
| ADDRESS_NOT_VALID
| INTEGRATED_ADDRESS_PAYMENT_ID_INVALID
| ADDRESS_IS_INTEGRATED
| ADDRESS_NOT_IN_WALLET
| CONFLICTING_PAYMENT_IDS
| HASH_WRONG_LENGTH
| HASH_INVALID
| PAYMENT_ID_WRONG_LENGTH
| PAYMENT_ID_INVALID
| INVALID_PRIVATE_KEY
| INVALID_PUBLIC_KEY
| MIXIN_TOO_SMALL
| MIXIN_TOO_BIG
| FEE_TOO_SMALL
| WILL_OVERFLOW
| NOT_ENOUGH_BALANCE
| AMOUNT_UGLY.

#[global] Instance ErrorCode_eq_dec : EqDecision ErrorCode.
Proof. solve_decision. Defined.

(** [class Error]: a code and an optional custom message. *)
Record Error : Set := mkError
  { m_errorCode : ErrorCode;
    m_customErrorMessage : string }.

#[global] Instance Error_eq_dec : EqDecision Error.
Proof. solve_decision. Defined.

(** The converting constructor [Error(const ErrorCode code)], which is what
    [return SUCCESS;] and [return FEE_TOO_SMALL;] go through. *)
Definition Error_of_code (code : ErrorCode) : Error :=
  {| m_errorCode := code; m_customErrorMessage := EmptyString |}.

Coercion Error_of_code : ErrorCode >-> Error.

(** [Error::operator!=(const ErrorCode)]: only the code is compared. *)
Definition Error_ne (error : Error) (code : ErrorCode) : bool :=
  negb (bool_decide (m_errorCode error = code)).

(** ** Outcomes: a value returned, or a C++ exception leaving the function *)

Inductive Outcome (A : Type) : Type :=
| Returned (a : A)
| Threw (what : string).

Arguments Returned {A} a.
Arguments Threw {A} what.

Definition bind {A B : Type} (o : Outcome A) (k : A -> Outcome B) : Outcome B :=
  match o with
  | Returned a => k a
  | Threw what => Threw what
  end.

Notation "'let!' x ':=' o 'in' k" := (bind o (fun x => k))
  (at level 10, x name, o at level 100, k at level 200).

(** The idiom
    [if (Error error = f(...); error != SUCCESS) { return error; }]
    followed by the rest of the function. An exception thrown by [f]
    leaves the caller as well. *)
Definition check (o : Outcome Error) (rest : Outcome Error) : Outcome Error :=
  let! error := o in
  if Error_ne error SUCCESS then Returned error else rest.

Notation "'check!' o 'in' k" := (check o k)
  (at level 10, o at level 100, k at level 200).

(** ** Machine integers and strings *)

Definition UINT64_MOD : Z := 2 ^ 64.

Definition in_uint64 (n : Z) : Prop := 0 <= n < UINT64_MOD.

(** [uint64_t] addition. *)
Definition add64 (a b : Z) : Z := (a + b) mod UINT64_MOD.

(** The decimal digit character of [d] (for [0 <= d <= 9]). *)
Definition digit_char (d : Z) : ascii := ascii_of_nat (Z.to_nat (48 + d)).

Fixpoint to_string_aux (fuel : nat) (n : Z) (acc : string) : string :=
  match fuel with
  | O => acc
  | S fuel' =>
      let acc' := String (digit_char (n mod 10)) acc in
      if n <? 10 then acc' else to_string_aux fuel' (n / 10) acc'
  end.

(** [std::to_string] on a [uint64_t]: the decimal digits, most significant
    first, no leading zero (twenty digits are enough below [2^64]). *)
Definition to_string (n : Z) : string := to_string_aux 20 n EmptyString.

(** Code of a character, as the [int] that [c - '0'] is computed in. *)
Definition char_code (c : ascii) : Z := Z.of_nat (nat_of_ascii c).

(** [s.substr(0, n)]: the first [n] characters, or all of [s] when it is
    shorter. *)
Definition substr_to (s : string) (n : nat) : string := substring 0 n s.

(** [s.substr(pos, std::string::npos)]: throws [std::out_of_range] when
    [pos > s.size()]. The text of the exception is the library's; it is
    given as libstdc++ has it. *)
Definition substr_from (s : string) (pos : nat) : Outcome string :=
  if (pos <=? String.length s)%nat
  then Returned (substring pos (String.length s - pos) s)
  else Threw ("basic_string::substr: __pos (which is "
              ++ to_string (Z.of_nat pos) ++ ") > this->size() (which is "
              ++ to_string (Z.of_nat (String.length s)) ++ ")").

(** ** The regular expressions used ([std::regex], ECMAScript grammar) *)

(** Only the constructs that occur: a bracket expression made of character
    ranges, and the bounded repetition [r{n}]. *)
Inductive regex : Set :=
| Bracket (ranges : list (ascii * ascii))
| Repeat (r : regex) (n : nat).

Definition in_range (c : ascii) (range : ascii * ascii) : bool :=
  (nat_of_ascii (fst range) <=? nat_of_ascii c)%nat
  && (nat_of_ascii c <=? nat_of_ascii (snd range))%nat.

Definition in_ranges (c : ascii) (ranges : list (ascii * ascii)) : bool :=
  existsb (in_range c) ranges.

(** Matching a prefix of [s]; the result is the unmatched rest. For the
    constructs above the match is unique, so no backtracking is needed. *)
Fixpoint match_prefix (r : regex) (s : string) : option string :=
  match r with
  | Bracket ranges =>
      match s with
      | EmptyString => None
      | String c s' => if in_ranges c ranges then Some s' else None
      end
  | Repeat r' n =>
      (fix rep (n : nat) (s : string) : option string :=
         match n with
         | O => Some s
         | S n' =>
             match match_prefix r' s with
             | Some s' => rep n' s'
             | None => None
             end
         end) n s
  end.

(** [std::regex_match]: the whole string has to match. *)
Definition regex_match (s : string) (r : regex) : bool :=
  match match_prefix r s with
  | Some EmptyString => true
  | _ => false
  end.

(** [std::regex hexRegex("[a-zA-Z0-9]{64}")] *)
Definition hexRegex : regex :=
  Repeat (Bracket [("a"%char, "z"%char); ("A"%char, "Z"%char); ("0"%char, "9"%char)]) 64.

(** ** [validateHash] and [validatePaymentID] *)

Definition validateHash (hash : string) : Error :=
  if negb (String.length hash =? 64)%nat then HASH_WRONG_LENGTH
  else if negb (regex_match hash hexRegex) then HASH_INVALID
  else SUCCESS.

Definition validatePaymentID (paymentID : string) : Error :=
  if String.eqb paymentID EmptyString then SUCCESS
  else if negb (String.length paymentID =? 64)%nat then PAYMENT_ID_WRONG_LENGTH
  else if negb (regex_match paymentID hexRegex) then PAYMENT_ID_INVALID
  else SUCCESS.

(** ** [validateOptimizeTarget] *)

(** IEEE 754 binary64, the type of C++ [double]. *)
Definition double : Set := spec_float.

(** Conversion of an integer to [double] (round to nearest, ties to even). *)
Definition double_of_int (n : Z) : double := binary_normalize 53 1024 n 0 false.

Definition double_mul (x y : double) : double := SFmul 53 1024 x y.

(** [pow(10, k)] of [<cmath>] for an unsigned integer [k]. The C library is
    not part of the repository; its [pow] is taken to return the double
    nearest to [10^k], which is [10^k] itself whenever that is a double. *)
Definition pow10 (k : nat) : double :=
  binary_normalize 53 1024 (10 ^ Z.of_nat k) 0 false.

(** Conversion of a [double] to [uint64_t]: the fractional part is dropped;
    the conversion is undefined ([None]) when the truncated value does not
    fit. *)
Definition uint64_of_double (x : double) : option Z :=
  match x with
  | S754_zero _ => Some 0
  | S754_finite false m e =>
      let v := Z.shiftl (Z.pos m) e in
      if v <? UINT64_MOD then Some v else None
  | S754_finite true m e =>
      if Z.shiftl (Z.pos m) e =? 0 then Some 0 else None
  | S754_infinity _ | S754_nan => None
  end.

(** [strTarget[0]]; on an empty string this is the terminating NUL. *)
Definition front (s : string) : ascii :=
  match s with
  | String c _ => c
  | EmptyString => zero
  end.

(** [(strTarget[0] - '0') * pow(10, strTarget.length() - 1)], converted to
    [uint64_t]. *)
Definition validTarget (strTarget : string) : option Z :=
  uint64_of_double
    (double_mul (double_of_int (char_code (front strTarget) - char_code "0"))
                (pow10 (String.length strTarget - 1))).

(** [None] stands for an execution whose double-to-integer conversion is
    undefined. *)
Definition validateOptimizeTarget (optimizeTarget : option Z) : option Error :=
  match optimizeTarget with
  | None => Some (Error_of_code SUCCESS)
  | Some target =>
      let strTarget := to_string target in
      match validTarget strTarget with
      | None => None
      | Some valid =>
          if negb (target =? valid) then Some (Error_of_code AMOUNT_UGLY)
          else Some (Error_of_code SUCCESS)
      end
  end.

(** ** What [ValidateParameters.cpp] is compiled against

    The headers it includes ([config/], [utilities/], [common/], [crypto/],
    the [SubWallets] container) are taken as an interface: the types are
    abstract, the functions arbitrary. A [bool] function that fills
    out-parameters returns an [option]; out-parameters that the callers
    ignore are left out. *)
Class Collaborators : Type :=
  { (* Crypto and wallet types *)
    PublicKey : Type;
    PublicKey_eq_dec :: EqDecision PublicKey;
    SecretKey : Type;
    AccountPublicAddress : Type;
    BinaryArray : Type;
    SubWallets : Type;
    FeePerByte : Type;
    (* WalletConfig / CryptoNote::parameters *)
    standardAddressLength : nat;
    integratedAddressLength : nat;
    addressPrefix : string;
    CRYPTONOTE_PUBLIC_ADDRESS_BASE58_PREFIX : Z;
    MINIMUM_FEE_PER_BYTE_V1 : FeePerByte;
    feePerByte_lt : FeePerByte -> FeePerByte -> bool;
    (* Utilities *)
    extractIntegratedAddressData : string -> string * string;
    addressesToSpendKeys : list string -> list PublicKey;
    addressToKeys : string -> PublicKey * PublicKey;
    getTransactionSum : list (string * Z) -> Z;
    sumWillOverflow : list Z -> bool;
    getMixinAllowableRange : Z -> Z * Z * Z;
    parseAccountAddressString : string -> bool;
    getAccountAddressAsStr : Z -> AccountPublicAddress -> string;
    (* Tools::Base58, CryptoNote, Common *)
    decode_addr : string -> option (Z * string);
    createTxExtraWithPaymentId : string -> bool;
    asBinaryArray : string -> BinaryArray;
    fromBinaryArray : BinaryArray -> option AccountPublicAddress;
    (* SubWallets *)
    m_publicSpendKeys : SubWallets -> list PublicKey;
    getBalance : SubWallets -> list PublicKey -> bool -> Z -> Z * Z;
    (* crypto *)
    sc_check : SecretKey -> Z;
    check_key : PublicKey -> bool }.

(** [WalletTypes::FeeType], the fields that are read. *)
Record FeeType `{Collaborators} : Type :=
  { isMinimumFee : bool;
    isFeePerByte : bool;
    feePerByte : FeePerByte;
    isFixedFee : bool;
    fixedFee : Z }.

Section Validation.

Context `{Collaborators}.

(** ** [validateIntegratedAddresses] *)

(** The loop over [destinations]; [paymentID] is the by-value parameter the
    loop assigns to. *)
Fixpoint validateIntegratedAddresses
  (destinations : list (string * Z)) (paymentID : string) : Error :=
  match destinations with
  | [] => SUCCESS
  | (address, amount) :: destinations' =>
      if negb (String.length address =? integratedAddressLength)%nat
      then validateIntegratedAddresses destinations' paymentID
      else
        let '(extractedAddress, extractedPaymentID) :=
          extractIntegratedAddressData address in
        if String.eqb paymentID EmptyString
        then validateIntegratedAddresses destinations' extractedPaymentID
        else if negb (String.eqb paymentID extractedPaymentID)
        then CONFLICTING_PAYMENT_IDS
        else validateIntegratedAddresses destinations' paymentID
  end.

(** ** [validatePrivateKey], [validatePublicKey] *)

Definition validatePrivateKey (privateViewKey : SecretKey) : Error :=
  let valid := sc_check privateViewKey =? 0 in
  if valid then SUCCESS else INVALID_PRIVATE_KEY.

Definition validatePublicKey (publicKey : PublicKey) : Error :=
  let valid := check_key publicKey in
  if valid then SUCCESS else INVALID_PUBLIC_KEY.

(** ** [validateMixin] *)

Definition validateMixin (mixin height : Z) : Error :=
  let '(minMixin, maxMixin, defaultMixin) := getMixinAllowableRange height in
  if mixin <? minMixin then
    mkError MIXIN_TOO_SMALL
      ("The mixin value given (" ++ to_string mixin
       ++ ") is lower than the minimum mixin allowed ("
       ++ to_string minMixin ++ ")")
  else if mixin >? maxMixin then
    mkError MIXIN_TOO_BIG
      ("The mixin value given (" ++ to_string mixin
       ++ ") is greater than the maximum mixin allowed ("
       ++ to_string maxMixin ++ ")")
  else SUCCESS.

(** ** [validateAmount] *)

Definition validateAmount
  (destinations : list (string * Z)) (fee : FeeType)
  (subWalletsToTakeFrom : list string) (subWallets : SubWallets)
  (currentHeight : Z) : Outcome Error :=
  if negb (isFeePerByte fee) && negb (isFixedFee fee) && negb (isMinimumFee fee)
  then Threw "Programmer error: fee type not specified"
  else if isFeePerByte fee && feePerByte_lt (feePerByte fee) MINIMUM_FEE_PER_BYTE_V1
  then Returned (Error_of_code FEE_TOO_SMALL)
  else
    let '(availableBalance, lockedBalance) :=
      getBalance subWallets (addressesToSpendKeys subWalletsToTakeFrom)
        (match subWalletsToTakeFrom with [] => true | _ => false end)
        currentHeight in
    let totalAmount := getTransactionSum destinations in
    let amounts : list Z := [] in
    let '(totalAmount, amounts) :=
      if isFixedFee fee
      then (add64 totalAmount (fixedFee fee), amounts ++ [fixedFee fee])
      else (totalAmount, amounts) in
    let amounts := amounts ++ map snd destinations in
    if sumWillOverflow amounts then Returned (Error_of_code WILL_OVERFLOW)
    else if totalAmount >? availableBalance
    then Returned (Error_of_code NOT_ENOUGH_BALANCE)
    else Returned (Error_of_code SUCCESS).

(** ** [validateAddresses] *)

Definition wrongLengthMessage (address : string) : string :=
  "The address given is the wrong length. It should be "
  ++ to_string (Z.of_nat standardAddressLength) ++ " chars or "
  ++ to_string (Z.of_nat integratedAddressLength) ++ " chars, but "
  ++ "it is " ++ to_string (Z.of_nat (String.length address)) ++ " chars.".

Definition paymentIDLen : nat := 64.

(** The loop over the (by-value) vector [addresses]. For an integrated
    address the element is overwritten by the standard address rebuilt from
    its keys, and that is what is parsed at the end of the iteration. *)
Fixpoint validateAddresses
  (addresses : list string) (integratedAddressesAllowed : bool) : Outcome Error :=
  match addresses with
  | [] => Returned (Error_of_code SUCCESS)
  | address :: addresses' =>
      let parse (address : string) : Outcome Error :=
        if negb (parseAccountAddressString address)
        then Returned (Error_of_code ADDRESS_NOT_VALID)
        else validateAddresses addresses' integratedAddressesAllowed in
      if negb (String.length address =? standardAddressLength)%nat
         && negb (String.length address =? integratedAddressLength)%nat
      then Returned (mkError ADDRESS_WRONG_LENGTH (wrongLengthMessage address))
      else if negb (String.eqb (substr_to address (String.length addressPrefix))
                               addressPrefix)
      then Returned (Error_of_code ADDRESS_WRONG_PREFIX)
      else if (String.length address =? integratedAddressLength)%nat
      then
        if negb integratedAddressesAllowed
        then Returned (mkError ADDRESS_IS_INTEGRATED
                         ("The address given (" ++ address
                          ++ ") is an integrated address, but integrated addresses aren't "
                          ++ "valid for this parameter."))
        else
          match decode_addr address with
          | None => Returned (Error_of_code ADDRESS_NOT_BASE58)
          | Some (ignore, decoded) =>
              let paymentID := substr_to decoded paymentIDLen in
              if negb (createTxExtraWithPaymentId paymentID)
              then Returned (Error_of_code INTEGRATED_ADDRESS_PAYMENT_ID_INVALID)
              else
                let! keys := substr_from decoded paymentIDLen in
                let ba := asBinaryArray keys in
                match fromBinaryArray ba with
                | None => Returned (Error_of_code ADDRESS_NOT_VALID)
                | Some addr =>
                    parse (getAccountAddressAsStr
                             CRYPTONOTE_PUBLIC_ADDRESS_BASE58_PREFIX addr)
                end
          end
      else parse address
  end.

(** ** [validateDestinations] *)

(** The loop that checks the amounts and collects the addresses; [None] is
    the early [return AMOUNT_IS_ZERO]. *)
Fixpoint destinationAddressesOf
  (destinations : list (string * Z)) (destinationAddresses : list string)
  : option (list string) :=
  match destinations with
  | [] => Some destinationAddresses
  | (destination, amount) :: destinations' =>
      if amount =? 0 then None
      else destinationAddressesOf destinations' (destinationAddresses ++ [destination])
  end.

Definition validateDestinations (destinations : list (string * Z)) : Outcome Error :=
  match destinations with
  | [] => Returned (Error_of_code NO_DESTINATIONS_GIVEN)
  | _ =>
      match destinationAddressesOf destinations [] with
      | None => Returned (Error_of_code AMOUNT_IS_ZERO)
      | Some destinationAddresses =>
          check! validateAddresses destinationAddresses true in
          Returned (Error_of_code SUCCESS)
      end
  end.

(** ** [validateOurAddresses] *)

(** [std::find(keys.begin(), keys.end(), spendKey) != keys.end()] *)
Definition found (spendKey : PublicKey) (keys : list PublicKey) : bool :=
  existsb (fun key => bool_decide (key = spendKey)) keys.

Fixpoint allInWallet (addresses : list string) (subWallets : SubWallets) : Error :=
  match addresses with
  | [] => SUCCESS
  | address :: addresses' =>
      let '(spendKey, viewKey) := addressToKeys address in
      let keys := m_publicSpendKeys subWallets in
      if negb (found spendKey keys)
      then mkError ADDRESS_NOT_IN_WALLET
             ("The address given (" ++ address
              ++ ") does not exist in the wallet container, but it is "
              ++ "required to exist for this operation.")
      else allInWallet addresses' subWallets
  end.

Definition validateOurAddresses
  (addresses : list string) (subWallets : SubWallets) : Outcome Error :=
  check! validateAddresses addresses false in
  Returned (allInWallet addresses subWallets).

(** ** [validateTransaction] *)

Definition validateTransaction
  (destinations : list (string * Z)) (mixin : Z) (fee : FeeType)
  (paymentID : string) (subWalletsToTakeFrom : list string)
  (changeAddress : string) (subWallets : SubWallets) (currentHeight : Z)
  : Outcome Error :=
  check! validateDestinations destinations in
  check! Returned (validateIntegratedAddresses destinations paymentID) in
  check! validateOurAddresses subWalletsToTakeFrom subWallets in
  check! validateAmount destinations fee subWalletsToTakeFrom subWallets currentHeight in
  check! Returned (validateMixin mixin currentHeight) in
  check! Returned (validatePaymentID paymentID) in
  check! validateOurAddresses [changeAddress] subWallets in
  Returned (Error_of_code SUCCESS).

(** ** [validateFusionTransaction] *)

(** The [option] is the one of [validateOptimizeTarget]. *)
Definition validateFusionTransaction
  (mixin : Z) (subWalletsToTakeFrom : list string) (destinationAddress : string)
  (subWallets : SubWallets) (currentHeight : Z) (optimizeTarget : option Z)
  : Outcome (option Error) :=
  let! error := Returned (validateMixin mixin currentHeight) in
  if Error_ne error SUCCESS then Returned (Some error) else
  let! error := validateOurAddresses subWalletsToTakeFrom subWallets in
  if Error_ne error SUCCESS then Returned (Some error) else
  let! error := validateOurAddresses [destinationAddress] subWallets in
  if Error_ne error SUCCESS then Returned (Some error) else
  match validateOptimizeTarget optimizeTarget with
  | None => Returned None
  | Some error =>
      if Error_ne error SUCCESS then Returned (Some error)
      else Returned (Some (Error_of_code SUCCESS))
  end.

(** ** Vocabulary for stating the properties of the checks *)

(** No fee type was chosen: neither fee per byte, nor fixed, nor minimum. *)
Definition feeTypeUnspecified (fee : FeeType) : Prop :=
  isFeePerByte fee = false /\ isFixedFee fee = false /\ isMinimumFee fee = false.

(** The fee is per byte and below the minimum. *)
Definition feeTooSmall (fee : FeeType) : bool :=
  isFeePerByte fee && feePerByte_lt (feePerByte fee) MINIMUM_FEE_PER_BYTE_V1.

(** The amounts that are summed: the fixed fee, if any, then the amounts of
    the destinations. *)
Definition amountsOf (destinations : list (string * Z)) (fee : FeeType) : list Z :=
  (if isFixedFee fee then [fixedFee fee] else []) ++ map snd destinations.

(** The total that is compared with the balance, in [uint64_t]. *)
Definition totalAmountOf (destinations : list (string * Z)) (fee : FeeType) : Z :=
  if isFixedFee fee
  then add64 (getTransactionSum destinations) (fixedFee fee)
  else getTransactionSum destinations.

Definition availableBalanceOf
  (subWalletsToTakeFrom : list string) (subWallets : SubWallets)
  (currentHeight : Z) : Z :=
  fst (getBalance subWallets (addressesToSpendKeys subWalletsToTakeFrom)
         (match subWalletsToTakeFrom with [] => true | _ => false end)
         currentHeight).

(** The seven checks of [validateTransaction], in the order of the code. *)
Definition checksOf
  (destinations : list (string * Z)) (mixin : Z) (fee : FeeType)
  (paymentID : string) (subWalletsToTakeFrom : list string)
  (changeAddress : string) (subWallets : SubWallets) (currentHeight : Z)
  : list (Outcome Error) :=
  [ validateDestinations destinations;
    Returned (validateIntegratedAddresses destinations paymentID);
    validateOurAddresses subWalletsToTakeFrom subWallets;
    validateAmount destinations fee subWalletsToTakeFrom subWallets currentHeight;
    Returned (validateMixin mixin currentHeight);
    Returned (validatePaymentID paymentID);
    validateOurAddresses [changeAddress] subWallets ].

(** Running checks one after the other, as the chain of
    [if (Error error = ...; error != SUCCESS) return error;] does. *)
Definition runChecks (checks : list (Outcome Error)) : Outcome Error :=
  fold_right check (Returned (Error_of_code SUCCESS)) checks.

(** A check succeeds when it returns an error value whose code is
    [SUCCESS]. *)
Definition succeeds (o : Outcome Error) : bool :=
  match o with
  | Returned error => negb (Error_ne error SUCCESS)
  | Threw _ => false
  end.

(** The outcome of the first check that does not succeed. *)
Definition firstFailing (checks : list (Outcome Error)) : option (Outcome Error) :=
  List.find (fun o => negb (succeeds o)) checks.

(** The statement "SUCCESS if and only if all checks succeed, otherwise the
    typed error of the first failing check is returned", for one call. *)
Definition returnsFirstError
  (checks : list (Outcome Error)) (result : Outcome Error) : Prop :=
  (result = Returned (Error_of_code SUCCESS) <-> forallb succeeds checks = true)
  /\ (forallb succeeds checks = false ->
      exists error : Error,
        firstFailing checks = Some (Returned error) /\ result = Returned error).

(** ** Vocabulary for the single checks *)

(** The address has the length of an integrated address. *)
Definition isIntegratedLength (address : string) : bool :=
  (String.length address =? integratedAddressLength)%nat.

(** The payment IDs carried by the destinations of integrated length, in
    the order of the destinations. *)
Definition extractedPaymentIDs (destinations : list (string * Z)) : list string :=
  map (fun destination => snd (extractIntegratedAddressData (fst destination)))
      (List.filter (fun destination => isIntegratedLength (fst destination))
         destinations).

(** A payment ID does not stand against a later one: it is empty, or the
    later one is the same. *)
Definition compatible (earlier later : string) : Prop :=
  earlier = EmptyString \/ earlier = later.

(** Some destination has the amount zero. *)
Definition hasZeroAmount (destinations : list (string * Z)) : bool :=
  existsb (fun destination => snd destination =? 0) destinations.

(** The address starts with the address prefix. *)
Definition hasPrefix (address : string) : bool :=
  String.eqb (substr_to address (String.length addressPrefix)) addressPrefix.

(** A standard address as [validateAddresses] accepts it: of the standard
    length and not of the integrated one, with the prefix, and parsed by
    [parseAccountAddressString]. *)
Definition standardAddress (address : string) : bool :=
  (String.length address =? standardAddressLength)%nat
  && negb (isIntegratedLength address)
  && hasPrefix address
  && parseAccountAddressString address.

(** An integrated address as [validateAddresses] accepts it: of the
    integrated length, with the prefix, decoded by [decode_addr] into a
    payment ID that [createTxExtraWithPaymentId] takes and, after its 64
    characters, keys from which [fromBinaryArray] builds an address; the
    standard address made of that one is parsed by
    [parseAccountAddressString]. *)
Definition integratedAddress (address : string) : bool :=
  isIntegratedLength address
  && hasPrefix address
  && match decode_addr address with
     | None => false
     | Some (ignore, decoded) =>
         createTxExtraWithPaymentId (substr_to decoded paymentIDLen)
         && (paymentIDLen <=? String.length decoded)%nat
         && match fromBinaryArray
                    (asBinaryArray
                       (substring paymentIDLen
                          (String.length decoded - paymentIDLen) decoded)) with
            | None => false
            | Some addr =>
                parseAccountAddressString
                  (getAccountAddressAsStr CRYPTONOTE_PUBLIC_ADDRESS_BASE58_PREFIX addr)
            end
     end.

(** The codes [validateAddresses] can return, by the value of its flag. *)
Definition addressCodes (integratedAddressesAllowed : bool) : list ErrorCode :=
  if integratedAddressesAllowed
  then [SUCCESS; ADDRESS_WRONG_LENGTH; ADDRESS_WRONG_PREFIX; ADDRESS_NOT_BASE58;
        INTEGRATED_ADDRESS_PAYMENT_ID_INVALID; ADDRESS_NOT_VALID]
  else [SUCCESS; ADDRESS_WRONG_LENGTH; ADDRESS_WRONG_PREFIX; ADDRESS_IS_INTEGRATED;
        ADDRESS_NOT_VALID].

(** The public spend key of the address is one of the container's. *)
Definition inWallet (subWallets : SubWallets) (address : string) : bool :=
  found (fst (addressToKeys address)) (m_publicSpendKeys subWallets).

(** The message of [ADDRESS_NOT_IN_WALLET]. *)
Definition notInWalletMessage (address : string) : string :=
  "The address given (" ++ address
  ++ ") does not exist in the wallet container, but it is "
  ++ "required to exist for this operation.".

(** The mixin lies in the range allowed at the height. *)
Definition mixinInRange (mixin height : Z) : bool :=
  let '(minMixin, maxMixin, defaultMixin) := getMixinAllowableRange height in
  (minMixin <=? mixin) && (mixin <=? maxMixin).

(** The list of addresses is accepted as addresses of the wallet. *)
Definition ourAddresses (subWallets : SubWallets) (addresses : list string) : bool :=
  forallb standardAddress addresses && forallb (inWallet subWallets) addresses.

End Validation.

(** ** A small wallet to run the checks on

    Addresses are 8 characters long and start with "TR"; an integrated
    address is an address followed by a payment ID of 64 characters, and it
    decodes to the payment ID followed by the address. Keys are the
    addresses themselves, and the container knows its keys and one
    balance. *)
Definition sumAmounts (amounts : list Z) : Z := fold_right Z.add 0 amounts.

#[local] Instance sampleCollaborators : Collaborators :=
  {| PublicKey := string;
     SecretKey := Z;
     AccountPublicAddress := string;
     BinaryArray := string;
     SubWallets := list string * Z;
     FeePerByte := Z;
     standardAddressLength := 8;
     integratedAddressLength := 72;
     addressPrefix := "TR";
     CRYPTONOTE_PUBLIC_ADDRESS_BASE58_PREFIX := 0;
     MINIMUM_FEE_PER_BYTE_V1 := 2;
     feePerByte_lt := Z.ltb;
     extractIntegratedAddressData := fun a => (substring 0 8 a, substring 8 64 a);
     addressesToSpendKeys := fun addresses => addresses;
     addressToKeys := fun a => (a, a);
     getTransactionSum := fun ds => sumAmounts (map snd ds) mod UINT64_MOD;
     sumWillOverflow := fun amounts => UINT64_MOD <=? sumAmounts amounts;
     getMixinAllowableRange := fun _ => (0, 7, 3);
     parseAccountAddressString := fun a => String.eqb (substring 0 2 a) "TR";
     getAccountAddressAsStr := fun _ a => a;
     decode_addr := fun a => Some (0, substring 8 64 a ++ substring 0 8 a)%string;
     createTxExtraWithPaymentId := fun pid => (String.length pid =? 64)%nat;
     asBinaryArray := fun s => s;
     fromBinaryArray := fun ba => Some ba;
     m_publicSpendKeys := fun w => fst w;
     getBalance := fun w _ _ _ => (snd w, 0);
     sc_check := fun k => k;
     check_key := fun _ => true |}.

Definition sampleWallet : list string * Z := (["TRalice1"%string], 100).

Definition sampleDestinations : list (string * Z) := [("TRbobbob"%string, 5)].

Definition sampleFee (perByte fixed minimum : bool) : @FeeType sampleCollaborators :=
  {| isMinimumFee := minimum; isFeePerByte := perByte; feePerByte := 5;
     isFixedFee := fixed; fixedFee := 10 |}.

(** ** Vocabulary for stating the properties *)

(** Letters and digits of ASCII, by character code. *)
Definition alphanumeric (c : ascii) : bool :=
  let n := nat_of_ascii c in
  ((97 <=? n) && (n <=? 122) || (65 <=? n) && (n <=? 90)
   || (48 <=? n) && (n <=? 57))%nat.

Definition all_chars (P : ascii -> bool) (s : string) : bool :=
  forallb P (list_ascii_of_string s).

(** The number a string of decimal digits denotes. *)
Fixpoint decimal_value (s : string) : Z :=
  match s with
  | EmptyString => 0
  | String c s' =>
      (char_code c - char_code "0") * 10 ^ Z.of_nat (String.length s')
      + decimal_value s'
  end.

(** The characters after the first. *)
Definition tail (s : string) : string :=
  match s with
  | EmptyString => EmptyString
  | String _ s' => s'
  end.

Definition is_zero_char (c : ascii) : bool := Ascii.eqb c "0".

Definition is_digit (c : ascii) : bool :=
  ((48 <=? nat_of_ascii c) && (nat_of_ascii c <=? 57))%nat.

(** The leading decimal digit of [t] and the number of its decimal digits,
    as the code reads them off [std::to_string(t)]. *)
Definition leading_digit (t : Z) : Z :=
  char_code (front (to_string t)) - char_code "0".

Definition digit_count (t : Z) : nat := String.length (to_string t).

(** [t] is its leading digit times a power of ten. *)
Definition round_target (t : Z) : Prop :=
  t = leading_digit t * 10 ^ (Z.of_nat (digit_count t) - 1).

(** The value the double expression takes, by leading digit and number of
    further digits. *)
Definition validTarget_of (d : Z) (k : nat) : option Z :=
  uint64_of_double (double_mul (double_of_int d) (pow10 k)).

(** ** What is expected of two collaborators

    [Utilities::getTransactionSum], [Utilities::sumWillOverflow] and
    [CryptoNote::createTxExtraWithPaymentId] are arbitrary functions in
    [Collaborators]. Some properties of the checks hold when they do what
    their names say. *)
Section Expectations.

Context `{Collaborators}.

(** [createTxExtraWithPaymentId] takes payment IDs of 64 characters only. *)
Definition paymentIDsHave64Characters : Prop :=
  forall paymentID : string,
    createTxExtraWithPaymentId paymentID = true ->
    String.length paymentID = paymentIDLen.

(** [getTransactionSum] adds the amounts in [uint64_t], and
    [sumWillOverflow] tells whether the sum of the amounts leaves
    [uint64_t]. *)
Definition sumsInUint64 : Prop :=
  (forall destinations : list (string * Z),
     getTransactionSum destinations
     = sumAmounts (map snd destinations) mod UINT64_MOD)
  /\ (forall amounts : list Z,
        Forall in_uint64 amounts ->
        (sumWillOverflow amounts = true <-> UINT64_MOD <= sumAmounts amounts)).

End Expectations.

(** The payment ID is empty or has 64 letters and digits. *)
Definition wellFormedPaymentID (paymentID : string) : bool :=
  String.eqb paymentID EmptyString
  || (String.length paymentID =? 64)%nat && all_chars alphanumeric paymentID.

(** The optimize target is absent or round. *)
Definition roundOrAbsent (optimizeTarget : option Z) : Prop :=
  match optimizeTarget with
  | None => True
  | Some t => round_target t
  end.

(** A payment ID with the letter z in it, which is no hexadecimal digit. *)
Definition sample_paymentID : string :=
  "z0123456789abcdefABCDEFz0123456789abcdefABCDEFz0123456789abcdefG".

End ValidateParameters.

Module System.

#[local] Open Scope nat_scope.

(** Contexts are named by their index in the Dispatcher's table. *)
Abbreviation ContextId := nat (only parsing).

(** ** [System::Event] *)

(** Modelled from the spec: [System::Event] ([system/Event.h] is included by
    [EventLock.cpp] but is not among the sources). A boolean state,
    initially false, and the FIFO queue of the Contexts blocked in
    [wait()]. *)
Record Event : Set := mkEvent
  { state : bool;
    waiters : list ContextId }.

(** Modelled from the spec: a new Event; its state is false. *)
Definition Event_new : Event := {| state := false; waiters := [] |}.

(** Modelled from the spec: [get()], the non-suspending read of the state. *)
Definition Event_get (event : Event) : bool := state event.

(** Modelled from the spec: [clear()] marks false; the queue is left
    alone. *)
Definition Event_clear (event : Event) : Event :=
  {| state := false; waiters := waiters event |}.

(** Modelled from the spec: [set()] marks true and resumes every waiting
    Context, in the order of arrival. The second component is the list of
    the resumed Contexts, which the Dispatcher appends to its ready queue. *)
Definition Event_set (event : Event) : Event * list ContextId :=
  ({| state := true; waiters := [] |}, waiters event).

(** Modelled from the spec: [wait()] called by Context [c]. If the state is
    true it returns at once ([false]: not suspended); else [c] is enqueued
    and suspended ([true]). *)
Definition Event_wait (c : ContextId) (event : Event) : Event * bool :=
  if state event then (event, false)
  else ({| state := false; waiters := waiters event ++ [c] |}, true).

(** Modelled from the spec: a Context that is interrupted while it waits
    leaves the queue of the Event (the registrations of an interrupted
    Context with an Event are released). *)
Definition Event_cancel (c : ContextId) (event : Event) : Event :=
  {| state := state event;
     waiters := List.filter (fun c' => negb (c' =? c)) (waiters event) |}.

(** ** [System::EventLock] ([EventLock.cpp]) *)

(** Modelled from the spec: how a call of [wait()] ends for its caller. It
    is resumed by a [set()], or the Context is interrupted and the call is
    left by an exception. *)
Inductive WaitResult : Set := Resumed | Interrupted.

(** Modelled from the spec: the operations of [System::Event] that
    [EventLock] calls, as the calling Context sees them. [W] is the Event
    together with everything that runs while the caller is suspended:
    [wait] hands back the world as the caller finds it when it runs again.
    [set()] marks true and [clear()] marks false. *)
Class EventOps (W : Type) : Type :=
  { get : W -> bool;
    wait : W -> W * WaitResult;
    clear : W -> W;
    set : W -> W;
    get_after_set : forall w, get (set w) = true;
    get_after_clear : forall w, get (clear w) = false }.

(** The calls made on the Event, in order. *)
Inductive Call : Set :=
| CallGet (result : bool)
| CallWait (result : WaitResult)
| CallClear
| CallSet.

#[global] Instance WaitResult_eq_dec : EqDecision WaitResult.
Proof. solve_decision. Defined.

#[global] Instance Call_eq_dec : EqDecision Call.
Proof. solve_decision. Defined.

(** How a constructor or a block ends. *)
Inductive Exit (A : Type) : Type :=
| Normal (a : A)
| EarlyReturn (a : A)
| Failure (what : string).

Arguments Normal {A} a.
Arguments EarlyReturn {A} a.
Arguments Failure {A} what.

Section EventLock.

Context {W : Type} `{EventOps W}.

(** [EventLock::EventLock(Event &event)]:
    [while (!event.get()) { event.wait(); } event.clear();]
    The loop is bounded by [fuel]; [None] means that the loop was still
    running when the fuel ran out. The log collects the calls. *)
Fixpoint EventLock_ctor (fuel : nat) (w : W) (log : list Call)
  : option (W * list Call * Exit unit) :=
  match fuel with
  | O => None
  | S fuel' =>
      if negb (get w) then
        match wait w with
        | (w', Resumed) =>
            EventLock_ctor fuel' w' (log ++ [CallGet false; CallWait Resumed])
        | (w', Interrupted) =>
            Some (w', log ++ [CallGet false; CallWait Interrupted],
                  Failure "interrupted")
        end
      else Some (clear w, log ++ [CallGet true; CallClear], Normal tt)
  end.

(** [EventLock::~EventLock()]: [event.set();] *)
Definition EventLock_dtor (w : W) (log : list Call) : W * list Call :=
  (set w, log ++ [CallSet]).

(** A block [{ EventLock lock(event); body }]. The destructor of a
    constructed object runs when the block is left, however it is left; when
    the constructor itself is left by an exception there is no object and
    no destructor call. *)
Definition guarded {A : Type} (fuel : nat)
  (body : W -> list Call -> W * list Call * Exit A)
  (w : W) (log : list Call) : option (W * list Call * Exit A) :=
  match EventLock_ctor fuel w log with
  | None => None
  | Some (w1, log1, Failure what) => Some (w1, log1, Failure what)
  | Some (w1, log1, _) =>
      let '(w2, log2, exit) := body w1 log1 in
      let '(w3, log3) := EventLock_dtor w2 log2 in
      Some (w3, log3, exit)
  end.

(** The world after [k] calls of [wait()] that were all resumed. *)
Fixpoint after_waits (k : nat) (w : W) : W :=
  match k with
  | O => w
  | S k' => after_waits k' (fst (wait w))
  end.

(** The calls of [k] rounds of the loop. *)
Fixpoint waiting_rounds (k : nat) : list Call :=
  match k with
  | O => []
  | S k' => CallGet false :: CallWait Resumed :: waiting_rounds k'
  end.

End EventLock.

(** Modelled from the spec: the Event as one Context [c] sees it. What the
    other Contexts do to the Event while [c] is suspended is given by a
    script, one entry per suspension; with no entry left, [c] is
    interrupted. *)
Definition View : Type := Event * list (Event -> Event).

Definition View_wait (c : ContextId) (v : View) : View * WaitResult :=
  let '(event, script) := v in
  let '(event', suspended) := Event_wait c event in
  if suspended then
    match script with
    | others :: script' => ((others event', script'), Resumed)
    | [] => ((Event_cancel c event', []), Interrupted)
    end
  else ((event', script), Resumed).

#[local] Instance View_EventOps (c : ContextId) : EventOps View :=
  {| get := fun v => Event_get (fst v);
     wait := View_wait c;
     clear := fun v => (Event_clear (fst v), snd v);
     set := fun v => (fst (Event_set (fst v)), snd v);
     get_after_set := fun v => eq_refl;
     get_after_clear := fun v => eq_refl |}.

(** A Context that finds the Event cleared, is resumed after another
    Context has set it, and then leaves the guarded block by a failure. *)
Definition otherSets : list (Event -> Event) := [fun e => fst (Event_set e)].

(** ** Histories of one Event *)

(** The calls that change an Event, with the Context that calls [wait()]. *)
Inductive EventOp : Set :=
| OpWait (c : ContextId)
| OpSet
| OpClear.

#[global] Instance EventOp_eq_dec : EqDecision EventOp.
Proof. solve_decision. Defined.

(** Modelled from the spec: the Event after a call, and the Contexts the
    call resumes. *)
Definition apply (op : EventOp) (event : Event) : Event * list ContextId :=
  match op with
  | OpWait c => (fst (Event_wait c event), [])
  | OpSet => Event_set event
  | OpClear => (Event_clear event, [])
  end.

(** How many times the calls [ops], made in order from [event], resume
    Context [c]. *)
Fixpoint resumptions (c : ContextId) (ops : list EventOp) (event : Event) : nat :=
  match ops with
  | [] => 0
  | op :: ops' =>
      let '(event', resumed) := apply op event in
      count_occ Nat.eq_dec resumed c + resumptions c ops' event'
  end.

(** ** Contexts contending for one [EventLock] on one Dispatcher *)

(** What a Context does, as far as scheduling goes: it yields, it enters a
    block guarded by an [EventLock] on the shared Event, or it leaves that
    block. *)
Inductive Instr : Set :=
| Yield
| Acquire
| Release.

#[global] Instance Instr_eq_dec : EqDecision Instr.
Proof. solve_decision. Defined.

(** Modelled from the spec: [System::Dispatcher], as far as it schedules.
    The ready queue (FIFO), the Context that is running (at most one), and
    with them the shared Event, what is left to run of every Context, and
    two logs: the Contexts in the order in which they entered the guarded
    block, and in the order in which they called [wait()]. *)
Record Machine : Set := mkMachine
  { readyQueue : list ContextId;
    running : option ContextId;
    event : Event;
    contexts : list (list Instr);
    entered : list ContextId;
    waited : list ContextId }.

(** What is left to run of Context [c]; nothing for a Context that does
    not exist. *)
Definition codeOf (m : Machine) (c : ContextId) : list Instr :=
  default [] (contexts m !! c).

(** One step of the Dispatcher's loop and of the Context it runs.

    Modelled from the spec: the scheduling ([System::Dispatcher] is not
    among the sources).
    - No Context running: the loop takes the next Ready Context; with the
      ready queue empty it would block on the OS, and the machine stops.
    - [yield()]: the running Context goes to the back of the ready queue.
    - A Context that [wait()] suspends leaves the processor, and the
      Contexts that [set()] resumes go to the back of the ready queue.

    From [EventLock.cpp]: what the running Context does at [Acquire] and
    at [Release]. A Context can be suspended inside the constructor, so a
    step is one turn of the constructor's loop, cut at [wait()]: when
    [get()] is true the Event is cleared and the Context is inside; else
    [wait()] enqueues and suspends it, and when it runs again it is at the
    head of the loop again. At [Release] it is the destructor's [set()].
    That these steps are the constructor [EventLock_ctor] and the
    destructor [EventLock_dtor], run by the Context on the Dispatcher of
    this machine ([Contending_EventOps]), is proved as
    [EventLock_ctor_sound], [EventLock_ctor_complete] and
    [EventLock_dtor_step]. *)
Definition step (m : Machine) : option Machine :=
  match running m with
  | None =>
      match readyQueue m with
      | [] => None
      | c :: ready' =>
          Some (mkMachine ready' (Some c) (event m) (contexts m)
                  (entered m) (waited m))
      end
  | Some c =>
      match codeOf m c with
      | [] =>
          Some (mkMachine (readyQueue m) None (event m) (contexts m)
                  (entered m) (waited m))
      | Yield :: rest =>
          Some (mkMachine (readyQueue m ++ [c]) None (event m)
                  (<[c := rest]> (contexts m)) (entered m) (waited m))
      | Acquire :: rest =>
          if negb (Event_get (event m)) then
            Some (mkMachine (readyQueue m) None (fst (Event_wait c (event m)))
                    (contexts m) (entered m) (waited m ++ [c]))
          else
            Some (mkMachine (readyQueue m) (Some c) (Event_clear (event m))
                    (<[c := rest]> (contexts m)) (entered m ++ [c]) (waited m))
      | Release :: rest =>
          let '(event', resumed) := Event_set (event m) in
          Some (mkMachine (readyQueue m ++ resumed) (Some c) event'
                  (<[c := rest]> (contexts m)) (entered m) (waited m))
      end
  end.

Fixpoint run (fuel : nat) (m : Machine) : Machine :=
  match fuel with
  | O => m
  | S fuel' =>
      match step m with
      | None => m
      | Some m' => run fuel' m'
      end
  end.

(** The same steps as a relation, one constructor for each case. *)
Inductive Step (m : Machine) : Machine -> Prop :=
| StepDispatch (c : ContextId) (ready' : list ContextId) :
    running m = None -> readyQueue m = c :: ready' ->
    Step m (mkMachine ready' (Some c) (event m) (contexts m) (entered m) (waited m))
| StepFinish (c : ContextId) :
    running m = Some c -> codeOf m c = [] ->
    Step m (mkMachine (readyQueue m) None (event m) (contexts m) (entered m) (waited m))
| StepYield (c : ContextId) (rest : list Instr) :
    running m = Some c -> codeOf m c = Yield :: rest ->
    Step m (mkMachine (readyQueue m ++ [c]) None (event m)
              (<[c := rest]> (contexts m)) (entered m) (waited m))
| StepWait (c : ContextId) (rest : list Instr) :
    running m = Some c -> codeOf m c = Acquire :: rest ->
    state (event m) = false ->
    Step m (mkMachine (readyQueue m) None
              (mkEvent false (waiters (event m) ++ [c]))
              (contexts m) (entered m) (waited m ++ [c]))
| StepEnter (c : ContextId) (rest : list Instr) :
    running m = Some c -> codeOf m c = Acquire :: rest ->
    state (event m) = true ->
    Step m (mkMachine (readyQueue m) (Some c)
              (mkEvent false (waiters (event m)))
              (<[c := rest]> (contexts m)) (entered m ++ [c]) (waited m))
| StepLeave (c : ContextId) (rest : list Instr) :
    running m = Some c -> codeOf m c = Release :: rest ->
    Step m (mkMachine (readyQueue m ++ waiters (event m)) (Some c)
              (mkEvent true [])
              (<[c := rest]> (contexts m)) (entered m) (waited m)).

(** [m'] is reached from [m] in some number of steps. *)
Definition steps : relation Machine := rtc (fun m m' => step m = Some m').

(** The Dispatcher with the given Contexts, all Ready in the order of their
    creation, and the Event in the given state. *)
Definition start (programs : list (list Instr)) (set : bool) : Machine :=
  {| readyQueue := seq 0 (length programs);
     running := None;
     event := {| state := set; waiters := [] |};
     contexts := programs;
     entered := [];
     waited := [] |}.

(** A program uses the lock as scoped guards do: blocks are entered and
    left in turn, never nested, and none is left open. [inside] tells
    whether the program starts inside a block. *)
Fixpoint scoped (inside : bool) (code : list Instr) : bool :=
  match code with
  | [] => negb inside
  | Yield :: rest => scoped inside rest
  | Acquire :: rest => negb inside && scoped true rest
  | Release :: rest => inside && scoped false rest
  end.

(** A Context is inside the guarded block when the next lock operation of
    what it has left to run is the [Release]. *)
Fixpoint holds (code : list Instr) : bool :=
  match code with
  | Yield :: rest => holds rest
  | Release :: _ => true
  | _ => false
  end.

Definition inside (m : Machine) (c : ContextId) : bool := holds (codeOf m c).

(** The number of guarded blocks in a program. *)
Definition blocks (code : list Instr) : nat :=
  count_occ Instr_eq_dec code Acquire.

(** Position of the first occurrence of [c] in a log, if any. *)
Fixpoint position (c : ContextId) (log : list ContextId) : option nat :=
  match log with
  | [] => None
  | c' :: log' =>
      if bool_decide (c' = c) then Some 0
      else option_map S (position c log')
  end.

(** At most one Context is inside the guarded block. *)
Definition atMostOneInside (m : Machine) : Prop :=
  forall c1 c2 : ContextId, inside m c1 = true -> inside m c2 = true -> c1 = c2.

(** "Contexts enter in the order in which they began waiting": when [b] has
    entered, every Context [a] whose first [wait()] came before the first
    [wait()] of [b] has entered before [b]. *)
Definition entersInWaitingOrder (m : Machine) : Prop :=
  forall (a b : ContextId) (wa wb eb : nat),
    position a (waited m) = Some wa ->
    position b (waited m) = Some wb ->
    wa < wb ->
    position b (entered m) = Some eb ->
    exists ea : nat, position a (entered m) = Some ea /\ ea < eb.

(** The Dispatcher has nothing left to run, every Context has run to its
    end, and it has entered once for each of its guarded blocks. *)
Definition allFinished (programs : list (list Instr)) (m : Machine) : Prop :=
  step m = None
  /\ forall c : ContextId,
       codeOf m c = []
       /\ count_occ Nat.eq_dec (entered m) c = blocks (default [] (programs !! c)).

(** Mutual exclusion, entry in the order of waiting, and no starvation, for
    the Contexts [programs] started with the Event set. *)
Definition mutexFifoNoStarvation (programs : list (list Instr)) : Prop :=
  (forall m : Machine, steps (start programs true) m ->
     atMostOneInside m /\ entersInWaitingOrder m)
  /\ exists fuel : nat, allFinished programs (run fuel (start programs true)).

(** What is left to run in all, and what the Dispatcher has at hand; every
    step lowers the first or keeps it and lowers the second. *)
Definition remaining (m : Machine) : nat := length (concat (contexts m)).

Definition pending (m : Machine) : nat :=
  2 * length (readyQueue m)
  + match running m with Some _ => 1 | None => 0 end.

(** ** The order of entry

    Membership in a log, as a boolean. *)
Definition member (c : ContextId) (log : list ContextId) : bool :=
  bool_decide (c ∈ log).

(** The Contexts of a log, each once, in the order of their last
    occurrences. On the log of the calls of [wait()] this is the order of
    the last [wait()] of each Context that waited. *)
Fixpoint lastOccurrences (log : list ContextId) : list ContextId :=
  match log with
  | [] => []
  | c :: log' =>
      if member c log' then lastOccurrences log' else c :: lastOccurrences log'
  end.

(** The Contexts the Dispatcher and the Event know of, in the order in
    which they will run if nothing else happens: the running one, the ready
    queue, then the queue of the Event. *)
Definition scheduled (m : Machine) : list ContextId :=
  option_list (running m) ++ readyQueue m ++ waiters (event m).

(** [c] has called [wait()] and has not entered yet. *)
Definition waitsToEnter (m : Machine) (c : ContextId) : bool :=
  member c (waited m) && negb (member c (entered m)).

(** The Contexts that entered after having waited, in the order of entry. *)
Definition enteredAfterWaiting (m : Machine) : list ContextId :=
  List.filter (fun c => member c (waited m)) (entered m).

(** The Contexts that still wait to enter, in the order of [scheduled]. *)
Definition queuedAfterWaiting (m : Machine) : list ContextId :=
  List.filter (waitsToEnter m) (scheduled m).

(** ** What holds in every state of a run

    The state of every Context agrees with the lock: each program is inside
    or outside a block as [scoped] has it; a Context with something left to
    run is running, ready or queued on the Event; while the Event is set
    nobody is inside and nobody is queued; while it is cleared exactly one
    Context is inside, and it is running or ready; the queue of the Event
    is the tail of the log of the [wait()] calls; and the entries logged
    for a Context and the blocks it has left add up to the blocks of its
    program. *)
Record invariant (programs : list (list Instr)) (m : Machine) : Prop :=
  { inv_scoped : forall c, scoped (inside m c) (codeOf m c) = true;
    inv_tracked : forall c, codeOf m c <> [] ->
      running m = Some c \/ c ∈ readyQueue m \/ c ∈ waiters (event m);
    inv_free : state (event m) = true ->
      waiters (event m) = [] /\ forall c, inside m c = false;
    inv_held : state (event m) = false ->
      exists h, inside m h = true
                /\ (running m = Some h \/ h ∈ readyQueue m)
                /\ forall c, inside m c = true -> c = h;
    inv_queue : exists earlier, waited m = earlier ++ waiters (event m);
    inv_entered : forall c,
      count_occ Nat.eq_dec (entered m) c + blocks (codeOf m c)
      = blocks (default [] (programs !! c)) }.

(** The Contexts that have waited, those that entered first and then those
    still waiting to enter as they are scheduled, are in the order of their
    last [wait()] calls; no Context is scheduled twice; and a Context that
    waits to enter is at the head of the constructor's loop. *)
Record fifo (m : Machine) : Prop :=
  { fifo_nodup : NoDup (scheduled m);
    fifo_acquire : forall c,
      waitsToEnter m c = true -> exists rest, codeOf m c = Acquire :: rest;
    fifo_order :
      enteredAfterWaiting m ++ queuedAfterWaiting m = lastOccurrences (waited m) }.

(** Four Contexts with one guarded block each; the second and the third
    yield before they reach it. *)
Definition bargingPrograms : list (list Instr) :=
  [ [Acquire; Yield; Release];
    [Acquire; Release];
    [Yield; Acquire; Yield; Release];
    [Yield; Acquire; Release] ].

(** ** The constructor and the destructor, run by a contending Context *)

(** Modelled from the spec: what the Dispatcher does while Context [c] is
    suspended. It runs the other Contexts until [c] is the running Context
    again; [c] is then resumed. The Dispatcher lives for [lifetime] more
    steps: when it has nothing left to run, or its lifetime is over, before
    [c] runs again, it is torn down, and the teardown interrupts every
    remaining Context, [c] among them. *)
Fixpoint resume (c : ContextId) (lifetime : nat) (m : Machine)
  : Machine * WaitResult :=
  let interrupted :=
    (mkMachine (readyQueue m) (running m) (Event_cancel c (event m))
       (contexts m) (entered m) (waited m), Interrupted) in
  match lifetime with
  | O => if bool_decide (running m = Some c) then (m, Resumed) else interrupted
  | S lifetime' =>
      if bool_decide (running m = Some c) then (m, Resumed)
      else match step m with
           | Some m' => resume c lifetime' m'
           | None => interrupted
           end
  end.

(** Modelled from the spec: [event.wait()] called by the running Context
    [c] of the machine. On an Event that is set it returns at once; else
    [c] is enqueued and suspended, which the log of the [wait()] calls
    records, and the Dispatcher goes on. *)
Definition Contending_wait (c : ContextId) (lifetime : nat) (m : Machine)
  : Machine * WaitResult :=
  let '(event', suspended) := Event_wait c (event m) in
  if suspended then
    resume c lifetime
      (mkMachine (readyQueue m) None event' (contexts m) (entered m)
         (waited m ++ [c]))
  else (m, Resumed).

(** Modelled from the spec: [event.clear()] on the Event of the machine. *)
Definition Contending_clear (m : Machine) : Machine :=
  mkMachine (readyQueue m) (running m) (Event_clear (event m)) (contexts m)
    (entered m) (waited m).

(** Modelled from the spec: [event.set()] on the Event of the machine; the
    Dispatcher appends the Contexts it resumes to the ready queue. *)
Definition Contending_set (m : Machine) : Machine :=
  let '(event', resumed) := Event_set (event m) in
  mkMachine (readyQueue m ++ resumed) (running m) event' (contexts m)
    (entered m) (waited m).

(** The Event and the Dispatcher of the machine as the running Context [c]
    has them in the calls of [EventLock]; the world is the machine. *)
#[local] Instance Contending_EventOps (c : ContextId) (lifetime : nat)
  : EventOps Machine :=
  {| get := fun m => Event_get (event m);
     wait := Contending_wait c lifetime;
     clear := Contending_clear;
     set := Contending_set;
     get_after_set := fun m => eq_refl;
     get_after_clear := fun m => eq_refl |}.

(** What the machine keeps of Context [c] besides the Event: when the
    constructor has returned, [c] goes on with the [rest] of its program
    and its entry is logged; when the destructor has returned, [c] goes on
    with the [rest]. *)
Definition enter (c : ContextId) (rest : list Instr) (m : Machine) : Machine :=
  mkMachine (readyQueue m) (running m) (event m) (<[c := rest]> (contexts m))
    (entered m ++ [c]) (waited m).

(** The same when the destructor has returned. *)
Definition leave (c : ContextId) (rest : list Instr) (m : Machine) : Machine :=
  mkMachine (readyQueue m) (running m) (event m) (<[c := rest]> (contexts m))
    (entered m) (waited m).

(** Two Contexts: the first runs [k] guarded blocks one after the other,
    yielding inside each; the second runs one. *)
Definition overtaking (k : nat) : list (list Instr) :=
  [ concat (repeat [Acquire; Yield; Release] k); [Acquire; Release] ].

(** The machine when the first Context of [overtaking] is at the head of
    the [j] blocks it has left, the Event is set and the second Context is
    ready; [ent] and [wt] are the two logs. *)
Definition overtakingLoop (j : nat) (ent wt : list ContextId) : Machine :=
  mkMachine [1] (Some 0) (mkEvent true []) (overtaking j) ent wt.

(** ** The socket layer: [TcpConnector] and [TcpConnection] *)

Abbreviation Handle := nat (only parsing).
Abbreviation DispatcherId := nat (only parsing).

(** The special member functions of a class, and whether the class has
    them. *)
Inductive SpecialMember : Set :=
| DefaultConstructor
| CopyConstructor
| MoveConstructor
| Destructor
| CopyAssignment
| MoveAssignment.

Inductive Availability : Set := Declared | Deleted.

(** [TcpConnector.h]:
    [TcpConnector(const TcpConnector &) = delete;],
    [TcpConnector &operator=(const TcpConnector &) = delete;],
    the other four are declared. *)
Definition TcpConnector_member (member : SpecialMember) : Availability :=
  match member with
  | CopyConstructor | CopyAssignment => Deleted
  | DefaultConstructor | MoveConstructor | Destructor | MoveAssignment => Declared
  end.

(** Modelled from the spec: the special members of [TcpConnection], whose
    header is not among the sources ("same non-copyable/movable
    discipline"). *)
Definition TcpConnection_member (member : SpecialMember) : Availability :=
  TcpConnector_member member.

(** Modelled from the spec: the operating system as the socket layer uses
    it. The sockets that are open, the log of the sockets released, the
    next handle to hand out, and how many attempts are registered with the
    notification mechanism. *)
Record Os : Type := mkOs
  { live : gset Handle;
    releases : list Handle;
    fresh : Handle;
    registrations : nat }.


(** Modelled from the spec: a resource is released; the log keeps every
    release, so that a double release shows. *)
Definition Os_release (h : Handle) (os : Os) : Os :=
  mkOs (live os ∖ {[h]}) (releases os ++ [h]) (fresh os) (registrations os).



(** [class TcpConnector]: [Dispatcher *dispatcher; void *context;]. A null
    pointer is [None]. *)
Record TcpConnector : Set := mkTcpConnector
  { dispatcher : option DispatcherId;
    context : option Handle }.

(** Modelled from the spec: [class TcpConnection], the established socket
    and the back-reference to the Dispatcher. *)
Record TcpConnection : Set := mkTcpConnection
  { connectionDispatcher : option DispatcherId;
    connection : option Handle }.

(** Modelled from the spec: [TcpConnector()], declared in [TcpConnector.h]
    and defined in a file that is not among the sources, as are the members
    below. A default-constructed connector is unbound. *)
Definition TcpConnector_default : TcpConnector := mkTcpConnector None None.


(** Modelled from the spec: [TcpConnector(TcpConnector &&other)]. The move
    transfers the OS resource and the back-reference, and the source
    becomes unbound. The result is the new object, and [other]
    afterwards. *)
Definition TcpConnector_move (other : TcpConnector) : TcpConnector * TcpConnector :=
  (mkTcpConnector (dispatcher other) (context other), TcpConnector_default).

(** Modelled from the spec: [~TcpConnector()] releases what the connector
    holds. *)
Definition TcpConnector_dtor (self : TcpConnector) (os : Os) : Os :=
  match context self with
  | Some h => Os_release h os
  | None => os
  end.

(** Modelled from the spec: [operator=(TcpConnector &&other)]. What [self]
    held is released, then as the move constructor. *)
Definition TcpConnector_move_assign (self other : TcpConnector) (os : Os)
  : TcpConnector * TcpConnector * Os :=
  (TcpConnector_move other, TcpConnector_dtor self os).

(** Modelled from the spec: the members of [TcpConnection], with the
    discipline of [TcpConnector]. The default constructor: *)
Definition TcpConnection_default : TcpConnection := mkTcpConnection None None.

(** Modelled from the spec: [TcpConnection(TcpConnection &&other)]. *)
Definition TcpConnection_move (other : TcpConnection) : TcpConnection * TcpConnection :=
  (mkTcpConnection (connectionDispatcher other) (connection other),
   TcpConnection_default).

(** Modelled from the spec: [~TcpConnection()]. *)
Definition TcpConnection_dtor (self : TcpConnection) (os : Os) : Os :=
  match connection self with
  | Some h => Os_release h os
  | None => os
  end.

(** Modelled from the spec: [operator=(TcpConnection &&other)]. *)
Definition TcpConnection_move_assign (self other : TcpConnection) (os : Os)
  : TcpConnection * TcpConnection * Os :=
  (TcpConnection_move other, TcpConnection_dtor self os).


























End System.

(* ===================================================================== *)
(** * Part II: properties                                                 *)
(* ===================================================================== *)

Import ValidateParameters.

(** ** Payment IDs and hashes *)

Lemma alphanumeric_in_ranges (c : ascii) :
  in_ranges c [("a"%char, "z"%char); ("A"%char, "Z"%char); ("0"%char, "9"%char)]
  = alphanumeric c.
Proof.
  unfold in_ranges, in_range, alphanumeric; simpl.
  now rewrite orb_false_r, orb_assoc.
Qed.

Lemma match_prefix_repeat_bracket
  (ranges : list (ascii * ascii)) (P : ascii -> bool) (n : nat) :
  (forall c, in_ranges c ranges = P c) ->
  forall s : string,
    String.length s = n ->
    all_chars P s = true ->
    match_prefix (Repeat (Bracket ranges) n) s = Some EmptyString.
Proof.
  intros HP.
  induction n as [|n IH]; intros [|c s] Hlen Hall; simpl in *; try discriminate.
  - reflexivity.
  - unfold all_chars in Hall; simpl in Hall.
    apply andb_true_iff in Hall as [Hc Hs].
    rewrite HP, Hc. apply IH; [congruence | exact Hs].
Qed.

Lemma regex_match_hexRegex (s : string) :
  String.length s = 64%nat ->
  all_chars alphanumeric s = true ->
  regex_match s hexRegex = true.
Proof.
  intros Hlen Hall. unfold regex_match, hexRegex.
  now rewrite (match_prefix_repeat_bracket _ alphanumeric 64 alphanumeric_in_ranges).
Qed.

Lemma match_prefix_repeat_bracket_inv
  (ranges : list (ascii * ascii)) (P : ascii -> bool) (n : nat) :
  (forall c, in_ranges c ranges = P c) ->
  forall s : string,
    match_prefix (Repeat (Bracket ranges) n) s = Some EmptyString ->
    String.length s = n /\ all_chars P s = true.
Proof.
  intros HP.
  induction n as [|n IH]; intros [|c s] Hmatch; simpl in *; try discriminate.
  - split; reflexivity.
  - rewrite HP in Hmatch. destruct (P c) eqn:Hc; [| discriminate].
    destruct (IH s Hmatch) as [Hlen Hall].
    unfold all_chars in *. simpl. rewrite Hc, Hall, Hlen. split; reflexivity.
Qed.

(** The strings [validateHash] accepts are exactly those of 64 letters and
    digits; a string of 64 characters with another character in it is
    [HASH_INVALID]. *)
Lemma validateHash_SUCCESS_iff (s : string) :
  validateHash s = SUCCESS
  <-> String.length s = 64%nat /\ all_chars alphanumeric s = true.
Proof.
  unfold validateHash, regex_match.
  destruct (Nat.eqb_spec (String.length s) 64) as [Hlen | Hlen]; cbn [negb].
  - destruct (match_prefix hexRegex s) as [[|c rest]|] eqn:Hmatch; cbn [negb].
    + apply (match_prefix_repeat_bracket_inv _ alphanumeric 64
               alphanumeric_in_ranges) in Hmatch. tauto.
    + split; [discriminate |]. intros [_ Hall]. unfold hexRegex in Hmatch.
      rewrite (match_prefix_repeat_bracket _ alphanumeric 64
                 alphanumeric_in_ranges s Hlen Hall) in Hmatch. discriminate.
    + split; [discriminate |]. intros [_ Hall]. unfold hexRegex in Hmatch.
      rewrite (match_prefix_repeat_bracket _ alphanumeric 64
                 alphanumeric_in_ranges s Hlen Hall) in Hmatch. discriminate.
  - split; [discriminate | tauto].
Qed.

(** C9. [validatePaymentID] and [validateHash] return [SUCCESS] on every
    string of 64 letters and digits (not only on hexadecimal ones); on a
    string of any other length [validateHash] returns [HASH_WRONG_LENGTH]
    and [validatePaymentID] returns [PAYMENT_ID_WRONG_LENGTH], except that
    the empty payment ID is [SUCCESS]. *)
Theorem validatePaymentID_validateHash_alphanumeric (s : string) :
  (String.length s = 64%nat -> all_chars alphanumeric s = true ->
   validatePaymentID s = SUCCESS /\ validateHash s = SUCCESS)
  /\ (String.length s <> 64%nat ->
      validateHash s = HASH_WRONG_LENGTH
      /\ (s <> EmptyString -> validatePaymentID s = PAYMENT_ID_WRONG_LENGTH))
  /\ validatePaymentID EmptyString = SUCCESS.
Proof.
  split; [|split].
  - intros Hlen Hall. unfold validatePaymentID, validateHash.
    rewrite (regex_match_hexRegex s Hlen Hall), Hlen. simpl.
    destruct (String.eqb_spec s EmptyString); split; reflexivity.
  - intros Hlen. apply Nat.eqb_neq in Hlen.
    unfold validatePaymentID, validateHash. rewrite Hlen. simpl.
    split; [reflexivity |].
    intros Hne. apply String.eqb_neq in Hne. now rewrite Hne.
  - reflexivity.
Qed.

Lemma validatePaymentID_validateHash_alphanumeric_witness :
  validatePaymentID sample_paymentID = SUCCESS
  /\ validateHash sample_paymentID = SUCCESS.
Proof.
  apply (proj1 (validatePaymentID_validateHash_alphanumeric sample_paymentID));
    reflexivity.
Defined.

(** ** Decimal strings and [std::to_string] *)

Lemma append_nil (b : string) : (EmptyString ++ b = b)%string.
Proof. reflexivity. Qed.

Lemma append_cons (x : ascii) (a b : string) :
  (String x a ++ b = String x (a ++ b))%string.
Proof. reflexivity. Qed.

Lemma length_append (a b : string) :
  String.length (a ++ b) = (String.length a + String.length b)%nat.
Proof.
  induction a as [|c a IH]; [reflexivity |].
  rewrite append_cons. simpl. now rewrite IH.
Qed.

Lemma append_assoc (a b c : string) : ((a ++ b) ++ c = a ++ (b ++ c))%string.
Proof.
  induction a as [|x a IH]; [reflexivity |].
  rewrite !append_cons. now rewrite IH.
Qed.

Lemma append_empty_r (a : string) : (a ++ EmptyString = a)%string.
Proof.
  induction a as [|x a IH]; [reflexivity |].
  rewrite append_cons. now rewrite IH.
Qed.

Lemma all_chars_append (P : ascii -> bool) (a b : string) :
  all_chars P (a ++ b) = all_chars P a && all_chars P b.
Proof.
  unfold all_chars. induction a as [|x a IH]; [reflexivity |].
  rewrite append_cons. simpl. now rewrite IH, andb_assoc.
Qed.

Lemma decimal_value_append (a b : string) :
  decimal_value (a ++ b)
  = decimal_value a * 10 ^ Z.of_nat (String.length b) + decimal_value b.
Proof.
  induction a as [|x a IH]; [rewrite append_nil; simpl; lia |].
  rewrite append_cons. simpl.
  rewrite IH, length_append, Nat2Z.inj_add, Z.pow_add_r by lia. ring.
Qed.

Lemma digit_char_code (d : Z) :
  0 <= d <= 9 -> nat_of_ascii (digit_char d) = Z.to_nat (48 + d).
Proof. intros Hd. unfold digit_char. apply nat_ascii_embedding. lia. Qed.

Lemma char_code_digit_char (d : Z) :
  0 <= d <= 9 -> char_code (digit_char d) - char_code "0" = d.
Proof.
  intros Hd. unfold char_code. rewrite digit_char_code by exact Hd.
  change (nat_of_ascii "0") with 48%nat. lia.
Qed.

Lemma is_digit_digit_char (d : Z) : 0 <= d <= 9 -> is_digit (digit_char d) = true.
Proof.
  intros Hd. unfold is_digit. rewrite digit_char_code by exact Hd.
  apply andb_true_iff; split; apply Nat.leb_le; lia.
Qed.

Lemma is_digit_code (c : ascii) :
  is_digit c = true -> 0 <= char_code c - char_code "0" <= 9.
Proof.
  unfold is_digit, char_code. change (nat_of_ascii "0") with 48%nat.
  intros [H1 H2]%andb_true_iff. apply Nat.leb_le in H1, H2. lia.
Qed.

(** What the digit loop computes: the digits of [n] put in front of the
    accumulator. *)
Lemma to_string_aux_spec (fuel : nat) :
  forall (n : Z) (acc : string),
    (1 <= fuel)%nat -> 0 <= n < 10 ^ Z.of_nat fuel ->
    exists p : string,
      to_string_aux fuel n acc = (p ++ acc)%string
      /\ (1 <= String.length p <= fuel)%nat
      /\ all_chars is_digit p = true
      /\ decimal_value p = n.
Proof.
  induction fuel as [|fuel IH]; intros n acc Hfuel Hn; [lia |].
  cbn [to_string_aux].
  assert (Hmod : 0 <= n mod 10 <= 9) by (pose proof (Z.mod_pos_bound n 10); lia).
  destruct (Z.ltb_spec n 10) as [Hsmall | Hbig].
  - exists (String (digit_char (n mod 10)) EmptyString). simpl.
    repeat split; try lia.
    + unfold all_chars; simpl. now rewrite is_digit_digit_char.
    + rewrite char_code_digit_char by exact Hmod.
      rewrite Z.mod_small by lia. lia.
  - assert (Hf : (1 <= fuel)%nat).
    { destruct fuel; [simpl in Hn; lia | lia]. }
    assert (Hdiv : 0 <= n / 10 < 10 ^ Z.of_nat fuel).
    { split; [apply Z.div_pos; lia |].
      apply Z.div_lt_upper_bound; [lia |].
      rewrite Nat2Z.inj_succ, Z.pow_succ_r in Hn by lia. lia. }
    destruct (IH (n / 10) (String (digit_char (n mod 10)) acc) Hf Hdiv)
      as (p & Heq & Hlen & Hdig & Hval).
    exists (p ++ String (digit_char (n mod 10)) EmptyString)%string.
    rewrite Heq, append_assoc, append_cons, append_nil.
    rewrite length_append, all_chars_append, decimal_value_append, Hdig, Hval.
    simpl. repeat split; try lia.
    + unfold all_chars; simpl. now rewrite is_digit_digit_char.
    + rewrite char_code_digit_char by exact Hmod.
      pose proof (Z.div_mod n 10). lia.
Qed.

Lemma to_string_spec (n : Z) :
  in_uint64 n ->
  (1 <= String.length (to_string n) <= 20)%nat
  /\ all_chars is_digit (to_string n) = true
  /\ decimal_value (to_string n) = n.
Proof.
  intros [Hlo Hhi]. unfold UINT64_MOD in Hhi.
  destruct (to_string_aux_spec 20 n EmptyString) as (p & Heq & Hlen & Hdig & Hval).
  - lia.
  - change (10 ^ Z.of_nat 20) with 100000000000000000000.
    change (2 ^ 64) with 18446744073709551616 in Hhi. lia.
  - unfold to_string. rewrite Heq, append_empty_r. auto.
Qed.

Lemma decimal_value_bounds (p : string) :
  all_chars is_digit p = true ->
  0 <= decimal_value p < 10 ^ Z.of_nat (String.length p).
Proof.
  unfold all_chars.
  induction p as [|c p IH]; simpl; intros Hdig; [lia |].
  apply andb_true_iff in Hdig as [Hc Hp].
  specialize (IH Hp). apply is_digit_code in Hc.
  rewrite Nat2Z.inj_succ, Z.pow_succ_r by lia. nia.
Qed.

Lemma decimal_value_zero (p : string) :
  all_chars is_digit p = true ->
  decimal_value p = 0 <-> all_chars is_zero_char p = true.
Proof.
  unfold all_chars.
  induction p as [|c p IH]; simpl; intros Hdig; [tauto |].
  apply andb_true_iff in Hdig as [Hc Hp].
  pose proof (decimal_value_bounds p Hp) as Hb.
  specialize (IH Hp). pose proof (is_digit_code c Hc) as Hcode.
  assert (Hpow : 0 < 10 ^ Z.of_nat (String.length p)) by (apply Z.pow_pos_nonneg; lia).
  rewrite andb_true_iff, <- IH. unfold is_zero_char.
  rewrite Ascii.eqb_eq. split.
  - intros Hv.
    assert (Hz : char_code c - char_code "0" = 0) by nia.
    split; [| nia].
    unfold char_code in Hz. apply Nat2Z.inj in Hz || idtac.
    rewrite <- (ascii_nat_embedding c), <- (ascii_nat_embedding "0").
    f_equal. lia.
  - intros [-> Hv]. rewrite Hv. unfold char_code. lia.
Qed.

(** ** The optimize target *)

(** Every product [d * 10^k] that fits [uint64_t] is computed exactly in
    binary64: [10^k] is a double up to [k = 22], and so is [d * 10^k]. *)
Lemma validTarget_of_exact (d : Z) (k : nat) :
  0 <= d <= 9 -> (k <= 19)%nat -> d * 10 ^ Z.of_nat k < UINT64_MOD ->
  validTarget_of d k = Some (d * 10 ^ Z.of_nat k).
Proof.
  intros Hd Hk Hfit.
  assert (Hcases : d = 0 \/ d = 1 \/ d = 2 \/ d = 3 \/ d = 4 \/ d = 5
                   \/ d = 6 \/ d = 7 \/ d = 8 \/ d = 9) by lia.
  do 20 (destruct k as [|k];
         [ decompose [or] Hcases; subst d;
           solve [ vm_compute; reflexivity
                 | exfalso; vm_compute in Hfit; discriminate Hfit ]
         | ]).
  lia.
Qed.

Lemma validTarget_unfold (s : string) :
  validTarget s
  = validTarget_of (char_code (front s) - char_code "0") (String.length s - 1).
Proof. reflexivity. Qed.

(** The shape of [std::to_string(t)]: a leading digit [d], then [k] digits
    whose value is what remains of [t]. *)
Lemma to_string_leading (t : Z) :
  in_uint64 t ->
  exists (c : ascii) (rest : string),
    to_string t = String c rest
    /\ 0 <= char_code c - char_code "0" <= 9
    /\ (String.length rest <= 19)%nat
    /\ all_chars is_digit rest = true
    /\ t = (char_code c - char_code "0") * 10 ^ Z.of_nat (String.length rest)
           + decimal_value rest.
Proof.
  intros Ht. destruct (to_string_spec t Ht) as (Hlen & Hdig & Hval).
  destruct (to_string t) as [|c rest]; simpl in Hlen; [lia |].
  exists c, rest. unfold all_chars in Hdig. simpl in Hdig.
  apply andb_true_iff in Hdig as [Hc Hrest].
  repeat split; try (apply is_digit_code, Hc); try lia; try exact Hrest.
  simpl in Hval. lia.
Qed.

(** C10. [validateOptimizeTarget] returns [SUCCESS] for an absent target;
    for a target [t] it returns [SUCCESS] exactly when [t] is its leading
    decimal digit times ten to the number of its further digits, that is
    when all digits after the first are zero, and [AMOUNT_UGLY] otherwise.
    The product is computed in binary64 and is exact there, so the
    conversion back to [uint64_t] is always defined. 20000 is accepted and
    23456 is rejected. *)
Theorem validateOptimizeTarget_round_targets :
  validateOptimizeTarget None = Some (Error_of_code SUCCESS)
  /\ (forall t : Z, in_uint64 t ->
        (round_target t <-> all_chars is_zero_char (tail (to_string t)) = true)
        /\ (round_target t ->
            validateOptimizeTarget (Some t) = Some (Error_of_code SUCCESS))
        /\ (~ round_target t ->
            validateOptimizeTarget (Some t) = Some (Error_of_code AMOUNT_UGLY)))
  /\ validateOptimizeTarget (Some 20000) = Some (Error_of_code SUCCESS)
  /\ validateOptimizeTarget (Some 23456) = Some (Error_of_code AMOUNT_UGLY).
Proof.
  split; [reflexivity |]. split; [| split; vm_compute; reflexivity].
  intros t Ht.
  destruct (to_string_leading t Ht) as (c & rest & Hs & Hd & Hk & Hdig & Hval).
  pose proof (decimal_value_bounds rest Hdig) as Hb.
  set (d := char_code c - char_code "0") in *.
  set (k := String.length rest) in *.
  assert (Hpow : 0 < 10 ^ Z.of_nat k) by (apply Z.pow_pos_nonneg; lia).
  assert (Hround : round_target t <-> decimal_value rest = 0).
  { unfold round_target, leading_digit, digit_count. rewrite Hs. simpl.
    fold d. fold k.
    replace (Z.of_nat (S k) - 1) with (Z.of_nat k) by lia. lia. }
  assert (Hvalid : validTarget (to_string t) = Some (d * 10 ^ Z.of_nat k)).
  { rewrite validTarget_unfold, Hs. simpl. fold d.
    replace (String.length rest - 0)%nat with k by (subst k; lia).
    apply validTarget_of_exact; [exact Hd | exact Hk |].
    destruct Ht as [_ Ht]. nia. }
  split; [| split].
  - rewrite Hround, Hs. simpl. apply decimal_value_zero, Hdig.
  - intros Hr. unfold validateOptimizeTarget. rewrite Hvalid.
    apply Hround in Hr.
    replace (t =? d * 10 ^ Z.of_nat k) with true; [reflexivity |].
    symmetry. apply Z.eqb_eq. lia.
  - intros Hr. unfold validateOptimizeTarget. rewrite Hvalid.
    replace (t =? d * 10 ^ Z.of_nat k) with false; [reflexivity |].
    symmetry. apply Z.eqb_neq. intros Heq. apply Hr, Hround. lia.
Qed.

Lemma validateOptimizeTarget_round_targets_witness :
  in_uint64 7000
  /\ validateOptimizeTarget (Some 7000) = Some (Error_of_code SUCCESS).
Proof.
  assert (Hin : in_uint64 7000) by (unfold in_uint64, UINT64_MOD; lia).
  split; [exact Hin |].
  apply (proj1 (proj2 (proj1 (proj2 validateOptimizeTarget_round_targets) 7000 Hin))).
  vm_compute. reflexivity.
Defined.

(** ** [validateAmount] and [validateTransaction] *)

Section ValidationFacts.

Context `{Collaborators}.

Lemma validateAmount_unspecified
  (destinations : list (string * Z)) (fee : FeeType)
  (subWalletsToTakeFrom : list string) (subWallets : SubWallets)
  (currentHeight : Z) :
  feeTypeUnspecified fee ->
  validateAmount destinations fee subWalletsToTakeFrom subWallets currentHeight
  = Threw "Programmer error: fee type not specified".
Proof.
  intros (H1 & H2 & H3). unfold validateAmount. now rewrite H1, H2, H3.
Qed.

Lemma validateAmount_specified
  (destinations : list (string * Z)) (fee : FeeType)
  (subWalletsToTakeFrom : list string) (subWallets : SubWallets)
  (currentHeight : Z) :
  ~ feeTypeUnspecified fee ->
  validateAmount destinations fee subWalletsToTakeFrom subWallets currentHeight
  = Returned (Error_of_code
      (if feeTooSmall fee then FEE_TOO_SMALL
       else if sumWillOverflow (amountsOf destinations fee) then WILL_OVERFLOW
       else if totalAmountOf destinations fee
               >? availableBalanceOf subWalletsToTakeFrom subWallets currentHeight
       then NOT_ENOUGH_BALANCE
       else SUCCESS)).
Proof.
  intros Hspec. unfold validateAmount, feeTooSmall, amountsOf, totalAmountOf,
    availableBalanceOf, feeTypeUnspecified in *.
  destruct (isFeePerByte fee) eqn:E1, (isFixedFee fee) eqn:E2,
    (isMinimumFee fee) eqn:E3; simpl;
    try (exfalso; apply Hspec; now auto);
    destruct (getBalance _ _ _ _) as [availableBalance lockedBalance]; simpl;
    repeat match goal with
           | |- context [if ?b then _ else _] => destruct b
           end; reflexivity.
Qed.

(** C8. [validateAmount] throws exactly when no fee type is specified. In
    every other call it returns a typed [Error]: [FEE_TOO_SMALL] when the
    fee per byte is below the minimum, else [WILL_OVERFLOW] when the sum of
    the amounts overflows [uint64_t], else [NOT_ENOUGH_BALANCE] when the
    total exceeds the available balance, else [SUCCESS]. *)
Theorem validateAmount_throws_iff_fee_type_unspecified
  (destinations : list (string * Z)) (fee : FeeType)
  (subWalletsToTakeFrom : list string) (subWallets : SubWallets)
  (currentHeight : Z) :
  let result :=
    validateAmount destinations fee subWalletsToTakeFrom subWallets currentHeight in
  let available := availableBalanceOf subWalletsToTakeFrom subWallets currentHeight in
  ((exists what : string, result = Threw what) <-> feeTypeUnspecified fee)
  /\ (~ feeTypeUnspecified fee ->
      exists code : ErrorCode,
        result = Returned (Error_of_code code)
        /\ (feeTooSmall fee = true -> code = FEE_TOO_SMALL)
        /\ (feeTooSmall fee = false ->
            sumWillOverflow (amountsOf destinations fee) = true ->
            code = WILL_OVERFLOW)
        /\ (feeTooSmall fee = false ->
            sumWillOverflow (amountsOf destinations fee) = false ->
            totalAmountOf destinations fee > available ->
            code = NOT_ENOUGH_BALANCE)
        /\ (feeTooSmall fee = false ->
            sumWillOverflow (amountsOf destinations fee) = false ->
            totalAmountOf destinations fee <= available ->
            code = SUCCESS)).
Proof.
  intros result available. subst result available.
  assert (Hdec : feeTypeUnspecified fee \/ ~ feeTypeUnspecified fee).
  { unfold feeTypeUnspecified.
    destruct (isFeePerByte fee), (isFixedFee fee), (isMinimumFee fee);
      intuition congruence. }
  split.
  - split.
    + intros [what Hthrew]. destruct Hdec as [Hu | Hs]; [exact Hu |].
      rewrite validateAmount_specified in Hthrew by exact Hs. discriminate.
    + intros Hu. eexists. apply validateAmount_unspecified, Hu.
  - intros Hs. eexists. split; [apply validateAmount_specified, Hs |].
    repeat split.
    + now intros ->.
    + now intros -> ->.
    + intros -> -> Hgt. apply Z.gtb_gt in Hgt. now rewrite Hgt.
    + intros -> -> Hle.
      destruct (Z.gtb_spec (totalAmountOf destinations fee)
                  (availableBalanceOf subWalletsToTakeFrom subWallets currentHeight));
        [lia | reflexivity].
Qed.

Lemma validateTransaction_runChecks
  (destinations : list (string * Z)) (mixin : Z) (fee : FeeType)
  (paymentID : string) (subWalletsToTakeFrom : list string)
  (changeAddress : string) (subWallets : SubWallets) (currentHeight : Z) :
  validateTransaction destinations mixin fee paymentID subWalletsToTakeFrom
    changeAddress subWallets currentHeight
  = runChecks (checksOf destinations mixin fee paymentID subWalletsToTakeFrom
                 changeAddress subWallets currentHeight).
Proof. reflexivity. Qed.

Lemma Error_ne_SUCCESS_false (error : Error) :
  Error_ne error SUCCESS = false -> m_errorCode error = SUCCESS.
Proof.
  unfold Error_ne. intros Hne. apply negb_false_iff in Hne.
  now apply bool_decide_eq_true in Hne.
Qed.

Lemma runChecks_success (checks : list (Outcome Error)) :
  runChecks checks = Returned (Error_of_code SUCCESS)
  <-> forallb succeeds checks = true.
Proof.
  induction checks as [|o checks IH]; simpl; [tauto |].
  destruct o as [error | what]; simpl.
  - destruct (Error_ne error SUCCESS) eqn:Hne; simpl.
    + split; [| discriminate]. intros [= ->]. discriminate Hne.
    + exact IH.
  - split; discriminate.
Qed.

Lemma runChecks_firstFailing (checks : list (Outcome Error)) :
  forallb succeeds checks = false ->
  firstFailing checks = Some (runChecks checks).
Proof.
  unfold firstFailing.
  induction checks as [|o checks IH]; simpl; [discriminate |].
  destruct o as [error | what]; simpl; [| reflexivity].
  destruct (Error_ne error SUCCESS); simpl; [reflexivity | exact IH].
Qed.

(** C7, as the code has it. [validateTransaction] returns [SUCCESS] if and
    only if all seven checks (destinations, integrated addresses, source
    subwallets, amount, mixin, payment ID, change address) succeed;
    otherwise its outcome is the outcome of the first check, in that order,
    that does not succeed: the typed error that check returned, or the
    exception it threw. In particular, when the first three checks succeed
    and no fee type is specified, the exception of [validateAmount] leaves
    [validateTransaction] and no error value is returned. *)
Theorem validateTransaction_first_failing_check
  (destinations : list (string * Z)) (mixin : Z) (fee : FeeType)
  (paymentID : string) (subWalletsToTakeFrom : list string)
  (changeAddress : string) (subWallets : SubWallets) (currentHeight : Z) :
  let checks :=
    checksOf destinations mixin fee paymentID subWalletsToTakeFrom
      changeAddress subWallets currentHeight in
  let result :=
    validateTransaction destinations mixin fee paymentID subWalletsToTakeFrom
      changeAddress subWallets currentHeight in
  (result = Returned (Error_of_code SUCCESS) <-> forallb succeeds checks = true)
  /\ (forallb succeeds checks = false -> firstFailing checks = Some result)
  /\ (forallb succeeds (firstn 3 checks) = true -> feeTypeUnspecified fee ->
      result = Threw "Programmer error: fee type not specified").
Proof.
  intros checks result. subst result.
  rewrite validateTransaction_runChecks. fold checks.
  split; [apply runChecks_success |].
  split; [apply runChecks_firstFailing |].
  intros Hfirst Hfee. subst checks. unfold checksOf in *. simpl in Hfirst.
  rewrite (validateAmount_unspecified _ _ _ _ _ Hfee).
  destruct (validateDestinations destinations) as [e1 | w1]; simpl in *;
    [| discriminate].
  destruct (Error_ne e1 SUCCESS); simpl in *; [discriminate |].
  destruct (Error_ne (validateIntegratedAddresses destinations paymentID) SUCCESS);
    simpl in *; [discriminate |].
  destruct (validateOurAddresses subWalletsToTakeFrom subWallets) as [e3 | w3];
    simpl in *; [| discriminate].
  destruct (Error_ne e3 SUCCESS); simpl in *; [discriminate | reflexivity].
Qed.

End ValidationFacts.

(** The checks on the sample wallet, for a payment of 5 to one address
    when no fee type has been chosen. *)
Lemma validateAmount_throws_iff_fee_type_unspecified_witness :
  exists what : string,
    @validateAmount sampleCollaborators sampleDestinations
      (sampleFee false false false) [] sampleWallet 0 = Threw what.
Proof.
  apply (proj2 (proj1 (@validateAmount_throws_iff_fee_type_unspecified
                         sampleCollaborators sampleDestinations
                         (sampleFee false false false) [] sampleWallet 0))).
  repeat split.
Defined.

Lemma validateTransaction_first_failing_check_witness :
  @validateTransaction sampleCollaborators sampleDestinations 3
    (sampleFee false false false) EmptyString [] "TRalice1" sampleWallet 0
  = Threw "Programmer error: fee type not specified".
Proof.
  apply (proj2 (proj2 (@validateTransaction_first_failing_check
                         sampleCollaborators sampleDestinations 3
                         (sampleFee false false false) EmptyString [] "TRalice1"
                         sampleWallet 0))).
  - reflexivity.
  - repeat split.
Defined.

(** C7 as stated fails on that call: not all checks succeed, yet no typed
    error is returned, because [validateAmount] throws. *)
Lemma validateTransaction_returnsFirstError_counterexample :
  ~ returnsFirstError
      (@checksOf sampleCollaborators sampleDestinations 3
         (sampleFee false false false) EmptyString [] "TRalice1" sampleWallet 0)
      (@validateTransaction sampleCollaborators sampleDestinations 3
         (sampleFee false false false) EmptyString [] "TRalice1" sampleWallet 0).
Proof.
  intros [_ Hotherwise].
  destruct Hotherwise as (error & _ & Hreturned); [reflexivity |].
  vm_compute in Hreturned. discriminate Hreturned.
Qed.

(** Some values computed by the checks. On the sample wallet the payment
    goes through with a fixed fee of 10, fails for lack of funds when 95
    are sent, and is refused when the payment ID given differs from the one
    of the integrated address. *)
Example validateTransaction_sample_success :
  @validateTransaction sampleCollaborators sampleDestinations 3
    (sampleFee false true false) EmptyString [] "TRalice1" sampleWallet 0
  = Returned (Error_of_code SUCCESS).
Proof. vm_compute. reflexivity. Qed.

Example validateTransaction_sample_balance :
  @validateTransaction sampleCollaborators [("TRbobbob"%string, 95)] 3
    (sampleFee false true false) EmptyString [] "TRalice1" sampleWallet 0
  = Returned (Error_of_code NOT_ENOUGH_BALANCE).
Proof. vm_compute. reflexivity. Qed.

Example validateTransaction_sample_conflict :
  @validateTransaction sampleCollaborators
    [(("TRbobbob" ++ sample_paymentID)%string, 5)] 3
    (sampleFee false true false)
    "0000000000000000000000000000000000000000000000000000000000000000"
    [] "TRalice1" sampleWallet 0
  = Returned (Error_of_code CONFLICTING_PAYMENT_IDS).
Proof. vm_compute. reflexivity. Qed.

Example to_string_max : to_string (2 ^ 64 - 1) = "18446744073709551615"%string.
Proof. vm_compute. reflexivity. Qed.

Example validateOptimizeTarget_max :
  validateOptimizeTarget (Some (2 ^ 64 - 1)) = Some (Error_of_code AMOUNT_UGLY).
Proof. vm_compute. reflexivity. Qed.

Example validateOptimizeTarget_ten_to_19 :
  validateOptimizeTarget (Some (10 ^ 19)) = Some (Error_of_code SUCCESS).
Proof. vm_compute. reflexivity. Qed.

Example validateHash_dash :
  validateHash "zzzzzzzzzzzzzzzzzzzzzzzzzzzzzzzzzzzzz-zzzzzzzzzzzzzzzzzzzzzzzzzz"
  = HASH_INVALID.
Proof. vm_compute. reflexivity. Qed.

(** ** The single checks of [ValidateParameters.cpp] *)

(** On a string of 64 characters the regular expression tests that each
    character is a letter or a digit. *)
Lemma regex_match_hexRegex_chars (s : string) :
  String.length s = 64%nat ->
  regex_match s hexRegex = all_chars alphanumeric s.
Proof.
  intros Hlen. destruct (all_chars alphanumeric s) eqn:Hall.
  - now apply regex_match_hexRegex.
  - unfold regex_match.
    destruct (match_prefix hexRegex s) as [[|c rest]|] eqn:Hmatch; try reflexivity.
    apply (match_prefix_repeat_bracket_inv _ alphanumeric 64
             alphanumeric_in_ranges) in Hmatch.
    destruct Hmatch as [_ Hall']. congruence.
Qed.

Lemma validateHash_by_characters (s : string) :
  validateHash s
  = if negb (String.length s =? 64)%nat then Error_of_code HASH_WRONG_LENGTH
    else if all_chars alphanumeric s then Error_of_code SUCCESS
    else Error_of_code HASH_INVALID.
Proof.
  unfold validateHash.
  destruct (Nat.eqb_spec (String.length s) 64) as [Hlen | Hlen]; cbn [negb];
    [| reflexivity].
  rewrite (regex_match_hexRegex_chars s Hlen).
  now destruct (all_chars alphanumeric s).
Qed.

Lemma validatePaymentID_by_characters (s : string) :
  validatePaymentID s
  = if String.eqb s EmptyString then Error_of_code SUCCESS
    else if negb (String.length s =? 64)%nat
    then Error_of_code PAYMENT_ID_WRONG_LENGTH
    else if all_chars alphanumeric s then Error_of_code SUCCESS
    else Error_of_code PAYMENT_ID_INVALID.
Proof.
  unfold validatePaymentID.
  destruct (String.eqb s EmptyString); [reflexivity |].
  destruct (Nat.eqb_spec (String.length s) 64) as [Hlen | Hlen]; cbn [negb];
    [| reflexivity].
  rewrite (regex_match_hexRegex_chars s Hlen).
  now destruct (all_chars alphanumeric s).
Qed.

Lemma validatePaymentID_wellFormed (s : string) :
  Error_ne (validatePaymentID s) SUCCESS = negb (wellFormedPaymentID s).
Proof.
  rewrite validatePaymentID_by_characters. unfold wellFormedPaymentID.
  destruct (String.eqb s EmptyString); [reflexivity |].
  destruct (String.length s =? 64)%nat; [| reflexivity].
  now destruct (all_chars alphanumeric s).
Qed.

(** X1. [validateHash] returns [HASH_INVALID] exactly on the strings of 64
    characters of which one is neither a letter nor a digit, and
    [validatePaymentID] returns [PAYMENT_ID_INVALID] on the same strings. A
    payment ID is accepted exactly when it is empty or accepted as a hash,
    and both functions return a bare code, without a message. *)
Theorem validateHash_validatePaymentID_invalid (s : string) :
  (validateHash s = HASH_INVALID
   <-> String.length s = 64%nat /\ all_chars alphanumeric s = false)
  /\ (validatePaymentID s = PAYMENT_ID_INVALID
      <-> String.length s = 64%nat /\ all_chars alphanumeric s = false)
  /\ (validatePaymentID s = SUCCESS
      <-> s = EmptyString \/ validateHash s = SUCCESS)
  /\ m_customErrorMessage (validateHash s) = EmptyString
  /\ m_customErrorMessage (validatePaymentID s) = EmptyString.
Proof.
  rewrite validateHash_by_characters, validatePaymentID_by_characters.
  destruct (String.eqb_spec s EmptyString) as [-> | Hne].
  - simpl. repeat split; try discriminate; try reflexivity; auto;
      intros [Hlen _]; discriminate Hlen.
  - destruct (Nat.eqb_spec (String.length s) 64) as [Hlen | Hlen]; cbn [negb].
    + destruct (all_chars alphanumeric s); repeat split;
        try discriminate; try reflexivity; auto; intuition discriminate.
    + repeat split; try discriminate; try reflexivity; try tauto;
        intuition discriminate.
Qed.

Section SingleChecks.

Context `{Collaborators}.

Lemma validateIntegratedAddresses_codes
  (destinations : list (string * Z)) :
  forall paymentID : string,
    validateIntegratedAddresses destinations paymentID = SUCCESS
    \/ validateIntegratedAddresses destinations paymentID = CONFLICTING_PAYMENT_IDS.
Proof.
  induction destinations as [|[address amount] destinations IH]; intros paymentID;
    cbn [validateIntegratedAddresses]; [now left |].
  destruct (negb _); [apply IH |].
  destruct (extractIntegratedAddressData address) as [extractedAddress extractedPaymentID].
  destruct (String.eqb paymentID EmptyString); [apply IH |].
  destruct (negb _); [now right | apply IH].
Qed.

Lemma extractedPaymentIDs_cons
  (address : string) (amount : Z) (destinations : list (string * Z)) :
  extractedPaymentIDs ((address, amount) :: destinations)
  = if isIntegratedLength address
    then snd (extractIntegratedAddressData address) :: extractedPaymentIDs destinations
    else extractedPaymentIDs destinations.
Proof.
  unfold extractedPaymentIDs. cbn [List.filter fst].
  now destruct (isIntegratedLength address).
Qed.

Lemma validateIntegratedAddresses_compatible
  (destinations : list (string * Z)) :
  forall paymentID : string,
    validateIntegratedAddresses destinations paymentID = SUCCESS
    <-> ForallOrdPairs compatible (paymentID :: extractedPaymentIDs destinations).
Proof.
  induction destinations as [|[address amount] destinations IH]; intros paymentID;
    cbn [validateIntegratedAddresses].
  - split; [| reflexivity]. intros _. repeat constructor.
  - rewrite extractedPaymentIDs_cons. unfold isIntegratedLength.
    destruct (String.length address =? integratedAddressLength)%nat; cbn [negb];
      [| apply IH].
    destruct (extractIntegratedAddressData address)
      as [extractedAddress extractedPaymentID]. cbn [snd].
    destruct (String.eqb_spec paymentID EmptyString) as [-> | Hne].
    + rewrite IH. split.
      * intros Hrest. constructor; [| exact Hrest].
        apply Forall_forall. intros later _. now left.
      * intros Hall. now inversion Hall.
    + destruct (String.eqb_spec paymentID extractedPaymentID) as [<- | Hdiff];
        cbn [negb].
      * rewrite IH. split.
        -- intros Hrest. constructor; [| exact Hrest].
           inversion Hrest; subst. constructor; [now right | assumption].
        -- intros Hall. now inversion Hall.
      * split; [discriminate |]. intros Hall. inversion Hall as [|? ? Hfirst _]; subst.
        inversion Hfirst as [|? ? [Hempty | Hsame] _]; subst; contradiction.
Qed.

(** X2. [validateIntegratedAddresses] looks only at the destinations of
    integrated length. It returns [SUCCESS] exactly when, in the sequence
    made of the payment ID given and the payment IDs of those destinations,
    every entry is empty or equal to each entry after it, and
    [CONFLICTING_PAYMENT_IDS] otherwise; for a payment ID given that is not
    empty this means that every integrated destination carries that very
    payment ID. *)
Theorem validateIntegratedAddresses_agreement
  (destinations : list (string * Z)) (paymentID : string) :
  let result := validateIntegratedAddresses destinations paymentID in
  (result = SUCCESS
   <-> ForallOrdPairs compatible (paymentID :: extractedPaymentIDs destinations))
  /\ (result <> SUCCESS -> result = CONFLICTING_PAYMENT_IDS)
  /\ (paymentID <> EmptyString ->
      (result = SUCCESS
       <-> Forall (eq paymentID) (extractedPaymentIDs destinations))).
Proof.
  intros result. subst result. split; [| split].
  - apply validateIntegratedAddresses_compatible.
  - intros Hne.
    destruct (validateIntegratedAddresses_codes destinations paymentID);
      [contradiction | assumption].
  - intros Hne. rewrite validateIntegratedAddresses_compatible. split.
    + intros Hall. inversion Hall as [|? ? Hfirst _]; subst.
      eapply List.Forall_impl; [| exact Hfirst].
      intros later [Hempty | Hsame]; [contradiction | exact Hsame].
    + intros Hsame. constructor.
      * eapply List.Forall_impl; [| exact Hsame]. intros later ->. now right.
      * induction Hsame as [|later rest <- Hrest IHrest]; constructor.
        -- eapply List.Forall_impl; [| exact Hrest]. intros later ->. now right.
        -- exact IHrest.
Qed.

End SingleChecks.

Section AddressChecks.

Context `{Collaborators}.

Lemma check_Returned (error : Error) (rest : Outcome Error) :
  check (Returned error) rest
  = if Error_ne error SUCCESS then Returned error else rest.
Proof. reflexivity. Qed.

Lemma check_SUCCESS (rest : Outcome Error) :
  check (Returned (Error_of_code SUCCESS)) rest = rest.
Proof. reflexivity. Qed.

(** The loop of [validateDestinations] stops at the first amount that is
    zero, and else collects the addresses in order. *)
Lemma destinationAddressesOf_spec (destinations : list (string * Z)) :
  forall destinationAddresses : list string,
    destinationAddressesOf destinations destinationAddresses
    = if hasZeroAmount destinations then None
      else Some (destinationAddresses ++ map fst destinations).
Proof.
  unfold hasZeroAmount.
  induction destinations as [|[destination amount] destinations IH];
    intros destinationAddresses; cbn [destinationAddressesOf existsb map fst snd].
  - now rewrite app_nil_r.
  - destruct (amount =? 0); cbn [orb]; [reflexivity |].
    rewrite IH. now rewrite <- app_assoc.
Qed.

(** An error value that [validateAddresses] returns with the code
    [SUCCESS] is the bare [SUCCESS]. *)
Lemma validateAddresses_SUCCESS
  (addresses : list string) (integratedAddressesAllowed : bool) (error : Error) :
  validateAddresses addresses integratedAddressesAllowed = Returned error ->
  Error_ne error SUCCESS = false ->
  error = Error_of_code SUCCESS.
Proof.
  induction addresses as [|address addresses IH]; cbn [validateAddresses].
  - now intros [= <-].
  - repeat match goal with
           | |- context [if ?b then _ else _] => destruct b
           | |- context [match decode_addr ?a with _ => _ end] =>
               destruct (decode_addr a) as [[ignore decoded]|]
           | |- context [match fromBinaryArray ?a with _ => _ end] =>
               destruct (fromBinaryArray a)
           | |- context [substr_from ?d ?n] => destruct (substr_from d n); cbn [bind]
           end;
      try (intros [= <-]; discriminate); try discriminate; exact IH.
Qed.

Lemma check_validateAddresses
  (addresses : list string) (integratedAddressesAllowed : bool) :
  check (validateAddresses addresses integratedAddressesAllowed)
    (Returned (Error_of_code SUCCESS))
  = validateAddresses addresses integratedAddressesAllowed.
Proof.
  destruct (validateAddresses addresses integratedAddressesAllowed)
    as [error | what] eqn:Hresult; [| reflexivity].
  rewrite check_Returned. destruct (Error_ne error SUCCESS) eqn:Hne; [reflexivity |].
  now rewrite (validateAddresses_SUCCESS _ _ _ Hresult Hne).
Qed.

(** X3. [validateDestinations] returns [NO_DESTINATIONS_GIVEN] for no
    destination; else [AMOUNT_IS_ZERO] as soon as one amount is zero,
    whatever the addresses are, also the ones before it; else it is the
    outcome of [validateAddresses], integrated addresses allowed, on the
    addresses of the destinations in their order. *)
Theorem validateDestinations_amounts_before_addresses
  (destinations : list (string * Z)) :
  validateDestinations destinations
  = match destinations with
    | [] => Returned (Error_of_code NO_DESTINATIONS_GIVEN)
    | _ =>
        if hasZeroAmount destinations
        then Returned (Error_of_code AMOUNT_IS_ZERO)
        else validateAddresses (map fst destinations) true
    end.
Proof.
  unfold validateDestinations. destruct destinations as [|d destinations];
    [reflexivity |].
  rewrite destinationAddressesOf_spec.
  destruct (hasZeroAmount (d :: destinations)); [reflexivity |].
  cbn [app]. apply check_validateAddresses.
Qed.

(** X4. [validateAddresses] checks the addresses from left to right and
    stops at the first one that fails: on a list made of two parts the
    outcome is that of the first part unless the first part is accepted, and
    then it is that of the second part. *)
Theorem validateAddresses_app
  (addresses1 addresses2 : list string) (integratedAddressesAllowed : bool) :
  validateAddresses (addresses1 ++ addresses2) integratedAddressesAllowed
  = check (validateAddresses addresses1 integratedAddressesAllowed)
      (validateAddresses addresses2 integratedAddressesAllowed).
Proof.
  induction addresses1 as [|address addresses1 IH];
    cbn [validateAddresses app]; [reflexivity |].
  repeat match goal with
         | |- context [if ?b then _ else _] => destruct b
         | |- context [match decode_addr ?a with _ => _ end] =>
             destruct (decode_addr a) as [[ignore decoded]|]
         | |- context [match fromBinaryArray ?a with _ => _ end] =>
             destruct (fromBinaryArray a)
         | |- context [substr_from ?d ?n] => destruct (substr_from d n); cbn [bind]
         end;
    try reflexivity; exact IH.
Qed.

(** With integrated addresses not allowed, [validateAddresses] returns, and
    it accepts the lists of standard addresses. *)
Lemma validateAddresses_standard (addresses : list string) :
  exists error : Error,
    validateAddresses addresses false = Returned error
    /\ Error_ne error SUCCESS = negb (forallb standardAddress addresses).
Proof.
  induction addresses as [|address addresses (error & Hresult & Hcode)];
    cbn [validateAddresses forallb]; [now eexists |].
  unfold standardAddress, isIntegratedLength, hasPrefix.
  destruct (String.length address =? standardAddressLength)%nat,
    (String.length address =? integratedAddressLength)%nat,
    (String.eqb (substr_to address (String.length addressPrefix)) addressPrefix),
    (parseAccountAddressString address);
    cbn [negb andb]; try (eexists; split; reflexivity).
  exists error. split; assumption.
Qed.

(** X5. With integrated addresses not allowed, [validateAddresses] never
    throws, and it returns [SUCCESS] exactly for the lists of which every
    address has the standard length and not the integrated one, starts with
    the address prefix and is parsed by [parseAccountAddressString]; the
    empty list is one of them. *)
Theorem validateAddresses_standard_only (addresses : list string) :
  (exists error : Error, validateAddresses addresses false = Returned error)
  /\ (validateAddresses addresses false = Returned (Error_of_code SUCCESS)
      <-> forallb standardAddress addresses = true)
  /\ validateAddresses [] false = Returned (Error_of_code SUCCESS).
Proof.
  destruct (validateAddresses_standard addresses) as (error & Hresult & Hcode).
  split; [now exists error |]. split; [| reflexivity].
  rewrite Hresult. split.
  - intros [= ->]. simpl in Hcode. symmetry in Hcode.
    now apply negb_false_iff in Hcode.
  - intros Hall. rewrite Hall in Hcode. simpl in Hcode.
    now rewrite (validateAddresses_SUCCESS _ _ _ Hresult Hcode).
Qed.

(** X6. The flag [integratedAddressesAllowed] matters only for addresses of
    integrated length: on a list without one, [validateAddresses] gives the
    same outcome for both values of the flag. So whatever is accepted with
    integrated addresses not allowed is accepted with them allowed. *)
Theorem validateAddresses_flag (addresses : list string) :
  (forallb (fun address => negb (isIntegratedLength address)) addresses = true ->
   validateAddresses addresses true = validateAddresses addresses false)
  /\ (validateAddresses addresses false = Returned (Error_of_code SUCCESS) ->
      validateAddresses addresses true = Returned (Error_of_code SUCCESS)).
Proof.
  assert (Hsame :
    forallb (fun address => negb (isIntegratedLength address)) addresses = true ->
    validateAddresses addresses true = validateAddresses addresses false).
  { unfold isIntegratedLength.
    induction addresses as [|address addresses IH]; cbn [validateAddresses forallb];
      [reflexivity |].
    intros [Hfirst Hrest]%andb_true_iff. apply negb_true_iff in Hfirst.
    rewrite Hfirst, (IH Hrest). reflexivity. }
  split; [exact Hsame |].
  intros Haccepted. rewrite Hsame; [exact Haccepted |].
  destruct (validateAddresses_standard addresses) as (error & Hresult & Hcode).
  rewrite Hresult in Haccepted. injection Haccepted as ->. simpl in Hcode.
  symmetry in Hcode. apply negb_false_iff in Hcode.
  rewrite forallb_forall in Hcode |- *. intros address Hin.
  specialize (Hcode address Hin). unfold standardAddress in Hcode.
  now destruct (String.length address =? standardAddressLength)%nat,
    (isIntegratedLength address).
Qed.

End AddressChecks.

Lemma length_substring_0 (n : nat) :
  forall s : string, String.length (substring 0 n s) = Nat.min n (String.length s).
Proof.
  induction n as [|n IH]; intros [|c s]; simpl; try reflexivity.
  now rewrite IH.
Qed.

Lemma sumAmounts_nonneg (amounts : list Z) :
  Forall in_uint64 amounts -> 0 <= sumAmounts amounts.
Proof.
  induction 1 as [|amount amounts [Hlow _] _ IH]; simpl; lia.
Qed.

Section WalletChecks.

Context `{Collaborators}.

(** When [createTxExtraWithPaymentId] takes payment IDs of 64 characters
    only, the decoded data of an integrated address that gets as far as
    [decoded.substr(paymentIDLen)] has the 64 characters this call needs. *)
Lemma validateAddresses_Returned :
  paymentIDsHave64Characters ->
  forall (addresses : list string) (integratedAddressesAllowed : bool),
  exists error : Error,
    validateAddresses addresses integratedAddressesAllowed = Returned error.
Proof.
  intros Hlength addresses integratedAddressesAllowed.
  induction addresses as [|address addresses IH]; cbn [validateAddresses];
    [now eexists |].
  destruct (negb _ && negb _); [now eexists |].
  destruct (negb (String.eqb _ _)); [now eexists |].
  destruct (String.length address =? integratedAddressLength)%nat.
  - destruct (negb integratedAddressesAllowed); [now eexists |].
    destruct (decode_addr address) as [[ignore decoded]|]; [| now eexists].
    destruct (createTxExtraWithPaymentId (substr_to decoded paymentIDLen))
      eqn:Hcreated; cbn [negb]; [| now eexists].
    apply Hlength in Hcreated. unfold substr_to in Hcreated.
    rewrite length_substring_0 in Hcreated.
    unfold substr_from.
    destruct (Nat.leb_spec paymentIDLen (String.length decoded)); [| lia].
    cbn [bind].
    destruct (fromBinaryArray _); [| now eexists].
    destruct (negb _); [now eexists | exact IH].
  - destruct (negb _); [now eexists | exact IH].
Qed.

Lemma validateDestinations_Returned :
  paymentIDsHave64Characters ->
  forall destinations : list (string * Z),
  exists error : Error, validateDestinations destinations = Returned error.
Proof.
  intros Hlength destinations. unfold validateDestinations.
  destruct destinations as [|d destinations]; [now eexists |].
  destruct (destinationAddressesOf _ _) as [destinationAddresses|];
    [| now eexists].
  rewrite check_validateAddresses. apply validateAddresses_Returned, Hlength.
Qed.

(** X7. When [createTxExtraWithPaymentId] takes payment IDs of 64
    characters only, neither [validateAddresses] nor [validateDestinations]
    throws; the exception that [decoded.substr(paymentIDLen)] raises on
    decoded data of fewer than 64 characters is then out of reach. *)
Theorem validateAddresses_never_throws :
  paymentIDsHave64Characters ->
  (forall (addresses : list string) (integratedAddressesAllowed : bool),
   exists error : Error,
     validateAddresses addresses integratedAddressesAllowed = Returned error)
  /\ (forall destinations : list (string * Z),
      exists error : Error, validateDestinations destinations = Returned error).
Proof.
  intros Hlength. split.
  - apply validateAddresses_Returned, Hlength.
  - apply validateDestinations_Returned, Hlength.
Qed.

(** The second loop of [validateOurAddresses] stops at the first address
    that is not in the wallet. *)
Lemma allInWallet_find (addresses : list string) (subWallets : SubWallets) :
  allInWallet addresses subWallets
  = match List.find (fun address => negb (inWallet subWallets address)) addresses with
    | Some address => mkError ADDRESS_NOT_IN_WALLET (notInWalletMessage address)
    | None => Error_of_code SUCCESS
    end.
Proof.
  induction addresses as [|address addresses IH]; cbn [allInWallet List.find];
    [reflexivity |].
  unfold inWallet at 1.
  destruct (addressToKeys address) as [spendKey viewKey]. cbn [fst].
  destruct (negb (found spendKey (m_publicSpendKeys subWallets)));
    [reflexivity | exact IH].
Qed.

Lemma find_none_forallb (addresses : list string) (subWallets : SubWallets) :
  List.find (fun address => negb (inWallet subWallets address)) addresses = None
  <-> forallb (inWallet subWallets) addresses = true.
Proof.
  induction addresses as [|address addresses IH]; cbn [List.find forallb];
    [tauto |].
  destruct (inWallet subWallets address); cbn [negb andb];
    [exact IH | split; discriminate].
Qed.

Lemma validateOurAddresses_code
  (addresses : list string) (subWallets : SubWallets) :
  exists error : Error,
    validateOurAddresses addresses subWallets = Returned error
    /\ Error_ne error SUCCESS = negb (ourAddresses subWallets addresses)
    /\ (Error_ne error SUCCESS = false -> error = Error_of_code SUCCESS).
Proof.
  unfold validateOurAddresses, ourAddresses.
  destruct (validateAddresses_standard addresses) as (error & Hresult & Hcode).
  rewrite Hresult, check_Returned, Hcode.
  destruct (forallb standardAddress addresses); cbn [negb andb].
  - rewrite allInWallet_find.
    destruct (List.find _ addresses) as [address|] eqn:Hfind.
    + eexists. split; [reflexivity |]. split; [| discriminate].
      destruct (forallb (inWallet subWallets) addresses) eqn:Hall; [| reflexivity].
      apply find_none_forallb in Hall. congruence.
    + eexists. split; [reflexivity |]. split; [| reflexivity].
      apply find_none_forallb in Hfind. now rewrite Hfind.
  - exists error. split; [reflexivity |]. split; [exact Hcode |].
    rewrite Hcode. discriminate.
Qed.

(** X8. [validateOurAddresses] never throws. It returns [SUCCESS] exactly
    when every address is a standard address and the spend key of every
    address is among the public spend keys of the container. An address
    that is not a standard address, wherever it stands, is reported before
    any address that is missing from the container; when all are standard
    addresses, the error names the first address that is missing. *)
Theorem validateOurAddresses_in_wallet
  (addresses : list string) (subWallets : SubWallets) :
  let result := validateOurAddresses addresses subWallets in
  (exists error : Error, result = Returned error)
  /\ (result = Returned (Error_of_code SUCCESS)
      <-> ourAddresses subWallets addresses = true)
  /\ (forallb standardAddress addresses = false ->
      result = validateAddresses addresses false)
  /\ (forallb standardAddress addresses = true ->
      forall address : string,
        List.find (fun address => negb (inWallet subWallets address)) addresses
        = Some address ->
        result = Returned (mkError ADDRESS_NOT_IN_WALLET (notInWalletMessage address))).
Proof.
  intros result. subst result.
  destruct (validateOurAddresses_code addresses subWallets)
    as (error & Hresult & Hcode & Hbare).
  split; [now exists error |]. split; [| split].
  - rewrite Hresult. split.
    + intros [= ->]. simpl in Hcode. symmetry in Hcode.
      now apply negb_false_iff in Hcode.
    + intros Hours. rewrite Hours in Hcode. now rewrite (Hbare Hcode).
  - intros Hstandard. unfold validateOurAddresses.
    destruct (validateAddresses_standard addresses) as (error' & Hresult' & Hcode').
    rewrite Hresult', check_Returned, Hcode', Hstandard. reflexivity.
  - intros Hstandard address Hfind. unfold validateOurAddresses.
    destruct (validateAddresses_standard addresses) as (error' & Hresult' & Hcode').
    rewrite Hresult', check_Returned, Hcode', Hstandard. cbn [negb].
    now rewrite allInWallet_find, Hfind.
Qed.

Lemma validateMixin_code (mixin height : Z) :
  Error_ne (validateMixin mixin height) SUCCESS = negb (mixinInRange mixin height)
  /\ (Error_ne (validateMixin mixin height) SUCCESS = false ->
      validateMixin mixin height = Error_of_code SUCCESS).
Proof.
  unfold validateMixin, mixinInRange.
  destruct (getMixinAllowableRange height) as [[minMixin maxMixin] defaultMixin].
  destruct (Z.ltb_spec mixin minMixin), (Z.gtb_spec mixin maxMixin),
    (Z.leb_spec minMixin mixin), (Z.leb_spec mixin maxMixin);
    try lia; split; try reflexivity; discriminate.
Qed.

(** The total that [validateAmount] compares with the balance is the sum
    of the amounts, when that sum fits [uint64_t]. *)
Lemma totalAmountOf_exact (destinations : list (string * Z)) (fee : FeeType) :
  sumsInUint64 ->
  Forall in_uint64 (amountsOf destinations fee) ->
  sumAmounts (amountsOf destinations fee) < UINT64_MOD ->
  totalAmountOf destinations fee = sumAmounts (amountsOf destinations fee).
Proof.
  intros [Hsum _] Hrange Hfits. unfold totalAmountOf, amountsOf in *.
  rewrite Hsum. destruct (isFixedFee fee); cbn [app] in *.
  - inversion Hrange as [|? ? [Hfee _] Hamounts]; subst.
    pose proof (sumAmounts_nonneg _ Hamounts). simpl in Hfits |- *.
    unfold add64. rewrite Z.add_mod_idemp_l by (unfold UINT64_MOD; lia).
    rewrite Z.mod_small by lia. lia.
  - pose proof (sumAmounts_nonneg _ Hrange). now rewrite Z.mod_small by lia.
Qed.

(** X9. When [getTransactionSum] adds in [uint64_t] and [sumWillOverflow]
    tells whether the sum leaves [uint64_t], the wrap-around of
    [totalAmount += fee.fixedFee] cannot make [validateAmount] accept:
    it returns [SUCCESS] exactly when a fee type is specified, the fee per
    byte is not too small, and the sum of the amounts, the fixed fee
    included if there is one, is below [2^64] and at most the available
    balance. A fee per byte or a minimum fee is not counted in that sum. *)
Theorem validateAmount_exact_sum
  (destinations : list (string * Z)) (fee : FeeType)
  (subWalletsToTakeFrom : list string) (subWallets : SubWallets)
  (currentHeight : Z) :
  sumsInUint64 ->
  Forall in_uint64 (amountsOf destinations fee) ->
  (validateAmount destinations fee subWalletsToTakeFrom subWallets currentHeight
   = Returned (Error_of_code SUCCESS)
   <-> ~ feeTypeUnspecified fee
       /\ feeTooSmall fee = false
       /\ sumAmounts (amountsOf destinations fee) < UINT64_MOD
       /\ sumAmounts (amountsOf destinations fee)
          <= availableBalanceOf subWalletsToTakeFrom subWallets currentHeight).
Proof.
  intros Hsums Hrange.
  assert (Hdec : feeTypeUnspecified fee \/ ~ feeTypeUnspecified fee).
  { unfold feeTypeUnspecified.
    destruct (isFeePerByte fee), (isFixedFee fee), (isMinimumFee fee);
      intuition congruence. }
  destruct Hdec as [Hunspecified | Hspecified].
  - rewrite validateAmount_unspecified by exact Hunspecified.
    split; [discriminate | tauto].
  - rewrite validateAmount_specified by exact Hspecified.
    pose proof (proj2 Hsums _ Hrange) as Hoverflow.
    destruct (feeTooSmall fee); [split; [discriminate | intuition discriminate] |].
    destruct (sumWillOverflow (amountsOf destinations fee)).
    + split; [discriminate |]. intros (_ & _ & Hfits & _).
      assert (UINT64_MOD <= sumAmounts (amountsOf destinations fee))
        by now apply Hoverflow.
      lia.
    + assert (Hfits : sumAmounts (amountsOf destinations fee) < UINT64_MOD).
      { destruct (Z.lt_ge_cases (sumAmounts (amountsOf destinations fee)) UINT64_MOD)
          as [Hlt | Hge]; [exact Hlt |].
        apply Hoverflow in Hge. discriminate. }
      rewrite (totalAmountOf_exact _ _ Hsums Hrange Hfits).
      destruct (Z.gtb_spec (sumAmounts (amountsOf destinations fee))
                  (availableBalanceOf subWalletsToTakeFrom subWallets currentHeight)).
      * split; [discriminate |]. intros (_ & _ & _ & Hle). lia.
      * split; [| reflexivity]. intros _. repeat split; [exact Hspecified | | ]; lia.
Qed.

End WalletChecks.

(** ** The optimize target, and the two transaction checks *)

(** The value the code computes for [validTarget]: the leading digit of
    the target, followed by zeros. *)
Lemma validTarget_leading (t : Z) :
  in_uint64 t ->
  validTarget (to_string t)
  = Some (leading_digit t * 10 ^ (Z.of_nat (digit_count t) - 1))
  /\ leading_digit t * 10 ^ (Z.of_nat (digit_count t) - 1) <= t
     < (leading_digit t + 1) * 10 ^ (Z.of_nat (digit_count t) - 1).
Proof.
  intros Ht.
  destruct (to_string_leading t Ht) as (c & rest & Hs & Hd & Hk & Hdig & Hval).
  pose proof (decimal_value_bounds rest Hdig) as Hb.
  unfold leading_digit, digit_count. rewrite validTarget_unfold, Hs.
  cbn [front String.length].
  replace (Z.of_nat (S (String.length rest)) - 1)
    with (Z.of_nat (String.length rest)) by lia.
  replace (S (String.length rest) - 1)%nat with (String.length rest) by lia.
  split; [| nia].
  apply validTarget_of_exact; [exact Hd | exact Hk |].
  destruct Ht as [_ Ht]. nia.
Qed.

Lemma validateOptimizeTarget_code (t : Z) :
  in_uint64 t ->
  exists error : Error,
    validateOptimizeTarget (Some t) = Some error
    /\ (Error_ne error SUCCESS = false <-> round_target t).
Proof.
  intros Ht. destruct (validTarget_leading t Ht) as [Hvalid _].
  unfold validateOptimizeTarget. rewrite Hvalid. unfold round_target.
  destruct (Z.eqb_spec t (leading_digit t * 10 ^ (Z.of_nat (digit_count t) - 1)));
    cbn [negb]; eexists; (split; [reflexivity |]); split;
      try discriminate; try reflexivity; try contradiction; auto.
Qed.

(** X10. For every target below [2^64], the value that
    [(strTarget[0] - '0') * pow(10, strTarget.length() - 1)] yields as
    [validTarget] is, with no rounding error of the [double] computation,
    the target with all its digits after the first replaced by zeros: the
    largest number with one significant digit that is not above the
    target. *)
Theorem validTarget_one_significant_digit (t : Z) :
  in_uint64 t ->
  exists valid : Z,
    validTarget (to_string t) = Some valid
    /\ valid = leading_digit t * 10 ^ (Z.of_nat (digit_count t) - 1)
    /\ 0 <= leading_digit t <= 9
    /\ valid <= t < valid + 10 ^ (Z.of_nat (digit_count t) - 1).
Proof.
  intros Ht. destruct (validTarget_leading t Ht) as [Hvalid Hbounds].
  eexists. split; [exact Hvalid |]. split; [reflexivity |]. split; [| lia].
  destruct (to_string_leading t Ht) as (c & rest & Hs & Hd & _).
  unfold leading_digit. now rewrite Hs.
Qed.

(** [std::to_string] writes no leading zero: a number of two digits or
    more is at least the power of ten of its number of further digits. *)
Lemma to_string_aux_no_leading_zero (fuel : nat) :
  forall (n : Z) (acc : string),
    (1 <= fuel)%nat -> 0 <= n < 10 ^ Z.of_nat fuel ->
    exists p : string,
      to_string_aux fuel n acc = (p ++ acc)%string
      /\ (1 <= String.length p)%nat
      /\ (1 <= n -> 10 ^ (Z.of_nat (String.length p) - 1) <= n).
Proof.
  induction fuel as [|fuel IH]; intros n acc Hfuel Hn; [lia |].
  cbn [to_string_aux].
  destruct (Z.ltb_spec n 10) as [Hsmall | Hbig].
  - exists (String (digit_char (n mod 10)) EmptyString). simpl.
    repeat split; lia.
  - assert (Hf : (1 <= fuel)%nat).
    { destruct fuel; [simpl in Hn; lia | lia]. }
    assert (Hdiv : 0 <= n / 10 < 10 ^ Z.of_nat fuel).
    { split; [apply Z.div_pos; lia |].
      apply Z.div_lt_upper_bound; [lia |].
      rewrite Nat2Z.inj_succ, Z.pow_succ_r in Hn by lia. lia. }
    destruct (IH (n / 10) (String (digit_char (n mod 10)) acc) Hf Hdiv)
      as (p & Heq & Hlen & Hlow).
    exists (p ++ String (digit_char (n mod 10)) EmptyString)%string.
    rewrite Heq, append_assoc, append_cons, append_nil, length_append.
    simpl. repeat split; try lia. intros _.
    assert (Hten : 1 <= n / 10) by (apply Z.div_le_lower_bound; lia).
    specialize (Hlow Hten).
    replace (Z.of_nat (String.length p + 1) - 1)
      with (Z.succ (Z.of_nat (String.length p) - 1)) by lia.
    rewrite Z.pow_succ_r by lia.
    pose proof (Z.mul_div_le n 10). lia.
Qed.

Lemma to_string_no_leading_zero (t : Z) :
  in_uint64 t -> 1 <= t -> 10 ^ (Z.of_nat (digit_count t) - 1) <= t.
Proof.
  intros [Hlo Hhi] Hpos. unfold UINT64_MOD in Hhi.
  destruct (to_string_aux_no_leading_zero 20 t EmptyString) as (p & Heq & _ & Hlow).
  - lia.
  - change (10 ^ Z.of_nat 20) with 100000000000000000000.
    change (2 ^ 64) with 18446744073709551616 in Hhi. lia.
  - unfold digit_count, to_string. rewrite Heq, append_empty_r. auto.
Qed.

(** A number lies between two consecutive powers of ten for one exponent
    only. *)
Lemma pow10_interval_unique (t : Z) (n k : nat) :
  10 ^ Z.of_nat n <= t < 10 ^ (Z.of_nat n + 1) ->
  10 ^ Z.of_nat k <= t < 10 ^ (Z.of_nat k + 1) ->
  n = k.
Proof.
  intros Hn Hk.
  destruct (Nat.lt_trichotomy n k) as [Hlt | [Heq | Hgt]]; [| exact Heq |].
  - assert (10 ^ (Z.of_nat n + 1) <= 10 ^ Z.of_nat k)
      by (apply Z.pow_le_mono_r; lia).
    lia.
  - assert (10 ^ (Z.of_nat k + 1) <= 10 ^ Z.of_nat n)
      by (apply Z.pow_le_mono_r; lia).
    lia.
Qed.

(** X17. The targets below [2^64] that [validateOptimizeTarget] accepts
    are exactly the numbers [d * 10^k] with a single decimal digit [d]:
    zero, and the numbers written as one digit from 1 to 9 followed by
    zeros. *)
Theorem validateOptimizeTarget_digit_times_power (t : Z) :
  in_uint64 t ->
  validateOptimizeTarget (Some t) = Some (Error_of_code SUCCESS)
  <-> exists (d : Z) (k : nat), 0 <= d <= 9 /\ t = d * 10 ^ Z.of_nat k.
Proof.
  intros Ht.
  destruct (validTarget_leading t Ht) as [Hvalid Hbounds].
  destruct (to_string_leading t Ht) as (c & rest & Hs & Hd & Hk & _).
  assert (Hleading : leading_digit t = char_code c - char_code "0")
    by (unfold leading_digit; now rewrite Hs).
  assert (Hcount : Z.of_nat (digit_count t) - 1 = Z.of_nat (String.length rest))
    by (unfold digit_count; rewrite Hs; simpl; lia).
  unfold validateOptimizeTarget. rewrite Hvalid.
  destruct (Z.eqb_spec t (leading_digit t * 10 ^ (Z.of_nat (digit_count t) - 1)))
    as [Hround | Hugly]; cbn [negb].
  - split; [| reflexivity]. intros _.
    exists (leading_digit t), (String.length rest).
    rewrite <- Hcount. split; [lia | exact Hround].
  - split; [discriminate |]. intros (d & k & Hdigit & Hproduct).
    exfalso. apply Hugly.
    assert (Hpow : 0 < 10 ^ Z.of_nat k) by (apply Z.pow_pos_nonneg; lia).
    destruct (Z.eq_dec d 0) as [-> | Hnonzero].
    + assert (t = 0) by lia. subst t. vm_compute. reflexivity.
    + assert (Hpos : 1 <= t) by nia.
      pose proof (to_string_no_leading_zero t Ht Hpos) as Hlow.
      rewrite Hcount in Hlow, Hbounds |- *.
      assert (Hpow' : 0 < 10 ^ Z.of_nat (String.length rest))
        by (apply Z.pow_pos_nonneg; lia).
      assert (Hsame : String.length rest = k).
      { apply (pow10_interval_unique t).
        - rewrite Z.pow_add_r by lia. change (10 ^ 1) with 10. nia.
        - rewrite Z.pow_add_r by lia. change (10 ^ 1) with 10. nia. }
      subst k. assert (d = leading_digit t) by nia. subst d. exact Hproduct.
Qed.

Lemma validateOptimizeTarget_digit_times_power_witness :
  validateOptimizeTarget (Some 9000000000000000000) = Some (Error_of_code SUCCESS).
Proof.
  apply (proj2 (validateOptimizeTarget_digit_times_power 9000000000000000000
                  ltac:(unfold in_uint64, UINT64_MOD; lia))).
  exists 9, 18%nat. split; [lia | reflexivity].
Defined.

Section TransactionChecks.

Context `{Collaborators}.

Lemma succeeds_Returned (error : Error) :
  succeeds (Returned error) = negb (Error_ne error SUCCESS).
Proof. reflexivity. Qed.

(** X11. [validateFusionTransaction] never throws and, for a target below
    [2^64], always yields an error value. It returns [SUCCESS] exactly when
    the mixin is in the range allowed at the height, the source addresses
    and the destination address are standard addresses of the wallet, and
    the optimize target is absent or round. The mixin is checked first: a
    mixin out of range is reported whatever the addresses and the target. *)
Theorem validateFusionTransaction_accepts
  (mixin : Z) (subWalletsToTakeFrom : list string) (destinationAddress : string)
  (subWallets : SubWallets) (currentHeight : Z) (optimizeTarget : option Z) :
  match optimizeTarget with Some t => in_uint64 t | None => True end ->
  let result :=
    validateFusionTransaction mixin subWalletsToTakeFrom destinationAddress
      subWallets currentHeight optimizeTarget in
  (exists error : Error, result = Returned (Some error))
  /\ (result = Returned (Some (Error_of_code SUCCESS))
      <-> mixinInRange mixin currentHeight = true
          /\ ourAddresses subWallets subWalletsToTakeFrom = true
          /\ ourAddresses subWallets [destinationAddress] = true
          /\ roundOrAbsent optimizeTarget)
  /\ (mixinInRange mixin currentHeight = false ->
      result = Returned (Some (validateMixin mixin currentHeight))).
Proof.
  intros Htarget result. subst result. unfold validateFusionTransaction.
  cbn [bind].
  destruct (validateMixin_code mixin currentHeight) as [Hmixin Hmixin'].
  rewrite Hmixin.
  destruct (mixinInRange mixin currentHeight); cbn [negb];
    [| split; [now eexists | split; [| reflexivity]];
       split; [| intuition discriminate];
       intros [= Hsuccess]; rewrite Hsuccess in Hmixin; discriminate Hmixin].
  destruct (validateOurAddresses_code subWalletsToTakeFrom subWallets)
    as (e1 & -> & Hcode1 & _).
  cbn [bind]. rewrite Hcode1.
  destruct (ourAddresses subWallets subWalletsToTakeFrom); cbn [negb];
    [| split; [now eexists | split; [| discriminate]];
       split; [| intuition discriminate];
       intros [= ->]; discriminate Hcode1].
  destruct (validateOurAddresses_code [destinationAddress] subWallets)
    as (e2 & -> & Hcode2 & _).
  cbn [bind]. rewrite Hcode2.
  destruct (ourAddresses subWallets [destinationAddress]); cbn [negb];
    [| split; [now eexists | split; [| discriminate]];
       split; [| intuition discriminate];
       intros [= ->]; discriminate Hcode2].
  destruct optimizeTarget as [t|]; cbn [roundOrAbsent].
  - destruct (validateOptimizeTarget_code t Htarget) as (e3 & -> & Hcode3).
    destruct (Error_ne e3 SUCCESS) eqn:Hne.
    + split; [now eexists | split; [| discriminate]]. split.
      * intros [= ->]. discriminate Hne.
      * intros (_ & _ & _ & Hround). apply Hcode3 in Hround. discriminate.
    + split; [now eexists | split; [| discriminate]]. split; [| reflexivity].
      intros _. repeat split. now apply Hcode3.
  - cbn. split; [now eexists | split; [| discriminate]]. tauto.
Qed.

Lemma succeeds_validateDestinations (destinations : list (string * Z)) :
  succeeds (validateDestinations destinations) = true
  <-> destinations <> []
      /\ hasZeroAmount destinations = false
      /\ validateAddresses (map fst destinations) true
         = Returned (Error_of_code SUCCESS).
Proof.
  unfold validateDestinations. destruct destinations as [|d destinations].
  - simpl. split; [discriminate | intros [Hne _]; contradiction].
  - rewrite destinationAddressesOf_spec.
    destruct (hasZeroAmount (d :: destinations)).
    + simpl. split; [discriminate | intros (_ & Hzero & _); discriminate].
    + cbn [app]. rewrite check_validateAddresses.
      destruct (validateAddresses (map fst (d :: destinations)) true)
        as [error | what] eqn:Hresult.
      * rewrite succeeds_Returned, negb_true_iff. split.
        -- intros Hcode. rewrite (validateAddresses_SUCCESS _ _ _ Hresult Hcode).
           repeat split. discriminate.
        -- intros (_ & _ & [= ->]). reflexivity.
      * simpl. split; [discriminate | intros (_ & _ & Habs); discriminate].
Qed.

Lemma succeeds_validateOurAddresses
  (addresses : list string) (subWallets : SubWallets) :
  succeeds (validateOurAddresses addresses subWallets)
  = ourAddresses subWallets addresses.
Proof.
  destruct (validateOurAddresses_code addresses subWallets)
    as (error & -> & Hcode & _).
  rewrite succeeds_Returned, Hcode. apply negb_involutive.
Qed.

Lemma succeeds_validateAmount
  (destinations : list (string * Z)) (fee : FeeType)
  (subWalletsToTakeFrom : list string) (subWallets : SubWallets)
  (currentHeight : Z) :
  succeeds (validateAmount destinations fee subWalletsToTakeFrom subWallets
              currentHeight) = true
  <-> ~ feeTypeUnspecified fee
      /\ feeTooSmall fee = false
      /\ sumWillOverflow (amountsOf destinations fee) = false
      /\ totalAmountOf destinations fee
         <= availableBalanceOf subWalletsToTakeFrom subWallets currentHeight.
Proof.
  assert (Hdec : feeTypeUnspecified fee \/ ~ feeTypeUnspecified fee).
  { unfold feeTypeUnspecified.
    destruct (isFeePerByte fee), (isFixedFee fee), (isMinimumFee fee);
      intuition congruence. }
  destruct Hdec as [Hunspecified | Hspecified].
  - rewrite validateAmount_unspecified by exact Hunspecified.
    simpl. split; [discriminate | tauto].
  - rewrite validateAmount_specified by exact Hspecified.
    destruct (feeTooSmall fee);
      [simpl; split; [discriminate | intuition discriminate] |].
    destruct (sumWillOverflow (amountsOf destinations fee));
      [simpl; split; [discriminate | intuition discriminate] |].
    destruct (Z.gtb_spec (totalAmountOf destinations fee)
                (availableBalanceOf subWalletsToTakeFrom subWallets currentHeight)).
    + simpl. split; [discriminate |]. intros (_ & _ & _ & Hle). lia.
    + simpl. split; [| reflexivity]. intros _. repeat split; assumption.
Qed.

(** X12. [validateTransaction] returns [SUCCESS] exactly when there is a
    destination, no amount is zero, the addresses of the destinations are
    accepted with integrated addresses allowed, the payment IDs agree, the
    source addresses and the change address are standard addresses of the
    wallet, a fee type is specified and the fee per byte is not too small,
    the amounts do not overflow, the total is covered by the available
    balance, the mixin is in range, and the payment ID is empty or made of
    64 letters and digits. *)
Theorem validateTransaction_accepts
  (destinations : list (string * Z)) (mixin : Z) (fee : FeeType)
  (paymentID : string) (subWalletsToTakeFrom : list string)
  (changeAddress : string) (subWallets : SubWallets) (currentHeight : Z) :
  validateTransaction destinations mixin fee paymentID subWalletsToTakeFrom
    changeAddress subWallets currentHeight = Returned (Error_of_code SUCCESS)
  <-> (destinations <> []
       /\ hasZeroAmount destinations = false
       /\ validateAddresses (map fst destinations) true
          = Returned (Error_of_code SUCCESS))
      /\ ForallOrdPairs compatible (paymentID :: extractedPaymentIDs destinations)
      /\ ourAddresses subWallets subWalletsToTakeFrom = true
      /\ (~ feeTypeUnspecified fee
          /\ feeTooSmall fee = false
          /\ sumWillOverflow (amountsOf destinations fee) = false
          /\ totalAmountOf destinations fee
             <= availableBalanceOf subWalletsToTakeFrom subWallets currentHeight)
      /\ mixinInRange mixin currentHeight = true
      /\ wellFormedPaymentID paymentID = true
      /\ ourAddresses subWallets [changeAddress] = true.
Proof.
  rewrite validateTransaction_runChecks, runChecks_success.
  unfold checksOf. cbn [forallb]. rewrite !andb_true_iff.
  rewrite succeeds_validateDestinations, !succeeds_validateOurAddresses,
    succeeds_validateAmount, !succeeds_Returned.
  rewrite (proj1 (validateMixin_code mixin currentHeight)),
    validatePaymentID_wellFormed, !negb_involutive.
  rewrite <- validateIntegratedAddresses_compatible.
  assert (Hintegrated :
    negb (Error_ne (validateIntegratedAddresses destinations paymentID) SUCCESS) = true
    <-> validateIntegratedAddresses destinations paymentID = SUCCESS).
  { destruct (validateIntegratedAddresses_codes destinations paymentID) as [-> | ->];
      split; try reflexivity; discriminate. }
  rewrite Hintegrated. tauto.
Qed.

(** X13. When [createTxExtraWithPaymentId] takes payment IDs of 64
    characters only, [validateTransaction] throws exactly when the
    destinations are accepted, the payment IDs agree, the source addresses
    are standard addresses of the wallet and no fee type is specified; the
    exception is then the one of [validateAmount], with the message
    [Programmer error: fee type not specified]. *)
Theorem validateTransaction_throws
  (destinations : list (string * Z)) (mixin : Z) (fee : FeeType)
  (paymentID : string) (subWalletsToTakeFrom : list string)
  (changeAddress : string) (subWallets : SubWallets) (currentHeight : Z) :
  paymentIDsHave64Characters ->
  let result :=
    validateTransaction destinations mixin fee paymentID subWalletsToTakeFrom
      changeAddress subWallets currentHeight in
  ((exists what : string, result = Threw what)
   <-> (destinations <> []
        /\ hasZeroAmount destinations = false
        /\ validateAddresses (map fst destinations) true
           = Returned (Error_of_code SUCCESS))
       /\ ForallOrdPairs compatible (paymentID :: extractedPaymentIDs destinations)
       /\ ourAddresses subWallets subWalletsToTakeFrom = true
       /\ feeTypeUnspecified fee)
  /\ (forall what : string,
        result = Threw what ->
        what = "Programmer error: fee type not specified"%string).
Proof.
  intros Hlength result. subst result.
  rewrite <- succeeds_validateDestinations. unfold validateTransaction.
  destruct (validateDestinations_Returned Hlength destinations) as (e1 & ->).
  rewrite check_Returned, succeeds_Returned.
  destruct (Error_ne e1 SUCCESS); cbn [negb];
    [split; [split; [intros [what Habs]; discriminate | intuition discriminate]
            | discriminate] |].
  rewrite check_Returned, <- validateIntegratedAddresses_compatible.
  destruct (validateIntegratedAddresses_codes destinations paymentID) as [-> | ->];
    cbn [Error_ne m_errorCode Error_of_code];
    [| split; [split; [intros [what Habs]; discriminate | intuition discriminate]
              | discriminate]].
  change (Error_ne SUCCESS SUCCESS) with false. cbv iota.
  destruct (validateOurAddresses_code subWalletsToTakeFrom subWallets)
    as (e3 & -> & Hcode3 & _).
  rewrite check_Returned, Hcode3.
  destruct (ourAddresses subWallets subWalletsToTakeFrom); cbn [negb];
    [| split; [split; [intros [what Habs]; discriminate | intuition discriminate]
              | discriminate]].
  assert (Hdec : feeTypeUnspecified fee \/ ~ feeTypeUnspecified fee).
  { unfold feeTypeUnspecified.
    destruct (isFeePerByte fee), (isFixedFee fee), (isMinimumFee fee);
      intuition congruence. }
  destruct Hdec as [Hunspecified | Hspecified].
  - rewrite validateAmount_unspecified by exact Hunspecified. cbn [check bind].
    split; [split; [tauto | intros _; now eexists] | now intros what [= <-]].
  - rewrite validateAmount_specified by exact Hspecified.
    rewrite check_Returned.
    assert (Hrest : forall error : Error, exists error' : Error,
      (if Error_ne error SUCCESS then Returned error
       else check (Returned (validateMixin mixin currentHeight))
              (check (Returned (validatePaymentID paymentID))
                 (check (validateOurAddresses [changeAddress] subWallets)
                    (Returned (Error_of_code SUCCESS))))) = Returned error').
    { intros error. destruct (Error_ne error SUCCESS); [now eexists |].
      rewrite !check_Returned.
      destruct (Error_ne (validateMixin mixin currentHeight) SUCCESS);
        [now eexists |].
      destruct (Error_ne (validatePaymentID paymentID) SUCCESS); [now eexists |].
      destruct (validateOurAddresses_code [changeAddress] subWallets)
        as (e7 & -> & _).
      rewrite check_Returned. destruct (Error_ne e7 SUCCESS); now eexists. }
    match goal with
    | |- context [if Error_ne ?e SUCCESS then _ else _] =>
        destruct (Hrest e) as (error' & ->)
    end.
    split; [split; [intros [what Habs]; discriminate | tauto] | discriminate].
Qed.

End TransactionChecks.

(** The checks on the sample wallet. *)

Lemma sample_paymentIDsHave64Characters :
  @paymentIDsHave64Characters sampleCollaborators.
Proof. intros paymentID Hcreated. now apply Nat.eqb_eq in Hcreated. Qed.

Lemma sample_sumsInUint64 : @sumsInUint64 sampleCollaborators.
Proof.
  split; [reflexivity |]. intros amounts _. apply Z.leb_le.
Qed.

Lemma validateIntegratedAddresses_agreement_witness :
  @validateIntegratedAddresses sampleCollaborators
    [(("TRbobbob" ++ sample_paymentID)%string, 5)] sample_paymentID
  = SUCCESS.
Proof.
  apply (proj2 (proj2 (@validateIntegratedAddresses_agreement sampleCollaborators
                         [(("TRbobbob" ++ sample_paymentID)%string, 5)]
                         sample_paymentID))).
  - discriminate.
  - vm_compute. repeat constructor.
Defined.

Lemma validateAddresses_flag_witness :
  @validateAddresses sampleCollaborators ["TRbobbob"%string; "XXbobbob"%string] true
  = @validateAddresses sampleCollaborators ["TRbobbob"%string; "XXbobbob"%string] false.
Proof.
  apply (proj1 (@validateAddresses_flag sampleCollaborators
                  ["TRbobbob"%string; "XXbobbob"%string])).
  reflexivity.
Defined.

Lemma validateAddresses_never_throws_witness :
  exists error : Error,
    @validateAddresses sampleCollaborators
      [("TRbobbob" ++ sample_paymentID)%string] true = Returned error.
Proof.
  apply (proj1 (@validateAddresses_never_throws sampleCollaborators
                  sample_paymentIDsHave64Characters)).
Defined.

Lemma validateOurAddresses_in_wallet_witness :
  @validateOurAddresses sampleCollaborators ["TRalice1"%string; "TRbobbob"%string]
    sampleWallet
  = Returned (mkError ADDRESS_NOT_IN_WALLET
                (notInWalletMessage "TRbobbob")).
Proof.
  apply (proj2 (proj2 (proj2 (@validateOurAddresses_in_wallet sampleCollaborators
                                ["TRalice1"%string; "TRbobbob"%string] sampleWallet))));
    reflexivity.
Defined.

Lemma validateAmount_exact_sum_witness :
  @validateAmount sampleCollaborators sampleDestinations (sampleFee false true false)
    [] sampleWallet 0
  = Returned (Error_of_code SUCCESS).
Proof.
  apply (proj2 (@validateAmount_exact_sum sampleCollaborators sampleDestinations
                  (sampleFee false true false) [] sampleWallet 0
                  sample_sumsInUint64
                  ltac:(repeat constructor; vm_compute; congruence))).
  split; [intros (_ & Hfixed & _); discriminate Hfixed |].
  repeat split; vm_compute; congruence.
Defined.

Lemma validTarget_one_significant_digit_witness :
  exists valid : Z,
    validTarget (to_string 23456) = Some valid
    /\ valid = leading_digit 23456 * 10 ^ (Z.of_nat (digit_count 23456) - 1)
    /\ 0 <= leading_digit 23456 <= 9
    /\ valid <= 23456 < valid + 10 ^ (Z.of_nat (digit_count 23456) - 1).
Proof.
  apply (validTarget_one_significant_digit 23456).
  unfold in_uint64, UINT64_MOD. lia.
Defined.

Lemma validateFusionTransaction_accepts_witness :
  @validateFusionTransaction sampleCollaborators 3 [] "TRalice1" sampleWallet 0
    (Some 7000)
  = Returned (Some (Error_of_code SUCCESS)).
Proof.
  apply (proj2 (proj1 (proj2 (@validateFusionTransaction_accepts sampleCollaborators
                                3 [] "TRalice1" sampleWallet 0 (Some 7000)
                                ltac:(unfold in_uint64, UINT64_MOD; lia))))).
  repeat split; vm_compute; reflexivity.
Defined.

Lemma validateTransaction_throws_witness :
  exists what : string,
    @validateTransaction sampleCollaborators sampleDestinations 9
      (sampleFee false false false) "not a payment ID" [] "nowhere" sampleWallet 0
    = Threw what.
Proof.
  apply (proj2 (proj1 (@validateTransaction_throws sampleCollaborators
                         sampleDestinations 9 (sampleFee false false false)
                         "not a payment ID" [] "nowhere" sampleWallet 0
                         sample_paymentIDsHave64Characters))).
  repeat split; try discriminate; try reflexivity. vm_compute. repeat constructor.
Defined.

Section IntegratedAddresses.

Context `{Collaborators}.

(** X14. With integrated addresses allowed, [validateAddresses] returns
    [SUCCESS] exactly when every address is a standard address or an
    integrated address: one of the integrated length, with the prefix,
    whose decoded data holds a payment ID that
    [createTxExtraWithPaymentId] takes and, after its 64 characters, keys
    that make an address which is parsed once rebuilt as a standard
    address. The integrated address itself is not given to
    [parseAccountAddressString]. *)
Theorem validateAddresses_integrated_allowed (addresses : list string) :
  validateAddresses addresses true = Returned (Error_of_code SUCCESS)
  <-> forallb (fun address => standardAddress address || integratedAddress address)
        addresses = true.
Proof.
  induction addresses as [|address addresses IH];
    cbn [validateAddresses forallb]; [tauto |].
  set (rest := forallb _ addresses) in *.
  unfold standardAddress, integratedAddress, isIntegratedLength, hasPrefix,
    substr_from.
  destruct (String.length address =? standardAddressLength)%nat,
    (String.length address =? integratedAddressLength)%nat,
    (String.eqb (substr_to address (String.length addressPrefix)) addressPrefix);
    cbn [negb andb orb bind]; try (split; discriminate).
  - destruct (decode_addr address) as [[ignore decoded]|];
      [| split; discriminate].
    destruct (createTxExtraWithPaymentId (substr_to decoded paymentIDLen));
      cbn [negb andb]; [| split; discriminate].
    destruct (paymentIDLen <=? String.length decoded)%nat;
      cbn [bind andb]; [| split; discriminate].
    destruct (fromBinaryArray _); [| split; discriminate].
    destruct (parseAccountAddressString _); cbn [negb andb];
      [exact IH | split; discriminate].
  - destruct (parseAccountAddressString address); cbn [negb andb orb];
      [exact IH | split; discriminate].
  - destruct (decode_addr address) as [[ignore decoded]|];
      [| split; discriminate].
    destruct (createTxExtraWithPaymentId (substr_to decoded paymentIDLen));
      cbn [negb andb]; [| split; discriminate].
    destruct (paymentIDLen <=? String.length decoded)%nat;
      cbn [bind andb]; [| split; discriminate].
    destruct (fromBinaryArray _); [| split; discriminate].
    destruct (parseAccountAddressString _); cbn [negb andb];
      [exact IH | split; discriminate].
Qed.

(** X15. The error codes of [validateAddresses]: with integrated addresses
    allowed it never returns [ADDRESS_IS_INTEGRATED]; with integrated
    addresses not allowed it never returns [ADDRESS_NOT_BASE58] nor
    [INTEGRATED_ADDRESS_PAYMENT_ID_INVALID], since an address of integrated
    length is refused before it is decoded. In both cases the code is one
    of the list [addressCodes], and a code other than [ADDRESS_WRONG_LENGTH]
    and [ADDRESS_IS_INTEGRATED] comes without a message. *)
Theorem validateAddresses_codes
  (addresses : list string) (integratedAddressesAllowed : bool) (error : Error) :
  validateAddresses addresses integratedAddressesAllowed = Returned error ->
  In (m_errorCode error) (addressCodes integratedAddressesAllowed)
  /\ (m_errorCode error <> ADDRESS_WRONG_LENGTH ->
      m_errorCode error <> ADDRESS_IS_INTEGRATED ->
      m_customErrorMessage error = EmptyString).
Proof.
  induction addresses as [|address addresses IH]; cbn [validateAddresses].
  - intros [= <-]. destruct integratedAddressesAllowed; simpl; auto.
  - repeat match goal with
           | |- context [if negb integratedAddressesAllowed then _ else _] =>
               destruct integratedAddressesAllowed; cbn [negb]
           | |- context [if ?b then _ else _] => destruct b
           | |- context [match decode_addr ?a with _ => _ end] =>
               destruct (decode_addr a) as [[ignore decoded]|]
           | |- context [match fromBinaryArray ?a with _ => _ end] =>
               destruct (fromBinaryArray a)
           | |- context [substr_from ?d ?n] => destruct (substr_from d n); cbn [bind]
           end;
      try exact IH; try discriminate;
      intros [= <-]; (split; [| simpl; congruence]);
      try (destruct integratedAddressesAllowed); simpl; tauto.
Qed.

End IntegratedAddresses.

Lemma validateAddresses_codes_witness :
  exists error : Error,
    @validateAddresses sampleCollaborators
      [("TRbobbob" ++ sample_paymentID)%string] false = Returned error
    /\ m_errorCode error = ADDRESS_IS_INTEGRATED
    /\ In (m_errorCode error) (addressCodes false).
Proof.
  eexists. split; [reflexivity |]. split; [reflexivity |].
  apply (proj1 (@validateAddresses_codes sampleCollaborators
                  [("TRbobbob" ++ sample_paymentID)%string] false _ eq_refl)).
Defined.

(* ===================================================================== *)

#[local] Open Scope nat_scope.

(** ** [EventLock] *)

Import System.

Section EventLockFacts.

Context {W : Type} `{EventOps W}.

Lemma after_waits_succ (k : nat) (w : W) :
  after_waits (S k) w = after_waits k (fst (wait w)).
Proof. reflexivity. Qed.

Lemma count_clear_waiting_rounds (k : nat) :
  count_occ Call_eq_dec (waiting_rounds k ++ [CallGet true; CallClear]) CallClear
  = 1%nat.
Proof. induction k as [|k IH]; [reflexivity | exact IH]. Qed.

Lemma EventLock_ctor_normal (fuel : nat) :
  forall (w : W) (log : list Call) (w' : W) (log' : list Call),
    EventLock_ctor fuel w log = Some (w', log', Normal tt) ->
    exists k : nat,
      (k < fuel)%nat
      /\ (forall j, (j < k)%nat ->
            get (after_waits j w) = false
            /\ snd (wait (after_waits j w)) = Resumed)
      /\ get (after_waits k w) = true
      /\ w' = clear (after_waits k w)
      /\ log' = log ++ waiting_rounds k ++ [CallGet true; CallClear].
Proof.
  induction fuel as [|fuel IH]; intros w log w' log' Hctor; [discriminate |].
  cbn [EventLock_ctor] in Hctor.
  destruct (get w) eqn:Hget; cbn [negb] in Hctor.
  - injection Hctor as <- <-. exists 0%nat.
    repeat split; try lia; try assumption.
  - destruct (wait w) as [w1 [|]] eqn:Hwait; [| discriminate].
    apply IH in Hctor as (k & Hk & Hbefore & Htrue & -> & ->).
    exists (S k). rewrite after_waits_succ, Hwait. cbn [fst].
    repeat split; try lia; try assumption.
    + destruct j as [|j]; [exact Hget |].
      rewrite after_waits_succ, Hwait. apply Hbefore. lia.
    + destruct j as [|j]; [simpl; now rewrite Hwait |].
      rewrite after_waits_succ, Hwait. apply Hbefore. lia.
    + now rewrite <- app_assoc.
Qed.

Lemma EventLock_ctor_enough_fuel (k : nat) :
  forall (fuel : nat) (w : W) (log : list Call),
    (k < fuel)%nat ->
    (forall j, (j < k)%nat ->
       get (after_waits j w) = false /\ snd (wait (after_waits j w)) = Resumed) ->
    get (after_waits k w) = true ->
    EventLock_ctor fuel w log
    = Some (clear (after_waits k w),
            log ++ waiting_rounds k ++ [CallGet true; CallClear], Normal tt).
Proof.
  induction k as [|k IH]; intros fuel w log Hfuel Hbefore Htrue;
    (destruct fuel as [|fuel]; [lia |]); cbn [EventLock_ctor].
  - simpl in Htrue. now rewrite Htrue.
  - destruct (Hbefore 0%nat) as [Hget Hres]; [lia |]. simpl in Hget, Hres.
    rewrite Hget. cbn [negb]. destruct (wait w) as [w1 r] eqn:Hwait.
    simpl in Hres. subst r.
    rewrite after_waits_succ, Hwait in Htrue |- *. cbn [fst] in *.
    rewrite (IH fuel w1); [| lia | | exact Htrue].
    + simpl. now rewrite <- app_assoc.
    + intros j Hj. specialize (Hbefore (S j)).
      rewrite after_waits_succ, Hwait in Hbefore. apply Hbefore. lia.
Qed.

Lemma EventLock_ctor_failure (fuel : nat) :
  forall (w : W) (log : list Call) (w' : W) (log' : list Call) (what : string),
    EventLock_ctor fuel w log = Some (w', log', Failure what) ->
    exists k : nat,
      get (after_waits k w) = false
      /\ wait (after_waits k w) = (w', Interrupted)
      /\ log' = log ++ waiting_rounds k ++ [CallGet false; CallWait Interrupted].
Proof.
  induction fuel as [|fuel IH]; intros w log w' log' what Hctor; [discriminate |].
  cbn [EventLock_ctor] in Hctor.
  destruct (get w) eqn:Hget; cbn [negb] in Hctor; [discriminate |].
  destruct (wait w) as [w1 [|]] eqn:Hwait.
  - apply IH in Hctor as (k & Hfalse & Hint & ->).
    exists (S k). rewrite after_waits_succ, Hwait. cbn [fst].
    repeat split; try assumption. now rewrite <- app_assoc.
  - injection Hctor as <- <- _. exists 0%nat. now repeat split.
Qed.

(** C1. The [EventLock] constructor calls [wait()] as long as [get()] is
    false and, once [get()] is true, calls [clear()] once and returns: it
    returns exactly when [get()] becomes true after some number [k] of
    waits, its calls are then [k] rounds of [get()] (false) and [wait()],
    one [get()] (true) and one [clear()], and the Event is left cleared.
    When a [wait()] is interrupted instead, the constructor is left by the
    exception and [clear()] is not called. *)
Theorem EventLock_ctor_waits_then_clears
  (fuel : nat) (w : W) (log : list Call) :
  (forall (w' : W) (log' : list Call),
     EventLock_ctor fuel w log = Some (w', log', Normal tt) <->
     exists k : nat,
       (k < fuel)%nat
       /\ (forall j, (j < k)%nat ->
             get (after_waits j w) = false
             /\ snd (wait (after_waits j w)) = Resumed)
       /\ get (after_waits k w) = true
       /\ w' = clear (after_waits k w)
       /\ log' = log ++ waiting_rounds k ++ [CallGet true; CallClear])
  /\ (forall (w' : W) (log' : list Call),
        EventLock_ctor fuel w log = Some (w', log', Normal tt) ->
        get w' = false
        /\ exists calls : list Call,
             log' = log ++ calls
             /\ count_occ Call_eq_dec calls CallClear = 1%nat
             /\ last calls = Some CallClear)
  /\ (forall (w' : W) (log' : list Call) (what : string),
        EventLock_ctor fuel w log = Some (w', log', Failure what) ->
        exists k : nat,
          log' = log ++ waiting_rounds k ++ [CallGet false; CallWait Interrupted]).
Proof.
  split; [| split].
  - intros w' log'. split.
    + apply EventLock_ctor_normal.
    + intros (k & Hk & Hbefore & Htrue & -> & ->).
      now apply EventLock_ctor_enough_fuel.
  - intros w' log' Hctor.
    apply EventLock_ctor_normal in Hctor as (k & _ & _ & _ & -> & ->).
    split; [apply get_after_clear |].
    exists (waiting_rounds k ++ [CallGet true; CallClear]).
    split; [reflexivity |]. split; [apply count_clear_waiting_rounds |].
    change [CallGet true; CallClear] with ([CallGet true] ++ [CallClear]).
    rewrite app_assoc. apply last_snoc.
  - intros w' log' what Hctor.
    apply EventLock_ctor_failure in Hctor as (k & _ & _ & ->). now exists k.
Qed.

(** C2. Once an [EventLock] is constructed, leaving its block calls
    [set()] whatever the way the block is left (falling off its end, an
    early return, a propagated failure): [set()] is the last call, and the
    Event is left set, not cleared. *)
Theorem EventLock_scope_exit_sets
  {A : Type} (fuel : nat) (body : W -> list Call -> W * list Call * Exit A)
  (w : W) (log : list Call) (w1 : W) (log1 : list Call) :
  EventLock_ctor fuel w log = Some (w1, log1, Normal tt) ->
  let '(w2, log2, exit) := body w1 log1 in
  guarded fuel body w log = Some (set w2, log2 ++ [CallSet], exit)
  /\ get (set w2) = true.
Proof.
  intros Hctor. unfold guarded. rewrite Hctor.
  destruct (body w1 log1) as [[w2 log2] exit]. simpl.
  split; [reflexivity | apply get_after_set].
Qed.

End EventLockFacts.

Lemma EventLock_ctor_waits_then_clears_witness :
  @EventLock_ctor View (View_EventOps 0) 2 (Event_new, otherSets) []
  = Some ((Event_new, []),
          [CallGet false; CallWait Resumed; CallGet true; CallClear], Normal tt).
Proof.
  apply (proj2 (proj1 (@EventLock_ctor_waits_then_clears View (View_EventOps 0)
                         2 (Event_new, otherSets) []) _ _)).
  exists 1%nat. repeat split; try lia.
  - destruct j; [reflexivity | lia].
  - destruct j; [reflexivity | lia].
Defined.

Lemma EventLock_scope_exit_sets_witness :
  @guarded View (View_EventOps 0) nat 2
    (fun w log => (w, log, Failure "failed inside")) (Event_new, otherSets) []
  = Some ((mkEvent true [], []),
          [CallGet false; CallWait Resumed; CallGet true; CallClear; CallSet],
          Failure "failed inside")
  /\ @get View (View_EventOps 0) (mkEvent true [], []) = true.
Proof.
  apply (@EventLock_scope_exit_sets View (View_EventOps 0) nat 2
           (fun w log => (w, log, Failure "failed inside"))
           (Event_new, otherSets) []
           (Event_new, [])
           [CallGet false; CallWait Resumed; CallGet true; CallClear]).
  reflexivity.
Defined.

(** ** When the constructor fails *)

Section EventLockFailure.

Context {W : Type} `{EventOps W}.

Lemma count_occ_waiting_rounds (k : nat) (call : Call) (last : list Call) :
  call <> CallGet false -> call <> CallWait Resumed ->
  count_occ Call_eq_dec (waiting_rounds k ++ last) call
  = count_occ Call_eq_dec last call.
Proof.
  intros Hget Hwait. induction k as [|k IH]; [reflexivity |].
  cbn [waiting_rounds app]. rewrite !count_occ_cons_neq by congruence. exact IH.
Qed.

(** X16. When a [wait()] of the constructor is left by an exception, there
    is no [EventLock]: the guarded block ends with that failure whatever
    its body is, the body is not run and the destructor is not called. The
    calls made on the Event are then only [get()] and [wait()]; it is
    neither cleared nor set. *)
Theorem EventLock_ctor_failure_leaves_event
  {A : Type} (fuel : nat) (body : W -> list Call -> W * list Call * Exit A)
  (w : W) (log : list Call) (w' : W) (log' : list Call) (what : string) :
  EventLock_ctor fuel w log = Some (w', log', Failure what) ->
  guarded fuel body w log = Some (w', log', Failure what)
  /\ exists calls : list Call,
       log' = log ++ calls
       /\ count_occ Call_eq_dec calls CallClear = 0
       /\ count_occ Call_eq_dec calls CallSet = 0.
Proof.
  intros Hctor. split.
  - unfold guarded. now rewrite Hctor.
  - apply EventLock_ctor_failure in Hctor as (k & _ & _ & ->).
    eexists. split; [reflexivity |].
    split; now rewrite count_occ_waiting_rounds by discriminate.
Qed.

End EventLockFailure.

Lemma EventLock_ctor_failure_leaves_event_witness :
  @guarded View (View_EventOps 0) nat 2
    (fun w log => (w, log ++ [CallSet], Normal 1)) (Event_new, []) []
  = Some ((mkEvent false [], []), [CallGet false; CallWait Interrupted],
          Failure "interrupted").
Proof.
  apply (@EventLock_ctor_failure_leaves_event View (View_EventOps 0) nat 2
           (fun w log => (w, log ++ [CallSet], Normal 1)) (Event_new, []) []).
  reflexivity.
Defined.

(** ** [Event]: who is resumed, and how often *)

(** Without a fresh [wait()] of [c], only the first [set()] can resume [c],
    and it does so once for each time [c] is in the queue. *)
Lemma resumptions_without_wait (c : ContextId) (ops : list EventOp) :
  forall event : Event,
    OpWait c ∉ ops ->
    resumptions c ops event
    = if bool_decide (OpSet ∈ ops)
      then count_occ Nat.eq_dec (waiters event) c
      else 0.
Proof.
  induction ops as [|op ops IH]; intros event Hnowait.
  - reflexivity.
  - apply not_elem_of_cons in Hnowait as [Hop Hops].
    cbn [resumptions]. destruct op as [c' | |]; cbn [apply].
    + rewrite (bool_decide_ext (OpSet ∈ OpWait c' :: ops) (OpSet ∈ ops))
        by (rewrite elem_of_cons; intuition discriminate).
      unfold Event_wait. destruct (state event); cbn [fst];
        rewrite (IH _ Hops); simpl; [reflexivity |].
      rewrite count_occ_app. simpl.
      destruct (Nat.eq_dec c' c) as [-> | _]; [congruence |].
      now rewrite Nat.add_0_r.
    + unfold Event_set. rewrite (IH _ Hops). simpl.
      destruct (bool_decide (OpSet ∈ ops)); simpl; lia.
    + rewrite (IH _ Hops). simpl.
      now rewrite (bool_decide_ext (OpSet ∈ OpClear :: ops) (OpSet ∈ ops))
        by (rewrite elem_of_cons; intuition discriminate).
Qed.

(** C4. A Context [c] that calls [wait()] while [get()] is false is
    suspended; it is not resumed by what follows up to the next [set()], it
    is resumed once by that [set()], and nothing that follows resumes it
    again unless it calls [wait()] afresh. A Context that calls [wait()]
    while [get()] is true is not suspended and the Event is unchanged. *)
Theorem Event_wait_resumed_once_by_next_set
  (event : Event) (c : ContextId) (before later : list EventOp) :
  (Event_get event = false ->
   c ∉ waiters event ->
   OpSet ∉ before -> OpWait c ∉ before -> OpWait c ∉ later ->
   snd (Event_wait c event) = true
   /\ resumptions c (OpWait c :: before) event = 0%nat
   /\ resumptions c (OpWait c :: before ++ [OpSet]) event = 1%nat
   /\ resumptions c (OpWait c :: before ++ [OpSet] ++ later) event = 1%nat)
  /\ (Event_get event = true -> Event_wait c event = (event, false)).
Proof.
  split.
  - unfold Event_get. intros Hget Hfresh Hnoset Hbefore Hlater.
    assert (Hqueue :
      count_occ Nat.eq_dec (waiters (fst (Event_wait c event))) c = 1).
    { unfold Event_wait. rewrite Hget. simpl. rewrite count_occ_app. simpl.
      destruct (Nat.eq_dec c c) as [_ | Hne]; [| congruence].
      rewrite Nat.add_1_r. f_equal. apply count_occ_not_In.
      now rewrite <- list_elem_of_In. }
    split; [unfold Event_wait; now rewrite Hget |].
    cbn [resumptions apply]. simpl.
    rewrite !resumptions_without_wait, Hqueue.
    + rewrite bool_decide_eq_false_2 by exact Hnoset.
      rewrite !bool_decide_eq_true_2; [auto | |];
        rewrite elem_of_app, elem_of_cons; auto.
    + rewrite not_elem_of_app, not_elem_of_cons. repeat split; try assumption.
      discriminate.
    + rewrite not_elem_of_app, not_elem_of_cons. repeat split; try assumption.
      * discriminate.
      * apply not_elem_of_nil.
    + exact Hbefore.
  - unfold Event_get, Event_wait. now intros ->.
Qed.

Lemma Event_wait_resumed_once_by_next_set_witness :
  resumptions 1 [OpWait 1; OpWait 2; OpClear; OpSet; OpClear; OpWait 3; OpSet]
    Event_new = 1%nat.
Proof.
  apply (proj1 (Event_wait_resumed_once_by_next_set Event_new 1
                  [OpWait 2; OpClear] [OpClear; OpWait 3; OpSet]));
    try reflexivity; rewrite ?elem_of_cons, ?elem_of_nil;
    intros Hin; decompose [or] Hin; discriminate || contradiction.
Defined.

(** ** Contexts contending for the lock *)

(** The function and the relation describe the same steps. *)
Lemma step_Step (m m' : Machine) : step m = Some m' <-> Step m m'.
Proof.
  split.
  - unfold step. intros Hstep.
    destruct (running m) as [c|] eqn:Hrun.
    + destruct (codeOf m c) as [|[| |] rest] eqn:Hcode.
      * injection Hstep as <-. now apply StepFinish with c.
      * injection Hstep as <-. now apply StepYield.
      * unfold Event_get, Event_wait, Event_clear in Hstep.
        destruct (state (event m)) eqn:Hstate; simpl in Hstep;
          injection Hstep as <-.
        -- now apply StepEnter.
        -- now apply StepWait with rest.
      * simpl in Hstep. injection Hstep as <-. now apply StepLeave.
    + destruct (readyQueue m) as [|c ready'] eqn:Hready; [discriminate |].
      injection Hstep as <-. now apply StepDispatch.
  - intros [c ready' Hrun Hready | c Hrun Hcode | c rest Hrun Hcode
           | c rest Hrun Hcode Hstate | c rest Hrun Hcode Hstate
           | c rest Hrun Hcode]; unfold step; rewrite Hrun;
      [now rewrite Hready | rewrite Hcode ..]; try reflexivity.
    + unfold Event_get, Event_wait. now rewrite Hstate.
    + unfold Event_get, Event_clear. now rewrite Hstate.
Qed.

(** A scoped program is inside a block exactly when [scoped] is told so. *)
Lemma scoped_holds (b : bool) (code : list Instr) :
  scoped b code = true -> holds code = b.
Proof.
  induction code as [|[| |] rest IH]; simpl; intros Hs.
  - now destruct b.
  - auto.
  - apply andb_true_iff in Hs as [Hb _]. now destruct b.
  - apply andb_true_iff in Hs as [Hb _]. now destruct b.
Qed.

Lemma codeOf_lt (m : Machine) (c : ContextId) :
  codeOf m c <> [] -> c < length (contexts m).
Proof.
  unfold codeOf. intros Hcode.
  destruct (contexts m !! c) eqn:Hc; [| simpl in Hcode; congruence].
  eapply lookup_lt_Some, Hc.
Qed.

Lemma code_insert (ctxs : list (list Instr)) (c c' : ContextId) (rest : list Instr) :
  c < length ctxs ->
  default [] (<[c := rest]> ctxs !! c')
  = if decide (c' = c) then rest else default [] (ctxs !! c').
Proof.
  intros Hlt. destruct (decide (c' = c)) as [-> | Hne].
  - now rewrite list_lookup_insert_eq.
  - now rewrite list_lookup_insert_ne.
Qed.

Lemma codeOf_updated (m : Machine) (c c' : ContextId) (rest : list Instr)
  ready run ev ent wt :
  codeOf m c <> [] ->
  codeOf (mkMachine ready run ev (<[c := rest]> (contexts m)) ent wt) c'
  = if decide (c' = c) then rest else codeOf m c'.
Proof. intros Hcode. apply code_insert, codeOf_lt, Hcode. Qed.

Lemma codeOf_kept (m : Machine) (c' : ContextId) ready run ev ent wt :
  codeOf (mkMachine ready run ev (contexts m) ent wt) c' = codeOf m c'.
Proof. reflexivity. Qed.

Lemma count_occ_snoc (l : list ContextId) (c c' : ContextId) :
  count_occ Nat.eq_dec (l ++ [c]) c'
  = count_occ Nat.eq_dec l c' + (if decide (c' = c) then 1 else 0).
Proof.
  rewrite count_occ_app. simpl.
  destruct (Nat.eq_dec c c'), (decide (c' = c)); try congruence; reflexivity.
Qed.

Section Contention.

Variable programs : list (list Instr).
Hypothesis programs_scoped : Forall (fun code => scoped false code = true) programs.

Lemma invariant_start : invariant programs (start programs true).
Proof.
  assert (Hprog : forall c, scoped false (default [] (programs !! c)) = true).
  { intros c. destruct (programs !! c) as [code|] eqn:Hc; [| reflexivity].
    simpl. rewrite Forall_forall in programs_scoped.
    apply programs_scoped. eapply list_elem_of_lookup_2, Hc. }
  split; unfold inside, codeOf; simpl.
  - intros c. rewrite (scoped_holds false); auto.
  - intros c Hcode. right; left. apply elem_of_seq.
    split; [lia |]. simpl.
    destruct (programs !! c) eqn:Hc; [| simpl in Hcode; congruence].
    eapply lookup_lt_Some, Hc.
  - intros _. split; [reflexivity |]. intros c. now apply scoped_holds.
  - discriminate.
  - now exists [].
  - reflexivity.
Qed.

(** Every step keeps the invariant. *)
Lemma invariant_step (m m' : Machine) :
  invariant programs m -> Step m m' -> invariant programs m'.
Proof.
  intros [Hscoped Htracked Hfree Hheld Hqueue Hentered] Hstep.
  destruct Hstep as [c ready' Hrun Hready | c Hrun Hcode | c rest Hrun Hcode
                    | c rest Hrun Hcode Hstate | c rest Hrun Hcode Hstate
                    | c rest Hrun Hcode];
    try (assert (Hlt : c < length (contexts m))
           by (apply codeOf_lt; rewrite Hcode; discriminate));
    unfold inside, codeOf in *.
  - (* dispatch *)
    split; unfold inside, codeOf; simpl; try assumption.
    + intros c0 Hc0. destruct (Htracked c0 Hc0) as [Hr | [Hr | Hw]].
      * congruence.
      * rewrite Hready in Hr. apply elem_of_cons in Hr as [-> | Hr]; auto.
      * auto.
    + intros Hst. destruct (Hheld Hst) as (h & Hin & Hpos & Huniq).
      exists h. repeat split; try assumption.
      destruct Hpos as [Hr | Hr]; [congruence |].
      rewrite Hready in Hr. apply elem_of_cons in Hr as [-> | Hr]; auto.
  - (* the running Context has finished *)
    split; unfold inside, codeOf; simpl; try assumption.
    + intros c0 Hc0. destruct (Htracked c0 Hc0) as [Hr | [Hr | Hw]]; auto.
      congruence.
    + intros Hst. destruct (Hheld Hst) as (h & Hin & Hpos & Huniq).
      exists h. repeat split; try assumption.
      destruct Hpos as [Hr | Hr]; [| auto].
      assert (h = c) by congruence. subst h. rewrite Hcode in Hin. discriminate.
  - (* yield *)
    pose proof (Hscoped c) as Hsc. rewrite Hcode in Hsc.
    simpl in Hsc.
    split; unfold inside, codeOf; simpl.
    + intros c0. rewrite code_insert by exact Hlt.
      case_decide; [subst c0; exact Hsc | apply Hscoped].
    + intros c0. rewrite code_insert by exact Hlt. case_decide.
      * subst c0. intros _. right; left. apply elem_of_app. right.
        apply list_elem_of_here.
      * intros Hc0. destruct (Htracked c0 Hc0) as [Hr | [Hr | Hw]]; auto.
        -- congruence.
        -- right; left. apply elem_of_app. auto.
    + intros Hst. destruct (Hfree Hst) as [Hw Hnone]. split; [exact Hw |].
      intros c0. rewrite code_insert by exact Hlt. case_decide.
      * subst c0. specialize (Hnone c). now rewrite Hcode in Hnone.
      * apply Hnone.
    + intros Hst. destruct (Hheld Hst) as (h & Hin & Hpos & Huniq).
      exists h. repeat split.
      * rewrite code_insert by exact Hlt. case_decide; [| exact Hin].
        subst h. now rewrite Hcode in Hin.
      * right. apply elem_of_app. destruct Hpos as [Hr | Hr]; [right | auto].
        assert (h = c) by congruence. subst h. apply list_elem_of_here.
      * intros c0. rewrite code_insert by exact Hlt. case_decide.
        -- subst c0. intros Hin0. apply Huniq. now rewrite Hcode.
        -- apply Huniq.
    + exact Hqueue.
    + intros c0. rewrite code_insert by exact Hlt. case_decide.
      * subst c0. rewrite <- Hentered, Hcode. reflexivity.
      * apply Hentered.
  - (* the constructor finds the Event cleared and waits *)
    assert (Hout : holds (default [] (contexts m !! c)) = false) by now rewrite Hcode.
    split; unfold inside, codeOf; simpl; try assumption.
    + intros c0 Hc0. destruct (Htracked c0 Hc0) as [Hr | [Hr | Hw]]; auto.
      * assert (c0 = c) by congruence. subst c0.
        right; right. apply elem_of_app. right. apply list_elem_of_here.
      * right; right. apply elem_of_app. auto.
    + discriminate.
    + intros _. destruct (Hheld Hstate) as (h & Hin & Hpos & Huniq).
      exists h. repeat split; try assumption.
      destruct Hpos as [Hr | Hr]; [| auto].
      assert (h = c) by congruence. subst h. congruence.
    + destruct Hqueue as [earlier Hq]. exists earlier.
      now rewrite Hq, app_assoc.
  - (* the constructor finds the Event set, clears it and returns *)
    destruct (Hfree Hstate) as [Hw Hnone].
    pose proof (Hscoped c) as Hsc. rewrite Hcode in Hsc.
    simpl in Hsc.
    assert (Hin : holds rest = true) by now apply scoped_holds.
    split; unfold inside, codeOf; simpl.
    + intros c0. rewrite code_insert by exact Hlt. case_decide.
      * subst c0. now rewrite Hin.
      * apply Hscoped.
    + intros c0. rewrite code_insert by exact Hlt. case_decide.
      * subst c0. auto.
      * intros Hc0. destruct (Htracked c0 Hc0) as [Hr | [Hr | Hw0]]; auto.
        congruence.
    + discriminate.
    + intros _. exists c. repeat split.
      * rewrite code_insert by exact Hlt. now rewrite decide_True.
      * auto.
      * intros c0. rewrite code_insert by exact Hlt. case_decide; [auto |].
        intros Hin0. specialize (Hnone c0). congruence.
    + exact Hqueue.
    + intros c0. rewrite code_insert by exact Hlt.
      rewrite count_occ_snoc. case_decide.
      * subst c0. rewrite <- Hentered, Hcode. unfold blocks. simpl.
        destruct (Instr_eq_dec Acquire Acquire); [lia | congruence].
      * rewrite Nat.add_0_r. apply Hentered.
  - (* the destructor sets the Event *)
    assert (Hinc : holds (default [] (contexts m !! c)) = true) by now rewrite Hcode.
    pose proof (Hscoped c) as Hsc. rewrite Hcode in Hsc.
    simpl in Hsc.
    assert (Hout : holds rest = false) by now apply scoped_holds.
    assert (Hstate : state (event m) = false).
    { destruct (state (event m)) eqn:Hst; [| reflexivity].
      destruct (Hfree eq_refl) as [_ Hnone]. specialize (Hnone c). congruence. }
    destruct (Hheld Hstate) as (h & Hin & Hpos & Huniq).
    assert (h = c) by (symmetry; now apply Huniq). subst h.
    split; unfold inside, codeOf; simpl.
    + intros c0. rewrite code_insert by exact Hlt. case_decide.
      * subst c0. now rewrite Hout.
      * apply Hscoped.
    + intros c0. rewrite code_insert by exact Hlt. case_decide.
      * subst c0. auto.
      * intros Hc0. destruct (Htracked c0 Hc0) as [Hr | [Hr | Hw0]].
        -- congruence.
        -- right; left. apply elem_of_app. auto.
        -- right; left. apply elem_of_app. auto.
    + intros _. split; [reflexivity |].
      intros c0. rewrite code_insert by exact Hlt. case_decide.
      * exact Hout.
      * destruct (holds (default [] (contexts m !! c0))) eqn:Hc0; [| reflexivity].
        exfalso. auto.
    + discriminate.
    + exists (waited m). now rewrite app_nil_r.
    + intros c0. rewrite code_insert by exact Hlt. case_decide.
      * subst c0. rewrite <- Hentered, Hcode. reflexivity.
      * apply Hentered.
Qed.

Lemma invariant_steps (m : Machine) :
  steps (start programs true) m -> invariant programs m.
Proof.
  revert m. apply rtc_ind_r.
  - apply invariant_start.
  - intros m0 m1 _ Hlast IH.
    eapply invariant_step; [exact IH | now apply step_Step].
Qed.

End Contention.

(** *** Termination *)

Lemma concat_insert_length (ctxs : list (list Instr)) :
  forall (c : nat) (old rest : list Instr),
    ctxs !! c = Some old ->
    length (concat (<[c := rest]> ctxs)) + length old
    = length (concat ctxs) + length rest.
Proof.
  induction ctxs as [|code ctxs IH]; intros [|c] old rest Hc; simpl in *;
    try discriminate.
  - injection Hc as ->. rewrite !length_app. lia.
  - rewrite !length_app. specialize (IH c old rest Hc). lia.
Qed.

Lemma codeOf_lookup (m : Machine) (c : ContextId) (i : Instr) (rest : list Instr) :
  codeOf m c = i :: rest -> contexts m !! c = Some (i :: rest).
Proof.
  unfold codeOf. destruct (contexts m !! c); simpl; congruence.
Qed.

Lemma Step_decreases (m m' : Machine) :
  Step m m' ->
  remaining m' < remaining m
  \/ (remaining m' = remaining m /\ pending m' < pending m).
Proof.
  intros [c ready' Hrun Hready | c Hrun Hcode | c rest Hrun Hcode
         | c rest Hrun Hcode Hstate | c rest Hrun Hcode Hstate
         | c rest Hrun Hcode]; unfold remaining, pending; simpl;
    try (apply codeOf_lookup in Hcode;
         pose proof (concat_insert_length _ _ _ rest Hcode) as Hlen;
         simpl in Hlen).
  - right. rewrite Hrun, Hready. simpl. lia.
  - right. rewrite Hrun. lia.
  - left. lia.
  - right. rewrite Hrun. lia.
  - left. lia.
  - left. lia.
Qed.

Lemma run_terminates (m : Machine) : exists fuel : nat, step (run fuel m) = None.
Proof.
  remember (remaining m) as n1 eqn:H1. revert m H1.
  induction n1 as [n1 IH1] using lt_wf_ind. intros m H1.
  remember (pending m) as n2 eqn:H2. revert m H1 H2.
  induction n2 as [n2 IH2] using lt_wf_ind. intros m H1 H2.
  destruct (step m) as [m'|] eqn:Hstep; [| now exists 0].
  assert (Hnext : exists fuel, step (run fuel m') = None).
  { destruct (Step_decreases m m') as [Hlt | [Heq Hlt]].
    - now apply step_Step.
    - eapply IH1; [| reflexivity]. lia.
    - eapply IH2; [| | reflexivity]; lia. }
  destruct Hnext as [fuel Hfuel]. exists (S fuel). simpl. now rewrite Hstep.
Qed.

Lemma run_steps (fuel : nat) : forall m : Machine, steps m (run fuel m).
Proof.
  induction fuel as [|fuel IH]; intros m; simpl; [apply rtc_refl |].
  destruct (step m) as [m'|] eqn:Hstep; [| apply rtc_refl].
  eapply rtc_l; [exact Hstep | apply IH].
Qed.

(** *** The state in which the Dispatcher stops *)

Lemma step_None (m : Machine) :
  step m = None -> running m = None /\ readyQueue m = [].
Proof.
  unfold step. destruct (running m) as [c|].
  - destruct (codeOf m c) as [|[| |] rest]; try discriminate.
    destruct (negb (Event_get (event m))); discriminate.
  - destruct (readyQueue m); [auto | discriminate].
Qed.

Lemma stopped_finished (programs : list (list Instr)) (m : Machine) :
  invariant programs m -> step m = None ->
  forall c : ContextId,
    codeOf m c = []
    /\ count_occ Nat.eq_dec (entered m) c = blocks (default [] (programs !! c)).
Proof.
  intros [Hscoped Htracked Hfree Hheld Hqueue Hentered] Hstop c.
  apply step_None in Hstop as [Hrun Hready].
  assert (Hstate : state (event m) = true).
  { destruct (state (event m)) eqn:Hst; [reflexivity |].
    destruct (Hheld eq_refl) as (h & _ & [Hr | Hr] & _).
    - congruence.
    - rewrite Hready in Hr. now apply elem_of_nil in Hr. }
  destruct (Hfree Hstate) as [Hw _].
  assert (Hdone : codeOf m c = []).
  { destruct (codeOf m c) as [|i rest] eqn:Hcode; [reflexivity |].
    destruct (Htracked c) as [Hr | [Hr | Hr]].
    - rewrite Hcode. discriminate.
    - congruence.
    - rewrite Hready in Hr. now apply elem_of_nil in Hr.
    - rewrite Hw in Hr. now apply elem_of_nil in Hr. }
  split; [exact Hdone |].
  rewrite <- Hentered, Hdone. unfold blocks. simpl. lia.
Qed.


(** *** The order of entry *)

Lemma member_true (c : ContextId) (log : list ContextId) :
  member c log = true <-> c ∈ log.
Proof. unfold member. apply bool_decide_eq_true. Qed.

Lemma member_false (c : ContextId) (log : list ContextId) :
  member c log = false <-> c ∉ log.
Proof. unfold member. apply bool_decide_eq_false. Qed.

Lemma member_snoc (c r : ContextId) (log : list ContextId) :
  member c (log ++ [r]) = member c log || (c =? r).
Proof.
  unfold member. apply eq_true_iff_eq.
  rewrite orb_true_iff, !bool_decide_eq_true, Nat.eqb_eq, elem_of_app,
    list_elem_of_singleton. tauto.
Qed.

Lemma filter_all (f : ContextId -> bool) (l : list ContextId) :
  (forall x, x ∈ l -> f x = true) -> List.filter f l = l.
Proof.
  induction l as [|x l IH]; intros Hall; simpl; [reflexivity |].
  rewrite (Hall x) by apply list_elem_of_here.
  f_equal. apply IH. intros y Hy. apply Hall. now apply list_elem_of_further.
Qed.

Lemma filter_none (f : ContextId -> bool) (l : list ContextId) :
  (forall x, x ∈ l -> f x = false) -> List.filter f l = [].
Proof.
  induction l as [|x l IH]; intros Hall; simpl; [reflexivity |].
  rewrite (Hall x) by apply list_elem_of_here.
  apply IH. intros y Hy. apply Hall. now apply list_elem_of_further.
Qed.

Lemma filter_agree (f g : ContextId -> bool) (l : list ContextId) :
  (forall x, x ∈ l -> f x = g x) -> List.filter f l = List.filter g l.
Proof.
  intros Hagree. apply List.filter_ext_in. intros x Hx.
  apply Hagree. now apply list_elem_of_In.
Qed.

Lemma elem_of_filter_bool (f : ContextId -> bool) (l : list ContextId) (x : ContextId) :
  x ∈ List.filter f l <-> x ∈ l /\ f x = true.
Proof. rewrite !list_elem_of_In. apply List.filter_In. Qed.

(** A fresh [wait()] of [r] moves [r] to the end of the order. *)
Lemma lastOccurrences_snoc (log : list ContextId) (r : ContextId) :
  lastOccurrences (log ++ [r])
  = List.filter (fun c => negb (c =? r)) (lastOccurrences log) ++ [r].
Proof.
  induction log as [|c log IH]; simpl; [reflexivity |].
  rewrite member_snoc. destruct (Nat.eqb_spec c r) as [-> | Hne].
  - rewrite orb_true_r, IH.
    destruct (member r log); simpl; [reflexivity |].
    now rewrite Nat.eqb_refl.
  - rewrite orb_false_r. destruct (member c log); simpl; [exact IH |].
    apply Nat.eqb_neq in Hne. rewrite Hne. simpl. now rewrite IH.
Qed.

Section Fifo.

Variable programs : list (list Instr).
Hypothesis one_block : forall c, blocks (default [] (programs !! c)) <= 1.

(** With one block per Context, a Context at the constructor has not
    entered before. *)
Lemma not_entered_at_acquire (m : Machine) (c : ContextId) (rest : list Instr) :
  invariant programs m -> codeOf m c = Acquire :: rest -> c ∉ entered m.
Proof.
  intros Hinv Hcode. pose proof (inv_entered _ _ Hinv c) as Hcount.
  rewrite Hcode in Hcount. unfold blocks at 1 in Hcount. simpl in Hcount.
  destruct (Instr_eq_dec Acquire Acquire) as [_ | Hne]; [| congruence].
  specialize (one_block c).
  rewrite list_elem_of_In. apply (count_occ_not_In Nat.eq_dec). lia.
Qed.

Lemma fifo_start : fifo (start programs true).
Proof.
  split; unfold queuedAfterWaiting, enteredAfterWaiting, scheduled, waitsToEnter;
    simpl.
  - rewrite app_nil_r. apply NoDup_ListNoDup, List.seq_NoDup.
  - intros c Hc. discriminate.
  - apply filter_none. reflexivity.
Qed.

(** Every step keeps the order. *)
Lemma fifo_step (m m' : Machine) :
  invariant programs m -> fifo m -> Step m m' -> fifo m'.
Proof.
  intros Hinv [Hnodup Hacq Horder] Hstep.
  unfold queuedAfterWaiting, enteredAfterWaiting, scheduled in *.
  destruct Hstep as [c ready' Hrun Hready | c Hrun Hcode | c rest Hrun Hcode
                    | c rest Hrun Hcode Hstate | c rest Hrun Hcode Hstate
                    | c rest Hrun Hcode];
    try (assert (Hlt : c < length (contexts m))
           by (apply codeOf_lt; rewrite Hcode; discriminate));
    rewrite Hrun in *; try rewrite Hready in *; simpl in *.
  - (* dispatch *)
    split; unfold queuedAfterWaiting, enteredAfterWaiting, scheduled; simpl;
      assumption.
  - (* finished *)
    assert (Hw : waitsToEnter m c = false).
    { destruct (waitsToEnter m c) eqn:Hw; [| reflexivity].
      destruct (Hacq c Hw) as [rest Hrest]. congruence. }
    rewrite Hw in Horder.
    split; unfold queuedAfterWaiting, enteredAfterWaiting, scheduled; simpl.
    + now apply NoDup_cons in Hnodup as [_ Hnodup].
    + exact Hacq.
    + exact Horder.
  - (* yield *)
    assert (Hw : waitsToEnter m c = false).
    { destruct (waitsToEnter m c) eqn:Hw; [| reflexivity].
      destruct (Hacq c Hw) as [rest0 Hrest]. congruence. }
    rewrite Hw in Horder.
    split; unfold queuedAfterWaiting, enteredAfterWaiting, scheduled; simpl.
    + rewrite <- app_assoc. simpl.
      eapply NoDup_Permutation_proper; [| exact Hnodup].
      rewrite (Permutation_middle (readyQueue m)). reflexivity.
    + intros c0 Hc0. change (waitsToEnter m c0 = true) in Hc0.
      destruct (Hacq c0 Hc0) as [rest0 Hrest]. exists rest0.
      rewrite codeOf_updated by (rewrite Hcode; discriminate).
      case_decide; [subst c0; congruence | exact Hrest].
    + rewrite <- Horder. f_equal.
      change (List.filter (waitsToEnter m)
                ((readyQueue m ++ [c]) ++ waiters (event m))
              = List.filter (waitsToEnter m) (readyQueue m ++ waiters (event m))).
      rewrite !List.filter_app. simpl. rewrite Hw. now rewrite app_nil_r.
  - (* wait *)
    pose proof (not_entered_at_acquire m c rest Hinv Hcode) as Hnot.
    apply NoDup_cons in Hnodup as [Hfresh Hnodup].
    assert (Hw' : forall x, x <> c ->
              member x (waited m ++ [c]) && negb (member x (entered m))
              = waitsToEnter m x).
    { intros x Hx. unfold waitsToEnter. rewrite member_snoc.
      apply Nat.eqb_neq in Hx. now rewrite Hx, orb_false_r. }
    split; unfold queuedAfterWaiting, enteredAfterWaiting, scheduled, waitsToEnter;
      simpl.
    + rewrite app_assoc. apply NoDup_app. repeat split.
      * exact Hnodup.
      * intros x Hx Hc. apply list_elem_of_singleton in Hc. now subst x.
      * apply NoDup_singleton.
    + intros c0 Hc0. destruct (decide (c0 = c)) as [-> | Hne].
      * now exists rest.
      * rewrite Hw' in Hc0 by exact Hne. apply Hacq in Hc0. exact Hc0.
    + set (A := List.filter (fun x => member x (waited m)) (entered m)) in *.
      set (F := List.filter (waitsToEnter m) (readyQueue m ++ waiters (event m)))
        in *.
      assert (HA : List.filter
                     (fun x => member x (waited m ++ [c])) (entered m) = A).
      { apply filter_agree. intros x Hx. rewrite member_snoc.
        destruct (Nat.eqb_spec x c) as [-> | _]; [contradiction |].
        apply orb_false_r. }
      assert (HF : List.filter
                     (fun x => member x (waited m ++ [c])
                               && negb (member x (entered m)))
                     (readyQueue m ++ waiters (event m) ++ [c])
                   = F ++ [c]).
      { rewrite app_assoc, List.filter_app. simpl.
        rewrite member_snoc, Nat.eqb_refl, orb_true_r.
        apply member_false in Hnot. rewrite Hnot. simpl. f_equal.
        apply filter_agree. intros x Hx. apply Hw'. congruence. }
      assert (Hkeep : forall l : list nat, c ∉ l ->
                List.filter (fun x => negb (x =? c)) l = l).
      { intros l Hl. apply filter_all. intros x Hx.
        apply negb_true_iff, Nat.eqb_neq. congruence. }
      assert (HcA : c ∉ A).
      { intros [Hc _]%elem_of_filter_bool. contradiction. }
      assert (HcF : c ∉ F).
      { intros [Hc _]%elem_of_filter_bool. contradiction. }
      rewrite HA, HF, lastOccurrences_snoc, <- Horder.
      rewrite List.filter_app, (Hkeep A HcA), <- app_assoc. do 2 f_equal.
      destruct (waitsToEnter m c); simpl; rewrite ?Nat.eqb_refl; simpl;
        now rewrite (Hkeep F HcF).
  - (* enter *)
    pose proof (not_entered_at_acquire m c rest Hinv Hcode) as Hnot.
    pose proof Hnodup as Hnodup0.
    apply NoDup_cons in Hnodup0 as [Hfresh _].
    assert (Hw' : forall x, x <> c ->
              member x (waited m) && negb (member x (entered m ++ [c]))
              = waitsToEnter m x).
    { intros x Hx. unfold waitsToEnter. rewrite member_snoc.
      apply Nat.eqb_neq in Hx. now rewrite Hx, orb_false_r. }
    split; unfold queuedAfterWaiting, enteredAfterWaiting, scheduled, waitsToEnter;
      simpl.
    + exact Hnodup.
    + intros c0 Hc0. destruct (decide (c0 = c)) as [-> | Hne].
      * rewrite member_snoc, Nat.eqb_refl, orb_true_r, andb_false_r in Hc0.
        discriminate.
      * rewrite Hw' in Hc0 by exact Hne. destruct (Hacq c0 Hc0) as [rest0 Hrest].
        exists rest0. rewrite codeOf_updated by (rewrite Hcode; discriminate).
        now rewrite decide_False.
    + rewrite <- Horder, List.filter_app. simpl.
      rewrite member_snoc, Nat.eqb_refl, orb_true_r, andb_false_r.
      rewrite (filter_agree _ (waitsToEnter m) (readyQueue m ++ waiters (event m))).
      2:{ intros x Hx. apply Hw'. congruence. }
      unfold waitsToEnter at 2. apply member_false in Hnot. rewrite Hnot.
      rewrite andb_true_r, <- app_assoc.
      now destruct (member c (waited m)).
  - (* leave *)
    assert (Hw : waitsToEnter m c = false).
    { destruct (waitsToEnter m c) eqn:Hw; [| reflexivity].
      destruct (Hacq c Hw) as [rest0 Hrest]. congruence. }
    split; unfold queuedAfterWaiting, enteredAfterWaiting, scheduled; simpl.
    + now rewrite app_nil_r.
    + intros c0 Hc0. change (waitsToEnter m c0 = true) in Hc0.
      destruct (Hacq c0 Hc0) as [rest0 Hrest]. exists rest0.
      rewrite codeOf_updated by (rewrite Hcode; discriminate).
      case_decide; [subst c0; congruence | exact Hrest].
    + rewrite app_nil_r. exact Horder.
Qed.

End Fifo.

Lemma one_block_lookup (programs : list (list Instr)) :
  Forall (fun code => blocks code <= 1) programs ->
  forall c, blocks (default [] (programs !! c)) <= 1.
Proof.
  intros Hone c. destruct (programs !! c) as [code|] eqn:Hc; simpl.
  - rewrite Forall_forall in Hone. apply Hone.
    eapply list_elem_of_lookup_2, Hc.
  - unfold blocks. simpl. lia.
Qed.

Lemma fifo_steps (programs : list (list Instr)) (m : Machine) :
  Forall (fun code => scoped false code = true) programs ->
  Forall (fun code => blocks code <= 1) programs ->
  steps (start programs true) m ->
  invariant programs m /\ fifo m.
Proof.
  intros Hscoped Hone. revert m. apply rtc_ind_r.
  - split; [now apply invariant_start | apply fifo_start].
  - intros m0 m1 _ Hlast [Hinv Hfifo]. apply step_Step in Hlast. split.
    + eapply invariant_step; eassumption.
    + eapply fifo_step; try eassumption. now apply one_block_lookup.
Qed.

Lemma fifo_finished (programs : list (list Instr)) (m : Machine) :
  fifo m -> allFinished programs m ->
  enteredAfterWaiting m = lastOccurrences (waited m).
Proof.
  intros [_ Hacq Horder] [_ Hdone]. rewrite <- Horder.
  unfold queuedAfterWaiting. rewrite filter_none; [now rewrite app_nil_r |].
  intros x _. destruct (waitsToEnter m x) eqn:Hw; [| reflexivity].
  destruct (Hacq x Hw) as [rest Hrest]. destruct (Hdone x) as [Hnil _].
  congruence.
Qed.

Lemma run_stopped (fuel : nat) (m : Machine) :
  step m = None -> run fuel m = m.
Proof. intros Hstop. destruct fuel; simpl; [reflexivity | now rewrite Hstop]. Qed.

Lemma run_add (fuel1 fuel2 : nat) :
  forall m : Machine, run (fuel1 + fuel2) m = run fuel2 (run fuel1 m).
Proof.
  induction fuel1 as [|fuel1 IH]; intros m; simpl; [reflexivity |].
  destruct (step m) as [m'|] eqn:Hstep; [apply IH |].
  symmetry. now apply run_stopped.
Qed.

(** ** The steps of the machine and the code of [EventLock.cpp] *)

(** A step changes the program and the entries of the running Context
    only. *)
Lemma step_others (m m' : Machine) (c : ContextId) :
  step m = Some m' -> running m <> Some c ->
  codeOf m' c = codeOf m c
  /\ count_occ Nat.eq_dec (entered m') c = count_occ Nat.eq_dec (entered m) c.
Proof.
  intros Hstep Hother. apply step_Step in Hstep.
  destruct Hstep as [c0 ready' Hrun Hready | c0 Hrun Hcode | c0 rest Hrun Hcode
                    | c0 rest Hrun Hcode Hstate | c0 rest Hrun Hcode Hstate
                    | c0 rest Hrun Hcode];
    try (split; reflexivity);
    assert (Hne : c <> c0) by congruence;
    (split;
     [ rewrite codeOf_updated by (rewrite Hcode; discriminate);
       now destruct (decide (c = c0))
     | cbn [entered]; try reflexivity ]).
  rewrite count_occ_snoc. destruct (decide (c = c0)); [contradiction | lia].
Qed.

(** When the Dispatcher resumes [c], it has made steps of the machine, the
    first of which [c] did not make, and [c] is where it was suspended. *)
Lemma resume_Resumed (c : ContextId) (lifetime : nat) :
  forall m m' : Machine,
    resume c lifetime m = (m', Resumed) ->
    (exists j : nat, j <= lifetime /\ m' = run j m)
    /\ steps m m'
    /\ running m' = Some c
    /\ codeOf m' c = codeOf m c
    /\ count_occ Nat.eq_dec (entered m') c = count_occ Nat.eq_dec (entered m) c.
Proof.
  induction lifetime as [|lifetime IH]; intros m m' Hresume; cbn [resume] in Hresume.
  - destruct (bool_decide (running m = Some c)) eqn:Hrun; [| discriminate].
    injection Hresume as <-. apply bool_decide_eq_true in Hrun.
    repeat split; try assumption; try reflexivity. exists 0. split; [lia | reflexivity].
  - destruct (bool_decide (running m = Some c)) eqn:Hrun.
    + injection Hresume as <-. apply bool_decide_eq_true in Hrun.
      repeat split; try assumption; try reflexivity.
      exists 0. split; [lia | reflexivity].
    + apply bool_decide_eq_false in Hrun.
      destruct (step m) as [m1|] eqn:Hstep; [| discriminate].
      destruct (IH m1 m' Hresume) as ((j & Hj & Hrun') & Hsteps & Hrunning & Hcode & Hentered).
      destruct (step_others m m1 c Hstep Hrun) as [Hcode1 Hentered1].
      repeat split; try assumption; try congruence.
      * exists (S j). split; [lia |]. cbn [run]. now rewrite Hstep.
      * eapply rtc_l; [exact Hstep | exact Hsteps].
Qed.

Lemma steps_trans (m1 m2 m3 : Machine) : steps m1 m2 -> steps m2 m3 -> steps m1 m3.
Proof. unfold steps. intros H1 H2. now transitivity m2. Qed.

(** Soundness: a return of the constructor is an entry of the machine. *)
Lemma EventLock_ctor_sound (c : ContextId) (lifetime : nat) (rest : list Instr)
  (fuel : nat) :
  forall (m : Machine) (log : list Call) (m' : Machine) (log' : list Call),
    running m = Some c -> codeOf m c = Acquire :: rest ->
    @EventLock_ctor Machine (Contending_EventOps c lifetime) fuel m log
    = Some (m', log', Normal tt) ->
    steps m (enter c rest m')
    /\ (exists n : nat, enter c rest m' = run n m)
    /\ running m' = Some c
    /\ codeOf m' c = Acquire :: rest
    /\ Event_get (event m') = false.
Proof.
  induction fuel as [|fuel IH]; intros m log m' log' Hrun Hcode Hctor;
    [discriminate |].
  cbn [EventLock_ctor] in Hctor. cbn [get wait clear Contending_EventOps] in Hctor.
  assert (Hstep : step m
    = if negb (Event_get (event m)) then
        Some (mkMachine (readyQueue m) None (fst (Event_wait c (event m)))
                (contexts m) (entered m) (waited m ++ [c]))
      else Some (enter c rest (Contending_clear m))).
  { unfold step. rewrite Hrun, Hcode. unfold enter, Contending_clear. cbn.
    now rewrite Hrun. }
  destruct (Event_get (event m)) eqn:Hget; cbn [negb] in Hctor, Hstep.
  - injection Hctor as <- <-. repeat split; try assumption.
    + eapply rtc_l; [exact Hstep | apply rtc_refl].
    + exists 1. cbn [run]. now rewrite Hstep.
  - unfold Contending_wait in Hctor. unfold Event_get in Hget.
    unfold Event_wait in Hctor, Hstep. rewrite Hget in Hctor, Hstep.
    cbn [fst] in Hstep.
    destruct (resume c lifetime _) as [m2 [|]] eqn:Hresume; [| discriminate].
    apply resume_Resumed in Hresume
      as ((j & _ & Hj) & Hsteps & Hrun2 & Hcode2 & _).
    rewrite codeOf_kept, Hcode in Hcode2.
    destruct (IH m2 _ m' log' Hrun2 Hcode2 Hctor)
      as (Hsteps' & (n & Hn) & Hrun' & Hcode' & Hget').
    repeat split; try assumption.
    + eapply rtc_l; [exact Hstep |]. eapply steps_trans; eassumption.
    + exists (S (j + n)). cbn [run]. rewrite Hstep, run_add, <- Hj. exact Hn.
Qed.

(** The destructor is the step of the machine at [Release]. *)
Lemma EventLock_dtor_step (c : ContextId) (lifetime : nat) (rest : list Instr)
  (m : Machine) (log : list Call) :
  running m = Some c -> codeOf m c = Release :: rest ->
  step m
  = Some (leave c rest
            (fst (@EventLock_dtor Machine (Contending_EventOps c lifetime) m log))).
Proof.
  intros Hrun Hcode. unfold step. rewrite Hrun, Hcode.
  unfold EventLock_dtor, leave. cbn. now rewrite Hrun.
Qed.

Lemma resume_longer (c : ContextId) (lifetime : nat) :
  forall (lifetime' : nat) (m m' : Machine),
    resume c lifetime m = (m', Resumed) -> lifetime <= lifetime' ->
    resume c lifetime' m = (m', Resumed).
Proof.
  induction lifetime as [|lifetime IH]; intros lifetime' m m' Hresume Hle;
    cbn [resume] in Hresume.
  - destruct (bool_decide (running m = Some c)) eqn:Hrun; [| discriminate].
    destruct lifetime'; cbn [resume]; now rewrite Hrun.
  - destruct lifetime' as [|lifetime']; [lia |]. cbn [resume].
    destruct (bool_decide (running m = Some c)); [exact Hresume |].
    destruct (step m) as [m1|]; [| discriminate].
    apply IH; [exact Hresume | lia].
Qed.

(** A Context that enters has been resumed before. *)
Lemma resume_before_entry (c : ContextId) (j : nat) :
  forall m : Machine,
    count_occ Nat.eq_dec (entered m) c
    < count_occ Nat.eq_dec (entered (run j m)) c ->
    exists (m2 : Machine) (j' : nat),
      j' <= j /\ resume c j m = (m2, Resumed) /\ run (j - j') m2 = run j m.
Proof.
  induction j as [|j IH]; intros m Hentered; [simpl in Hentered; lia |].
  cbn [resume].
  destruct (bool_decide (running m = Some c)) eqn:Hrun.
  - exists m, 0. split; [lia |]. split; [reflexivity |]. now rewrite Nat.sub_0_r.
  - apply bool_decide_eq_false in Hrun. cbn [run] in Hentered |- *.
    destruct (step m) as [m1|] eqn:Hstep; [| lia].
    destruct (step_others m m1 c Hstep Hrun) as [_ Hsame].
    rewrite <- Hsame in Hentered.
    destruct (IH m1 Hentered) as (m2 & j' & Hj' & Hresume & Hrest).
    exists m2, (S j'). split; [lia |]. split; [exact Hresume |].
    exact Hrest.
Qed.

(** Completeness: an entry of the machine is a return of the
    constructor. *)
Lemma EventLock_ctor_complete (c : ContextId) (rest : list Instr) (n : nat) :
  forall (m : Machine) (lifetime fuel : nat) (log : list Call),
    n <= lifetime -> n < fuel ->
    running m = Some c -> codeOf m c = Acquire :: rest ->
    count_occ Nat.eq_dec (entered m) c
    < count_occ Nat.eq_dec (entered (run n m)) c ->
    exists (m' : Machine) (log' : list Call),
      @EventLock_ctor Machine (Contending_EventOps c lifetime) fuel m log
      = Some (m', log', Normal tt).
Proof.
  induction n as [n IH] using lt_wf_ind.
  intros m lifetime fuel log Hlife Hfuel Hrun Hcode Hentered.
  destruct fuel as [|fuel]; [lia |].
  cbn [EventLock_ctor]. cbn [get wait clear Contending_EventOps].
  destruct (Event_get (event m)) eqn:Hget; cbn [negb]; [now eexists; eexists |].
  destruct n as [|n]; [simpl in Hentered; lia |].
  assert (Hstep : step m
    = Some (mkMachine (readyQueue m) None (fst (Event_wait c (event m)))
              (contexts m) (entered m) (waited m ++ [c]))).
  { unfold step. rewrite Hrun, Hcode, Hget. reflexivity. }
  cbn [run] in Hentered. rewrite Hstep in Hentered.
  unfold Contending_wait. unfold Event_get in Hget.
  unfold Event_wait in Hentered |- *. rewrite Hget in Hentered |- *.
  cbn [fst] in Hentered.
  match type of Hentered with
  | context [run n ?m1] => set (waiting := m1) in *
  end.
  destruct (resume_before_entry c n waiting Hentered)
    as (m2 & j' & Hj' & Hresume & Hrest).
  apply (resume_longer c n lifetime) in Hresume; [| lia].
  rewrite Hresume.
  destruct (resume_Resumed c lifetime waiting m2 Hresume)
    as (_ & _ & Hrun2 & Hcode2 & Hentered2).
  subst waiting. rewrite codeOf_kept, Hcode in Hcode2.
  cbn [entered] in Hentered2, Hentered.
  apply (IH (n - j')); try assumption; try lia.
  rewrite Hrest, Hentered2. exact Hentered.
Qed.

(** *** Started with the Event not set *)

Lemma unset_steps (programs : list (list Instr)) :
  Forall (fun code => scoped false code = true) programs ->
  forall m : Machine, steps (start programs false) m ->
    state (event m) = false
    /\ entered m = []
    /\ forall c, scoped false (codeOf m c) = true.
Proof.
  intros Hscoped. apply rtc_ind_r.
  - repeat split. intros c. unfold codeOf. cbn [start contexts].
    destruct (programs !! c) as [code|] eqn:Hc; [| reflexivity].
    rewrite Forall_forall in Hscoped. apply Hscoped.
    eapply list_elem_of_lookup_2, Hc.
  - intros m m' _ Hstep (Hstate & Hentered & Hcode). apply step_Step in Hstep.
    destruct Hstep as [c0 ready' Hrun Hready | c0 Hrun Hc0 | c0 rest Hrun Hc0
                      | c0 rest Hrun Hc0 Hs | c0 rest Hrun Hc0 Hs
                      | c0 rest Hrun Hc0];
      try (repeat split; assumption).
    + repeat split; try assumption. intros c.
      rewrite codeOf_updated by (rewrite Hc0; discriminate).
      destruct (decide (c = c0)); [| apply Hcode].
      specialize (Hcode c0). now rewrite Hc0 in Hcode.
    + congruence.
    + specialize (Hcode c0). rewrite Hc0 in Hcode. discriminate.
Qed.

(** *** A Context that takes the lock again and again *)

Lemma overtaking_round (j : nat) (ent wt : list ContextId) :
  run 6 (overtakingLoop (S j) ent wt) = overtakingLoop j (ent ++ [0]) (wt ++ [1]).
Proof. reflexivity. Qed.

Lemma overtaking_rounds (j : nat) :
  forall ent wt : list ContextId,
    run (6 * j) (overtakingLoop j ent wt)
    = overtakingLoop 0 (ent ++ repeat 0 j) (wt ++ repeat 1 j).
Proof.
  induction j as [|j IH]; intros ent wt.
  - simpl. now rewrite !app_nil_r.
  - replace (6 * S j) with (6 + 6 * j) by lia.
    rewrite run_add, overtaking_round, IH. cbn [repeat].
    now rewrite <- !app_assoc.
Qed.

Lemma overtaking_run (k : nat) :
  let final := run (6 * k + 6) (start (overtaking k) true) in
  step final = None
  /\ entered final = repeat 0 k ++ [1]
  /\ waited final = repeat 1 k.
Proof.
  intros final. subst final.
  replace (6 * k + 6) with (1 + (6 * k + 5)) by lia.
  rewrite (run_add 1).
  change (run 1 (start (overtaking k) true)) with (overtakingLoop k [] []).
  rewrite run_add, overtaking_rounds. repeat split.
Qed.

(** C3, as the code and the model have it. For Contexts that use the lock
    as scoped guards do, on one Dispatcher:
    - at most one Context is inside the guarded block at any time, whether
      the Event is set at the outset or not;
    - the steps of the machine at the head of a guarded block are the
      constructor of [EventLock.cpp]: when [EventLock_ctor], run by the
      Context on this Dispatcher, returns, the machine has made the steps
      to the state in which the Context has entered, the Context is inside
      and no other Context is; and when the machine lets the Context enter,
      [EventLock_ctor] returns;
    - the step at the end of a guarded block is the destructor
      [EventLock_dtor]: its [set()] leaves the Event set and appends the
      queue of the Event, in its order, to the ready queue;
    - with the Event set at the outset, the Event is cleared exactly while
      a Context is inside, and the queue of the Event is the tail of the
      log of the [wait()] calls;
    - with the Event not set at the outset, no Context ever enters;
    - with the Event set at the outset, the run of these finite programs
      comes to an end, and then every Context has run to its end and has
      entered once for each of its guarded blocks;
    - when every Context has one guarded block, the Contexts that had to
      wait enter in the order of their last [wait()] calls;
    - a Context that finds the Event set enters without waiting, also
      ahead of a Context that waits: in [overtaking k] the second Context
      waits first and [k] times, and enters after the [k] entries of the
      first. *)
Theorem EventLock_mutual_exclusion_progress (programs : list (list Instr)) :
  Forall (fun code => scoped false code = true) programs ->
  (forall (set : bool) (m : Machine),
     steps (start programs set) m -> atMostOneInside m)
  /\ (forall (set : bool) (m : Machine) (c : ContextId) (rest : list Instr),
        steps (start programs set) m ->
        running m = Some c -> codeOf m c = Acquire :: rest ->
        (forall (lifetime fuel : nat) (m' : Machine) (log' : list Call),
           @EventLock_ctor Machine (Contending_EventOps c lifetime) fuel m []
           = Some (m', log', Normal tt) ->
           steps m (enter c rest m')
           /\ inside (enter c rest m') c = true
           /\ forall c', inside (enter c rest m') c' = true -> c' = c)
        /\ (forall n : nat,
              count_occ Nat.eq_dec (entered m) c
              < count_occ Nat.eq_dec (entered (run n m)) c ->
              exists (m' : Machine) (log' : list Call),
                @EventLock_ctor Machine (Contending_EventOps c n) (S n) m []
                = Some (m', log', Normal tt)))
  /\ (forall (m : Machine) (c : ContextId) (rest : list Instr) (lifetime : nat),
        running m = Some c -> codeOf m c = Release :: rest ->
        let released :=
          fst (@EventLock_dtor Machine (Contending_EventOps c lifetime) m []) in
        step m = Some (leave c rest released)
        /\ readyQueue released = readyQueue m ++ waiters (event m)
        /\ Event_get (event released) = true)
  /\ (forall m : Machine, steps (start programs true) m ->
        (Event_get (event m) = false <-> exists c, inside m c = true)
        /\ exists earlier, waited m = earlier ++ waiters (event m))
  /\ (forall m : Machine, steps (start programs false) m ->
        Event_get (event m) = false /\ entered m = [])
  /\ (exists fuel : nat, allFinished programs (run fuel (start programs true)))
  /\ (Forall (fun code => blocks code <= 1) programs ->
      forall m : Machine, steps (start programs true) m ->
        (exists queue : list ContextId,
           lastOccurrences (waited m) = enteredAfterWaiting m ++ queue)
        /\ (allFinished programs m ->
            enteredAfterWaiting m = lastOccurrences (waited m)))
  /\ (forall k : nat,
        let final := run (6 * k + 6) (start (overtaking k) true) in
        step final = None
        /\ entered final = repeat 0 k ++ [1]
        /\ waited final = repeat 1 k).
Proof.
  intros Hscoped.
  assert (Hmutex : forall (set : bool) (m : Machine),
            steps (start programs set) m -> atMostOneInside m).
  { intros [|] m Hsteps c1 c2 H1 H2.
    - destruct (invariant_steps programs Hscoped m Hsteps)
        as [_ _ Hfree Hheld _ _].
      destruct (state (event m)) eqn:Hstate.
      + destruct (Hfree eq_refl) as [_ Hnone]. specialize (Hnone c1). congruence.
      + destruct (Hheld eq_refl) as (h & _ & _ & Huniq).
        rewrite (Huniq c1 H1), (Huniq c2 H2). reflexivity.
    - destruct (unset_steps programs Hscoped m Hsteps) as (_ & _ & Hcode).
      unfold inside in H1. rewrite (scoped_holds false _ (Hcode c1)) in H1.
      discriminate. }
  assert (Hbody : forall (set : bool) (m : Machine) (c : ContextId) (rest : list Instr),
            steps (start programs set) m -> codeOf m c = Acquire :: rest ->
            holds rest = true).
  { intros [|] m c rest Hsteps Hcode.
    - destruct (invariant_steps programs Hscoped m Hsteps) as [Hsc _ _ _ _ _].
      specialize (Hsc c). rewrite Hcode in Hsc. simpl in Hsc.
      apply andb_true_iff in Hsc as [_ Hsc]. now apply scoped_holds.
    - destruct (unset_steps programs Hscoped m Hsteps) as (_ & _ & Hsc).
      specialize (Hsc c). rewrite Hcode in Hsc. simpl in Hsc.
      now apply scoped_holds. }
  split; [exact Hmutex |].
  split; [| split; [| split; [| split; [| split; [| split]]]]].
  - intros set m c rest Hsteps Hrun Hcode. split.
    + intros lifetime fuel m' log' Hctor.
      destruct (EventLock_ctor_sound c lifetime rest fuel m [] m' log'
                  Hrun Hcode Hctor) as (Hentry & _ & _ & Hcode' & _).
      assert (Hinside : inside (enter c rest m') c = true).
      { unfold inside, enter.
        rewrite codeOf_updated by (rewrite Hcode'; discriminate).
        destruct (decide (c = c)); [| congruence].
        exact (Hbody set m c rest Hsteps Hcode). }
      split; [exact Hentry |]. split; [exact Hinside |].
      intros c' Hc'.
      apply (Hmutex set (enter c rest m')); [| exact Hc' | exact Hinside].
      eapply steps_trans; eassumption.
    + intros n Hentered.
      apply (EventLock_ctor_complete c rest n); try assumption; lia.
  - intros m c rest lifetime Hrun Hcode released. subst released.
    split; [now apply EventLock_dtor_step |]. split; reflexivity.
  - intros m Hsteps.
    destruct (invariant_steps programs Hscoped m Hsteps)
      as [_ _ Hfree Hheld Hqueue _].
    split; [| exact Hqueue]. unfold Event_get. split.
    + intros Hstate. destruct (Hheld Hstate) as (h & Hin & _). now exists h.
    + intros [c Hin].
      destruct (state (event m)) eqn:Hstate; [| reflexivity].
      destruct (Hfree eq_refl) as [_ Hnone]. specialize (Hnone c). congruence.
  - intros m Hsteps.
    destruct (unset_steps programs Hscoped m Hsteps) as (Hstate & Hentered & _).
    split; assumption.
  - destruct (run_terminates (start programs true)) as [fuel Hstop].
    exists fuel. split; [exact Hstop |].
    apply stopped_finished; [| exact Hstop].
    apply invariant_steps; [exact Hscoped | apply run_steps].
  - intros Hone m Hsteps.
    destruct (fifo_steps programs m Hscoped Hone Hsteps) as [_ Hfifo].
    split.
    + exists (queuedAfterWaiting m). symmetry. apply (fifo_order _ Hfifo).
    + now apply fifo_finished.
  - apply overtaking_run.
Qed.

(** The four Contexts of [bargingPrograms]: the third takes the lock ahead
    of the second, which waits again behind the fourth; the two that waited
    enter in the order of their last waits, the fourth before the second. *)
Lemma EventLock_mutual_exclusion_progress_witness :
  let final := run 40 (start bargingPrograms true) in
  entered final = [0; 2; 3; 1]
  /\ waited final = [1; 3; 1]
  /\ enteredAfterWaiting final = lastOccurrences (waited final).
Proof.
  intros final. split; [reflexivity |]. split; [reflexivity |].
  assert (Hscoped : Forall (fun code => scoped false code = true) bargingPrograms)
    by (repeat constructor).
  assert (Hone : Forall (fun code => blocks code <= 1) bargingPrograms)
    by (repeat constructor).
  refine (proj2 (proj1 (proj2 (proj2 (proj2 (proj2 (proj2 (proj2
            (EventLock_mutual_exclusion_progress bargingPrograms Hscoped)))))))
            Hone final _) _).
  - apply run_steps.
  - split; [reflexivity |].
    intros c. do 4 (destruct c as [|c]; [split; reflexivity |]).
    split; reflexivity.
Defined.

(** C3 as stated fails on [bargingPrograms]: Context 1 is the first to
    wait and Context 3 waits after it, but Context 2 takes the lock while 1
    is ready again, 1 waits anew behind 3, and 3 enters before 1. *)
Lemma EventLock_fifo_counterexample : ~ mutexFifoNoStarvation bargingPrograms.
Proof.
  intros [Hsafe _].
  destruct (Hsafe (run 100 (start bargingPrograms true))) as [_ Hfifo];
    [apply run_steps |].
  destruct (Hfifo 1 3 0 1 2) as (ea & Hea & Hlt); try reflexivity; [lia |].
  vm_compute in Hea. injection Hea as <-. lia.
Qed.

(** With the Event left as it is created (not set), nobody ever enters. *)
Lemma EventLock_unset_event_blocks_all (fuel : nat) :
  entered (run fuel (start bargingPrograms false)) = [].
Proof.
  assert (Hstop : step (run 20 (start bargingPrograms false)) = None)
    by (vm_compute; reflexivity).
  destruct (Nat.le_gt_cases fuel 20) as [Hle | Hgt].
  - do 21 (destruct fuel as [|fuel]; [vm_compute; reflexivity |]). lia.
  - replace fuel with (20 + (fuel - 20)) by lia.
    rewrite run_add, (run_stopped _ _ Hstop). vm_compute. reflexivity.
Qed.

(** ** The socket layer *)

(** Membership in the set of open sockets after a release or an
    allocation. *)
Ltac solve_live :=
  first
    [ apply elem_of_union_r, elem_of_singleton; reflexivity
    | let Hin := fresh "Hin" in
      let Hout := fresh "Hout" in
      intros [Hin Hout]%elem_of_difference;
      apply Hout, elem_of_singleton; reflexivity ].

Lemma count_occ_released (h : Handle) (os : Os) :
  count_occ Nat.eq_dec (releases (Os_release h os)) h
  = S (count_occ Nat.eq_dec (releases os) h).
Proof.
  unfold Os_release. simpl. rewrite count_occ_snoc.
  rewrite decide_True by reflexivity. lia.
Qed.

Lemma TcpConnector_moved_from (source : TcpConnector) (os : Os) :
  let '(destination, moved) := TcpConnector_move source in
  destination = source
  /\ dispatcher moved = None /\ context moved = None
  /\ TcpConnector_dtor moved os = os
  /\ forall h : Handle,
       context source = Some h ->
       let destroyed := TcpConnector_dtor destination (TcpConnector_dtor moved os) in
       destroyed = TcpConnector_dtor moved (TcpConnector_dtor destination os)
       /\ (h ∉ live destroyed)
       /\ count_occ Nat.eq_dec (releases destroyed) h
          = S (count_occ Nat.eq_dec (releases os) h).
Proof.
  destruct source as [d c]. simpl. repeat split; try reflexivity.
  - unfold TcpConnector_dtor. simpl. subst c. simpl. solve_live.
  - unfold TcpConnector_dtor. simpl. subst c. apply count_occ_released.
Qed.

Lemma TcpConnection_moved_from (source : TcpConnection) (os : Os) :
  let '(destination, moved) := TcpConnection_move source in
  destination = source
  /\ connectionDispatcher moved = None /\ connection moved = None
  /\ TcpConnection_dtor moved os = os
  /\ forall h : Handle,
       connection source = Some h ->
       let destroyed := TcpConnection_dtor destination (TcpConnection_dtor moved os) in
       destroyed = TcpConnection_dtor moved (TcpConnection_dtor destination os)
       /\ (h ∉ live destroyed)
       /\ count_occ Nat.eq_dec (releases destroyed) h
          = S (count_occ Nat.eq_dec (releases os) h).
Proof.
  destruct source as [d c]. simpl. repeat split; try reflexivity.
  - unfold TcpConnection_dtor. simpl. subst c. simpl. solve_live.
  - unfold TcpConnection_dtor. simpl. subst c. apply count_occ_released.
Qed.

Lemma TcpConnector_move_assigned (self other : TcpConnector) (os : Os) :
  let '(assigned, moved, os1) := TcpConnector_move_assign self other os in
  assigned = other
  /\ dispatcher moved = None /\ context moved = None
  /\ forall h : Handle,
       context other = Some h -> context self <> Some h ->
       let destroyed := TcpConnector_dtor assigned (TcpConnector_dtor moved os1) in
       (h ∉ live destroyed)
       /\ count_occ Nat.eq_dec (releases destroyed) h
          = S (count_occ Nat.eq_dec (releases os) h).
Proof.
  destruct self as [d1 c1], other as [d2 c2]. simpl.
  repeat split; try reflexivity; subst c2; unfold TcpConnector_dtor; simpl.
  - solve_live.
  - rewrite count_occ_snoc, decide_True by reflexivity.
    destruct c1 as [h1|]; simpl; [| lia].
    rewrite count_occ_snoc, decide_False by congruence. lia.
Qed.

Lemma TcpConnection_move_assigned (self other : TcpConnection) (os : Os) :
  let '(assigned, moved, os1) := TcpConnection_move_assign self other os in
  assigned = other
  /\ connectionDispatcher moved = None /\ connection moved = None
  /\ forall h : Handle,
       connection other = Some h -> connection self <> Some h ->
       let destroyed :=
         TcpConnection_dtor assigned (TcpConnection_dtor moved os1) in
       (h ∉ live destroyed)
       /\ count_occ Nat.eq_dec (releases destroyed) h
          = S (count_occ Nat.eq_dec (releases os) h).
Proof.
  destruct self as [d1 c1], other as [d2 c2]. simpl.
  repeat split; try reflexivity; subst c2; unfold TcpConnection_dtor; simpl.
  - solve_live.
  - rewrite count_occ_snoc, decide_True by reflexivity.
    destruct c1 as [h1|]; simpl; [| lia].
    rewrite count_occ_snoc, decide_False by congruence. lia.
Qed.

(** C6. [TcpConnector] and [TcpConnection] cannot be copied and can be
    moved. After a move, by the move constructor or by move assignment, the
    source is unbound and holds no OS resource, its destructor leaves the
    OS as it is, and destroying the source and the destination, in either
    order, releases the resource once: it is no longer open, and the
    release log has one more entry for it. *)
Theorem move_then_destroy_releases_once :
  (TcpConnector_member CopyConstructor = Deleted
   /\ TcpConnector_member CopyAssignment = Deleted
   /\ TcpConnector_member MoveConstructor = Declared
   /\ TcpConnector_member MoveAssignment = Declared)
  /\ (TcpConnection_member CopyConstructor = Deleted
      /\ TcpConnection_member CopyAssignment = Deleted
      /\ TcpConnection_member MoveConstructor = Declared
      /\ TcpConnection_member MoveAssignment = Declared)
  /\ (forall (source : TcpConnector) (os : Os),
        let '(destination, moved) := TcpConnector_move source in
        destination = source
        /\ dispatcher moved = None /\ context moved = None
        /\ TcpConnector_dtor moved os = os
        /\ forall h : Handle,
             context source = Some h ->
             let destroyed :=
               TcpConnector_dtor destination (TcpConnector_dtor moved os) in
             destroyed = TcpConnector_dtor moved (TcpConnector_dtor destination os)
             /\ (h ∉ live destroyed)
             /\ count_occ Nat.eq_dec (releases destroyed) h
                = S (count_occ Nat.eq_dec (releases os) h))
  /\ (forall (source : TcpConnection) (os : Os),
        let '(destination, moved) := TcpConnection_move source in
        destination = source
        /\ connectionDispatcher moved = None /\ connection moved = None
        /\ TcpConnection_dtor moved os = os
        /\ forall h : Handle,
             connection source = Some h ->
             let destroyed :=
               TcpConnection_dtor destination (TcpConnection_dtor moved os) in
             destroyed = TcpConnection_dtor moved (TcpConnection_dtor destination os)
             /\ (h ∉ live destroyed)
             /\ count_occ Nat.eq_dec (releases destroyed) h
                = S (count_occ Nat.eq_dec (releases os) h))
  /\ (forall (self other : TcpConnector) (os : Os),
        let '(assigned, moved, os1) := TcpConnector_move_assign self other os in
        assigned = other
        /\ dispatcher moved = None /\ context moved = None
        /\ forall h : Handle,
             context other = Some h -> context self <> Some h ->
             let destroyed :=
               TcpConnector_dtor assigned (TcpConnector_dtor moved os1) in
             (h ∉ live destroyed)
             /\ count_occ Nat.eq_dec (releases destroyed) h
                = S (count_occ Nat.eq_dec (releases os) h))
  /\ (forall (self other : TcpConnection) (os : Os),
        let '(assigned, moved, os1) := TcpConnection_move_assign self other os in
        assigned = other
        /\ connectionDispatcher moved = None /\ connection moved = None
        /\ forall h : Handle,
             connection other = Some h -> connection self <> Some h ->
             let destroyed :=
               TcpConnection_dtor assigned (TcpConnection_dtor moved os1) in
             (h ∉ live destroyed)
             /\ count_occ Nat.eq_dec (releases destroyed) h
                = S (count_occ Nat.eq_dec (releases os) h)).
Proof.
  split; [repeat split |]. split; [repeat split |]. split; [| split; [| split]].
  - apply TcpConnector_moved_from.
  - apply TcpConnection_moved_from.
  - apply TcpConnector_move_assigned.
  - apply TcpConnection_move_assigned.
Qed.

(** A connection that owns socket 7, moved and then destroyed twice over. *)
Lemma move_then_destroy_releases_once_witness :
  let os := mkOs {[7]} [] 8 1 in
  let destroyed :=
    TcpConnection_dtor (mkTcpConnection (Some 0) (Some 7))
      (TcpConnection_dtor TcpConnection_default os) in
  (7 ∉ live destroyed) /\ count_occ Nat.eq_dec (releases destroyed) 7 = 1.
Proof.
  pose proof (proj1 (proj2 (proj2 (proj2 move_then_destroy_releases_once)))
                (mkTcpConnection (Some 0) (Some 7)) (mkOs {[7]} [] 8 1)) as Hmove.
  simpl in Hmove. destruct Hmove as (_ & _ & _ & _ & Honce).
  destruct (Honce 7 eq_refl) as (_ & Hclosed & Hcount).
  split; [exact Hclosed | exact Hcount].
Defined.

(** ** [connect] *)














